(** * smt-kit: the statically-sorted term library of [include/smt.h]

    A shallow embedding of the sort descriptors, declarations, expression
    nodes, term handles and builders of [namespace smt], followed by the
    properties of the library that are stated in its specification.

    Conventions of the embedding.

    - A C++ object with an address is modelled by a symbolic pointer: the
      objects with static storage duration that the templates of
      [namespace internal] define are named after the template
      instantiation that owns them, every other object has a numeric
      address.  Two pointers are equal exactly when they name the same
      object, which is what [this == &other] and [m_sorts == other.m_sorts]
      observe.  Pointers are to whole objects: a pointer to a node stands
      for the node, whichever base class it is typed with, and the offsets
      between the base subobjects of a node are not modelled.
    - [size_t] is [N]; the one narrowing conversion of the header (the
      [unsigned] result of [check_sorts_index]) is written out.
    - A function that can [throw], fail an [assert] or dereference a
      pointer to nothing returns an [Outcome]; [assert] is compiled in
      (no [NDEBUG]).
    - [new] allocates the next free cell of a heap of expression nodes; the
      heap is threaded through every builder.  Nodes are never freed in the
      model: a [shared_ptr] keeps its node alive as long as it is reachable,
      and reference counts are not observable through the interface. *)

From Stdlib Require Import ZArith NArith List String Bool Lia.
From stdpp Require Import base option list gmap strings.

Local Open Scope N_scope.

(** ** Outcomes of a C++ evaluation *)

Inductive Exception :=
  | out_of_range (what : string).

Inductive Outcome (A : Type) :=
  | Ret (a : A)               (* normal completion *)
  | Throw (e : Exception)     (* an exception propagates *)
  | Abort                     (* a failed [assert]: std::abort *)
  | Undefined.                (* a pointer to no object is dereferenced *)

Arguments Ret {A} a.
Arguments Throw {A} e.
Arguments Abort {A}.
Arguments Undefined {A}.

Global Instance Outcome_ret : MRet Outcome := fun A a => Ret a.

Global Instance Outcome_bind : MBind Outcome := fun A B f m =>
  match m with
  | Ret a => f a
  | Throw e => Throw e
  | Abort => Abort
  | Undefined => Undefined
  end.

(** [assert(c)] *)
Definition assert (c : bool) : Outcome unit :=
  if c then Ret tt else Abort.

(** A pointer or reference handed to the code is dereferenced. *)
Definition deref {A} (o : option A) : Outcome A :=
  match o with
  | Some a => Ret a
  | None => Undefined
  end.

Definition returns {A} (m : Outcome A) : Prop := exists a, m = Ret a.

(** ** The integral types of C++ and the data model *)

(** The types for which [Solver::encode_literal] is overloaded. *)
Inductive Integral :=
  | c_bool | c_char | c_signed_char | c_unsigned_char
  | c_wchar_t | c_char16_t | c_char32_t
  | c_short | c_unsigned_short | c_int | c_unsigned_int
  | c_long | c_unsigned_long | c_long_long | c_unsigned_long_long.

Global Instance Integral_eq_dec : EqDecision Integral.
Proof. solve_decision. Defined.

(** [sizeof(T)] and [std::is_signed<T>::value] are fixed by the platform. *)
Class DataModel := {
  sizeof : Integral -> N;
  is_signed : Integral -> bool
}.

(** ** Static types of terms *)

(** The classes [Bool], [Int], [Real], [Bv<T>], [Array<Domain, Range>] and
    [Func<T...>], used as template arguments. *)
#[warnings="-register-all"]
Inductive Ty :=
  | Bool
  | Int
  | Real
  | Bv (T : Integral)
  | Array (Domain Range : Ty)
  | Func (Ts : list Ty).

Global Instance Ty_eq_dec : EqDecision Ty.
Proof.
  unfold EqDecision, Decision. fix IH 1. intros x y. decide equality.
  - apply Integral_eq_dec.
  - apply (List.list_eq_dec IH).
Defined.

(** [std::is_same<T, U>::value] *)
Definition is_same (T U : Ty) : bool := bool_decide (T = U).

(** ** Pointers to sorts *)

(** [const Sort*]: the address of a [Sort] object. *)
Inductive SortPtr :=
  | Bv_s_sort (T : Integral)   (* &internal::__Bv<T>::s_sort *)
  | Math_s_sort (T : Ty)       (* &internal::__Math<T>::s_sort *)
  | Sort_at (a : N).           (* a Sort object declared elsewhere *)

Global Instance SortPtr_eq_dec : EqDecision SortPtr.
Proof. solve_decision. Defined.

(** [const Sort* const *]: the address of the first element of an array of
    pointers to sorts. *)
Inductive SortsPtr :=
  | nullptr
  | Array_s_sorts (Domain Range : Ty)
      (* internal::__Math<Array<Domain, Range>>::s_sorts *)
  | FuncSort_s_sorts (n : N) (sorts : list SortPtr)
      (* internal::__FuncSort<__SortArray<n, sorts...>>::s_sorts *)
  | Sorts_at (a : N).          (* an array declared elsewhere *)

Global Instance SortsPtr_eq_dec : EqDecision SortsPtr.
Proof. solve_decision. Defined.

(** ** class Sort *)

Record Sort := {
  m_is_bool : bool;
  m_is_int : bool;
  m_is_real : bool;
  m_is_bv : bool;
  m_is_signed : bool;
  m_bv_size : N;
  m_is_array : bool;
  m_is_func : bool;
  m_is_tuple : bool;
  m_sorts : SortsPtr;
  m_sorts_size : N
}.

(** [Sort(is_bool, is_int, is_real, is_bv, is_signed, bv_size)] *)
Definition Sort_primitive
    (is_bool is_int is_real is_bv is_signed : bool) (bv_size : N) : Sort :=
  {| m_is_bool := is_bool;
     m_is_int := is_int;
     m_is_real := is_real;
     m_is_bv := is_bv;
     m_is_signed := is_signed;
     m_bv_size := bv_size;
     m_is_array := false;
     m_is_func := false;
     m_is_tuple := false;
     m_sorts := nullptr;
     m_sorts_size := 0 |}.

(** [template<size_t N> Sort(is_func, is_array, is_tuple, sorts)], where
    [sorts] is a reference to an array of [N] pointers. *)
Definition Sort_composite
    (is_func is_array is_tuple : bool) (sorts : SortsPtr) (n : N) : Sort :=
  {| m_is_bool := false;
     m_is_int := false;
     m_is_real := false;
     m_is_bv := false;
     m_is_signed := false;
     m_bv_size := 0;
     m_is_array := is_array;
     m_is_func := is_func;
     m_is_tuple := is_tuple;
     m_sorts := sorts;
     m_sorts_size := n |}.

Definition is_bool (s : Sort) : bool := m_is_bool s.
Definition is_int (s : Sort) : bool := m_is_int s.
Definition is_real (s : Sort) : bool := m_is_real s.
Definition is_bv (s : Sort) : bool := m_is_bv s.
Definition bv_size (s : Sort) : N := m_bv_size s.
Definition is_func (s : Sort) : bool := m_is_func s.
Definition is_array (s : Sort) : bool := m_is_array s.
Definition sorts_size (s : Sort) : N := m_sorts_size s.

(** [check_sorts_index]: the index comes back converted to [unsigned]. *)
Definition check_sorts_index (s : Sort) (index : N) : Outcome N :=
  if m_sorts_size s <=? index
  then Throw (out_of_range "check_sorts_index fails"%string)
  else Ret (index mod 2 ^ 32).

(** The objects that are not defined by the templates of the header: the
    [Sort] objects and the arrays of sort pointers that a client declares. *)
Record Storage := {
  sort_objects : gmap N Sort;
  sorts_arrays : gmap N (list SortPtr)
}.

Definition no_storage : Storage :=
  {| sort_objects := ∅; sorts_arrays := ∅ |}.

Section Registry.

Context `{DM : DataModel}.

(** ** The registry [internal::sort<T>()] *)

(** [&__SortSwitch<T>::Type::s_sort] *)
Definition sort (T : Ty) : SortPtr :=
  match T with
  | Bv U => Bv_s_sort U
  | _ => Math_s_sort T
  end.

(** [__Bv<T>::s_sort] *)
Definition Bv_s_sort_value (T : Integral) : Sort :=
  Sort_primitive false false false true (is_signed T) (8 * sizeof T).

(** [__FuncSort<__SortArray<N, sorts...>, U...>::result()]: the sort of each
    remaining type is appended to the pack, the base case owns the array. *)
Fixpoint FuncSort_result (n : N) (sorts : list SortPtr) (U : list Ty)
    : SortsPtr :=
  match U with
  | [] => FuncSort_s_sorts n sorts
  | T :: U' => FuncSort_result n (sorts ++ [sort T]) U'
  end.

(** [__Math<T>::s_sort]: the primary template and its specialisations for
    [Array<Domain, Range>] and [Func<T, U...>]. *)
Definition Math_s_sort_value (T : Ty) : Sort :=
  match T with
  | Array Domain Range =>
      Sort_composite false true false (Array_s_sorts Domain Range) 2
  | Func (T0 :: U) =>
      let n := N.of_nat (length U) + 1 in
      Sort_composite true false false (FuncSort_result n [sort T0] U) n
  | _ =>
      Sort_primitive (is_same T Bool) (is_same T Int) (is_same T Real)
        false false 0
  end.

(** ** Memory: what a pointer points to *)

Definition sort_object (st : Storage) (p : SortPtr) : option Sort :=
  match p with
  | Bv_s_sort T => Some (Bv_s_sort_value T)
  | Math_s_sort T => Some (Math_s_sort_value T)
  | Sort_at a => sort_objects st !! a
  end.

Definition sorts_array (st : Storage) (p : SortsPtr)
    : option (list SortPtr) :=
  match p with
  | nullptr => None
  | Array_s_sorts Domain Range => Some [sort Domain; sort Range]
  | FuncSort_s_sorts n sorts => Some sorts
  | Sorts_at a => sorts_arrays st !! a
  end.

(** [m_sorts[index]] *)
Definition sorts_element (st : Storage) (p : SortsPtr) (index : N)
    : option SortPtr :=
  l ← sorts_array st p; l !! N.to_nat index.

(** [Sort::sorts(index)]: [check_sorts_index(index), *m_sorts[index]]; the
    result is a reference, that is, the address of the nested sort. *)
Definition Sort_sorts (st : Storage) (s : Sort) (index : N)
    : Outcome SortPtr :=
  _ ← check_sorts_index s index;
  deref (sorts_element st (m_sorts s) index).

(** [Sort::operator==], on two references to sorts. *)
Definition Sort_eq (st : Storage) (this other : SortPtr) : option bool :=
  s ← sort_object st this;
  o ← sort_object st other;
  Some (if decide (this = other) then true
        else eqb (m_is_bool s) (m_is_bool o)
          && eqb (m_is_int s) (m_is_int o)
          && eqb (m_is_real s) (m_is_real o)
          && eqb (m_is_bv s) (m_is_bv o)
          && eqb (m_is_signed s) (m_is_signed o)
          && (m_bv_size s =? m_bv_size o)
          && eqb (m_is_func s) (m_is_func o)
          && eqb (m_is_array s) (m_is_array o)
          && eqb (m_is_tuple s) (m_is_tuple o)
          && bool_decide (m_sorts s = m_sorts o)
          && (m_sorts_size s =? m_sorts_size o)).

End Registry.

(** ** Declarations *)

(** [class UnsafeDecl]: a symbol and a reference to its sort. *)
Record UnsafeDecl := {
  m_symbol : string;
  m_decl_sort : SortPtr
}.

(** [Decl<T>(symbol)]: an [UnsafeDecl] whose sort is [internal::sort<T>()]. *)
Record Decl (T : Ty) := { Decl_symbol : string }.
Arguments Decl_symbol {T} d.

Definition Decl_base {T : Ty} (d : Decl T) : UnsafeDecl :=
  {| m_symbol := Decl_symbol d; m_decl_sort := sort T |}.

(** ** Expression nodes *)

Inductive Opcode :=
  | LNOT | NOT | SUB | AND | OR | XOR | LAND | LOR | IMP | EQL
  | ADD | MUL | QUO | REM | LSS | GTR | NEQ | LEQ | GEQ.

Global Instance Opcode_eq_dec : EqDecision Opcode.
Proof. solve_decision. Defined.

Inductive ExprKind :=
  | LITERAL_EXPR_KIND
  | UNARY_EXPR_KIND
  | BINARY_EXPR_KIND
  | NARY_EXPR_KIND
  | CONST_ARRAY_EXPR_KIND
  | ARRAY_SELECT_EXPR_KIND
  | ARRAY_STORE_EXPR_KIND
  | CONSTANT_EXPR_KIND
  | FUNC_APP_EXPR_KIND.

Global Instance ExprKind_eq_dec : EqDecision ExprKind.
Proof. solve_decision. Defined.

(** [class UnsafeTerm]: a [std::shared_ptr<const UnsafeExpr>].  A non-null
    pointer holds the heap cell of its node. *)
Record UnsafeTerm := { m_ptr : option nat }.

Global Instance UnsafeTerm_eq_dec : EqDecision UnsafeTerm.
Proof. solve_decision. Defined.

(** [internal::Term<T>]: a [std::shared_ptr<const Expr<T>>]. *)
Record Term (T : Ty) := { Term_ptr : option nat }.
Arguments Term_ptr {T} t.

(** [UnsafeTerms], a [std::vector<UnsafeTerm>]. *)
Definition UnsafeTerms := list UnsafeTerm.

(** The data members that each class derived from [UnsafeExpr] adds. *)
Inductive Members :=
  | UnsafeLiteralExpr (T : Integral) (m_literal : Z)
  | UnsafeConstantExpr (m_decl : UnsafeDecl)
  | UnsafeFuncAppExpr (arity : N) (m_func_decl : UnsafeDecl)
      (m_args : list UnsafeTerm)
  | UnsafeUnaryExpr (m_opcode : Opcode) (m_operand : UnsafeTerm)
  | UnsafeBinaryExpr (m_opcode : Opcode) (m_loperand m_roperand : UnsafeTerm)
  | UnsafeNaryExpr (m_opcode : Opcode) (m_operands : UnsafeTerms)
  | UnsafeConstArrayExpr (m_init : UnsafeTerm)
  | UnsafeArraySelectExpr (m_array m_index : UnsafeTerm)
  | UnsafeArrayStoreExpr (m_array m_index m_value : UnsafeTerm).

(** A complete node: the virtual base [UnsafeExpr] ([m_expr_kind], [m_sort]),
    the members of the [Unsafe...Expr] class, and the [Expr<T>] base when
    the most derived class is one of the typed classes ([LiteralExpr],
    [ConstantExpr], [UnaryExpr], ...).  The typed classes keep typed copies
    of their operand handles; these point to the same nodes as the untyped
    members and are not repeated. *)
Record UnsafeExpr := {
  m_expr_kind : ExprKind;
  m_sort : SortPtr;
  members : Members;
  Expr_base : option Ty
}.

(** The operand handles that a node holds. *)
Definition operands (e : UnsafeExpr) : list UnsafeTerm :=
  match members e with
  | UnsafeLiteralExpr _ _ | UnsafeConstantExpr _ => []
  | UnsafeFuncAppExpr _ _ args => args
  | UnsafeUnaryExpr _ a => [a]
  | UnsafeBinaryExpr _ l r => [l; r]
  | UnsafeNaryExpr _ l => l
  | UnsafeConstArrayExpr i => [i]
  | UnsafeArraySelectExpr a i => [a; i]
  | UnsafeArrayStoreExpr a i v => [a; i; v]
  end.

(** ** The heap of nodes and [new] *)

Definition Heap := list UnsafeExpr.

(** A computation that may allocate nodes. *)
Definition Build (A : Type) : Type := Heap -> Outcome (A * Heap).

Global Instance Build_ret : MRet Build := fun A a h => Ret (a, h).

Global Instance Build_bind : MBind Build := fun A B f m h =>
  match m h with
  | Ret (a, h') => f a h'
  | Throw e => Throw e
  | Abort => Abort
  | Undefined => Undefined
  end.

(** [new C(args...)]: the constructor runs on a fresh cell; when it does not
    complete, the cell is released and the heap is as before. *)
Definition new (ctor : Heap -> Outcome UnsafeExpr) : Build (option nat) :=
  fun h =>
    match ctor h with
    | Ret e => Ret (Some (length h), h ++ [e])
    | Throw e => Throw e
    | Abort => Abort
    | Undefined => Undefined
    end.

(** ** Term handles *)

Definition UnsafeTerm_null : UnsafeTerm := {| m_ptr := None |}.
Definition Term_null (T : Ty) : Term T := {| Term_ptr := None |}.

(** [Term<T>::operator UnsafeTerm()] *)
Definition to_UnsafeTerm {T : Ty} (t : Term T) : UnsafeTerm :=
  {| m_ptr := Term_ptr t |}.

Definition UnsafeTerm_is_null (t : UnsafeTerm) : bool :=
  match m_ptr t with None => true | Some _ => false end.

Definition Term_is_null {T : Ty} (t : Term T) : bool :=
  match Term_ptr t with None => true | Some _ => false end.

(** The address of the node in cell [i], which is the address of its
    [UnsafeExpr] subobject; no node lives at address 0. *)
Definition cell_address (i : nat) : N := N.of_nat (S i).

(** The layout of the node objects.  A node with an [Expr<T>] base has two
    subobjects that handles point to: its virtual base [UnsafeExpr], at
    [cell_address i], and its [Expr<T>] base, at [Expr_address i].  Where a
    compiler places a virtual base is not fixed by the language; no
    subobject lives at address 0. *)
Class ObjectLayout := {
  Expr_address : nat -> N;
  Expr_address_not_null : forall i, Expr_address i <> 0
}.

(** [UnsafeTerm::addr()]: [reinterpret_cast<uintptr_t>(m_ptr.get())] for
    [m_ptr] a pointer to [const UnsafeExpr]. *)
Definition UnsafeTerm_addr (t : UnsafeTerm) : N :=
  match m_ptr t with None => 0 | Some i => cell_address i end.

(** [Term<T>::addr()]: [reinterpret_cast<uintptr_t>(m_ptr.get())] for
    [m_ptr] a pointer to [const Expr<T>], the address of the [Expr<T>]
    subobject of the node. *)
Definition Term_addr `{ObjectLayout} {T : Ty} (t : Term T) : N :=
  match Term_ptr t with None => 0 | Some i => Expr_address i end.

Definition node_at (h : Heap) (p : option nat) : option UnsafeExpr :=
  i ← p; h !! i.

(** [UnsafeTerm::ref()], with its precondition [!is_null()] asserted. *)
Definition UnsafeTerm_ref (h : Heap) (t : UnsafeTerm) : Outcome UnsafeExpr :=
  _ ← assert (negb (UnsafeTerm_is_null t));
  deref (node_at h (m_ptr t)).

Definition UnsafeTerm_expr_kind (h : Heap) (t : UnsafeTerm)
    : Outcome ExprKind :=
  _ ← assert (negb (UnsafeTerm_is_null t));
  e ← deref (node_at h (m_ptr t));
  Ret (m_expr_kind e).

(** [UnsafeTerm::sort()], a reference to the sort of the node. *)
Definition UnsafeTerm_sort (h : Heap) (t : UnsafeTerm) : Outcome SortPtr :=
  _ ← assert (negb (UnsafeTerm_is_null t));
  e ← deref (node_at h (m_ptr t));
  Ret (m_sort e).

Definition Term_ref {T : Ty} (h : Heap) (t : Term T) : Outcome UnsafeExpr :=
  _ ← assert (negb (Term_is_null t));
  deref (node_at h (Term_ptr t)).

Definition Term_expr_kind {T : Ty} (h : Heap) (t : Term T)
    : Outcome ExprKind :=
  _ ← assert (negb (Term_is_null t));
  e ← deref (node_at h (Term_ptr t));
  Ret (m_expr_kind e).

Definition Term_sort {T : Ty} (h : Heap) (t : Term T) : Outcome SortPtr :=
  _ ← assert (negb (Term_is_null t));
  e ← deref (node_at h (Term_ptr t));
  Ret (m_sort e).

(** [std::dynamic_pointer_cast<const Expr<T>>(p)]: the same pointer when the
    node has an [Expr<T>] base, a null pointer otherwise (and for a null
    [p]); the cast inspects the dynamic type of the node. *)
Definition dynamic_pointer_cast (T : Ty) (h : Heap) (p : option nat)
    : Outcome (option nat) :=
  match p with
  | None => Ret None
  | Some i =>
      e ← deref (h !! i);
      Ret (if decide (Expr_base e = Some T) then Some i else None)
  end.

(** [UnsafeTerm::operator T()], the explicit conversion to a typed term. *)
Definition UnsafeTerm_to (T : Ty) (h : Heap) (u : UnsafeTerm)
    : Outcome (Term T) :=
  p ← dynamic_pointer_cast T h (m_ptr u);
  Ret {| Term_ptr := p |}.

(** ** Constructors of the node classes *)

Section Constructors.

Context `{DM : DataModel}.
Context (st : Storage).

Definition UnsafeExpr_of (kind : ExprKind) (s : SortPtr) (m : Members)
    (base : option Ty) : UnsafeExpr :=
  {| m_expr_kind := kind; m_sort := s; members := m; Expr_base := base |}.

(** Each [Unsafe...Expr] constructor has two parts: the initialiser of the
    virtual base [UnsafeExpr], which runs only when the class is the most
    derived one, and the initialisation of its own members followed by its
    body, which always runs ([..._init] below).  A typed class initialises
    the virtual base itself, with [internal::sort<U>()]; the initialiser
    written in its [Unsafe...Expr] base is then not evaluated. *)

(** *** Literals *)

Definition UnsafeLiteralExpr_ctor (s : SortPtr) (T : Integral) (literal : Z)
    : Heap -> Outcome UnsafeExpr :=
  fun _ => Ret (UnsafeExpr_of LITERAL_EXPR_KIND s
                  (UnsafeLiteralExpr T literal) None).

(** [LiteralExpr<T, U>(literal)]; instantiable for the primitive [T] only. *)
Definition LiteralExpr_ctor (T : Ty) (U : Integral) (literal : Z)
    : Heap -> Outcome UnsafeExpr :=
  fun _ => Ret (UnsafeExpr_of LITERAL_EXPR_KIND (sort T)
                  (UnsafeLiteralExpr U literal) (Some T)).

(** *** Constants *)

Definition UnsafeConstantExpr_ctor (decl : UnsafeDecl)
    : Heap -> Outcome UnsafeExpr :=
  fun _ => Ret (UnsafeExpr_of CONSTANT_EXPR_KIND (m_decl_sort decl)
                  (UnsafeConstantExpr decl) None).

Definition ConstantExpr_ctor (T : Ty) (decl : Decl T)
    : Heap -> Outcome UnsafeExpr :=
  fun _ => Ret (UnsafeExpr_of CONSTANT_EXPR_KIND (sort T)
                  (UnsafeConstantExpr (Decl_base decl)) (Some T)).

(** *** Function application *)

(** [internal::RemoveLast<T...>::Type]; no specialisation matches a pack of
    fewer than two types. *)
Fixpoint RemoveLast (Ts : list Ty) : option (list Ty) :=
  match Ts with
  | [] => None
  | T :: U =>
      match U with
      | [] => None
      | [_] => Some [T]
      | _ => r ← RemoveLast U; Some (T :: r)
      end
  end.

(** [Func<T...>::Range], the last element of the pack. *)
Definition Func_Range (Ts : list Ty) : option Ty := last Ts.

(** [FuncAppExpr<T...>::Args], a tuple of typed terms. *)
Fixpoint Args (Ts : list Ty) : Type :=
  match Ts with
  | [] => unit
  | T :: Ts' => (Term T * Args Ts')%type
  end.

(** [internal::to_array<UnsafeTerm, Args>(args)] *)
Fixpoint to_array {Ts : list Ty} : Args Ts -> list UnsafeTerm :=
  match Ts with
  | [] => fun _ => []
  | T :: Ts' => fun a => to_UnsafeTerm (fst a) :: to_array (snd a)
  end.

(** [UnsafeFuncAppExpr<arity>(func_decl, args)] as the most derived class:
    the sort of the node is [func_decl.sort().sorts(arity)]. *)
Definition UnsafeFuncAppExpr_ctor (arity : N) (func_decl : UnsafeDecl)
    (args : list UnsafeTerm) : Heap -> Outcome UnsafeExpr :=
  fun _ =>
    s ← deref (sort_object st (m_decl_sort func_decl));
    r ← Sort_sorts st s arity;
    Ret (UnsafeExpr_of FUNC_APP_EXPR_KIND r
           (UnsafeFuncAppExpr arity func_decl args) None).

(** [FuncAppExpr<T...>(func_decl, args)] for [T...] the pack [A..., Range]:
    [RemoveLast] gives [A...] and [Func<T...>::Range] gives [Range]. *)
Definition FuncAppExpr_ctor (A : list Ty) (Range : Ty)
    (func_decl : Decl (Func (A ++ [Range]))) (args : Args A)
    : Heap -> Outcome UnsafeExpr :=
  fun _ =>
    Ret (UnsafeExpr_of FUNC_APP_EXPR_KIND (sort Range)
           (UnsafeFuncAppExpr (N.of_nat (List.length A))
              (Decl_base func_decl) (to_array args))
           (Some Range)).

(** *** Unary and binary operators *)

Definition UnsafeUnaryExpr_init (opcode : Opcode) (operand : UnsafeTerm)
    : Outcome Members :=
  _ ← assert (negb (UnsafeTerm_is_null operand));
  Ret (UnsafeUnaryExpr opcode operand).

Definition UnsafeUnaryExpr_ctor (s : SortPtr) (opcode : Opcode)
    (operand : UnsafeTerm) : Heap -> Outcome UnsafeExpr :=
  fun _ =>
    m ← UnsafeUnaryExpr_init opcode operand;
    Ret (UnsafeExpr_of UNARY_EXPR_KIND s m None).

(** [UnaryExpr<opcode, T, U>(operand)] *)
Definition UnaryExpr_ctor (opcode : Opcode) (T U : Ty) (operand : Term T)
    : Heap -> Outcome UnsafeExpr :=
  fun _ =>
    m ← UnsafeUnaryExpr_init opcode (to_UnsafeTerm operand);
    Ret (UnsafeExpr_of UNARY_EXPR_KIND (sort U) m (Some U)).

Definition UnsafeBinaryExpr_init (opcode : Opcode)
    (loperand roperand : UnsafeTerm) : Outcome Members :=
  _ ← assert (negb (UnsafeTerm_is_null loperand));
  _ ← assert (negb (UnsafeTerm_is_null roperand));
  Ret (UnsafeBinaryExpr opcode loperand roperand).

Definition UnsafeBinaryExpr_ctor (s : SortPtr) (opcode : Opcode)
    (loperand roperand : UnsafeTerm) : Heap -> Outcome UnsafeExpr :=
  fun _ =>
    m ← UnsafeBinaryExpr_init opcode loperand roperand;
    Ret (UnsafeExpr_of BINARY_EXPR_KIND s m None).

(** [BinaryExpr<opcode, T, U>(loperand, roperand)] *)
Definition BinaryExpr_ctor (opcode : Opcode) (T U : Ty)
    (loperand roperand : Term T) : Heap -> Outcome UnsafeExpr :=
  fun _ =>
    m ← UnsafeBinaryExpr_init opcode
          (to_UnsafeTerm loperand) (to_UnsafeTerm roperand);
    Ret (UnsafeExpr_of BINARY_EXPR_KIND (sort U) m (Some U)).

(** *** N-ary operators *)

(** [Terms<T>]: a vector of untyped handles filled with typed terms. *)
Record Terms (T : Ty) := { m_terms : UnsafeTerms }.
Arguments m_terms {T} t.

(** [Terms<T>(count)]: an empty vector (with reserved capacity). *)
Definition Terms_new (T : Ty) (count : N) : Terms T := {| m_terms := [] |}.

Definition Terms_push_back {T : Ty} (ts : Terms T) (t : Term T) : Terms T :=
  {| m_terms := m_terms ts ++ [to_UnsafeTerm t] |}.

Definition Terms_size {T : Ty} (ts : Terms T) : N :=
  N.of_nat (List.length (m_terms ts)).

(** [std::vector::empty] *)
Definition empty {A} (l : list A) : bool :=
  match l with [] => true | _ => false end.

Definition UnsafeNaryExpr_init (opcode : Opcode) (operands : UnsafeTerms)
    : Outcome Members :=
  _ ← assert (negb (empty operands));
  Ret (UnsafeNaryExpr opcode operands).

Definition UnsafeNaryExpr_ctor (s : SortPtr) (opcode : Opcode)
    (operands : UnsafeTerms) : Heap -> Outcome UnsafeExpr :=
  fun _ =>
    m ← UnsafeNaryExpr_init opcode operands;
    Ret (UnsafeExpr_of NARY_EXPR_KIND s m None).

(** [NaryExpr<opcode, T, U>(operands)] *)
Definition NaryExpr_ctor (opcode : Opcode) (T U : Ty) (operands : Terms T)
    : Heap -> Outcome UnsafeExpr :=
  fun _ =>
    m ← UnsafeNaryExpr_init opcode (m_terms operands);
    Ret (UnsafeExpr_of NARY_EXPR_KIND (sort U) m (Some U)).

(** *** Arrays *)

Definition UnsafeConstArrayExpr_init (init : UnsafeTerm) : Outcome Members :=
  _ ← assert (negb (UnsafeTerm_is_null init));
  Ret (UnsafeConstArrayExpr init).

Definition UnsafeConstArrayExpr_ctor (s : SortPtr) (init : UnsafeTerm)
    : Heap -> Outcome UnsafeExpr :=
  fun _ =>
    m ← UnsafeConstArrayExpr_init init;
    Ret (UnsafeExpr_of CONST_ARRAY_EXPR_KIND s m None).

(** [ConstArrayExpr<Domain, Range>(init)] *)
Definition ConstArrayExpr_ctor (Domain Range : Ty) (init : Term Range)
    : Heap -> Outcome UnsafeExpr :=
  fun _ =>
    m ← UnsafeConstArrayExpr_init (to_UnsafeTerm init);
    Ret (UnsafeExpr_of CONST_ARRAY_EXPR_KIND (sort (Array Domain Range)) m
           (Some (Array Domain Range))).

Definition UnsafeArraySelectExpr_init (array index : UnsafeTerm)
    : Outcome Members :=
  _ ← assert (negb (UnsafeTerm_is_null array));
  _ ← assert (negb (UnsafeTerm_is_null index));
  Ret (UnsafeArraySelectExpr array index).

(** [UnsafeArraySelectExpr(array, index)] as the most derived class: the
    sort of the node is [array.sort().sorts(1)]. *)
Definition UnsafeArraySelectExpr_ctor (array index : UnsafeTerm)
    : Heap -> Outcome UnsafeExpr :=
  fun h =>
    p ← UnsafeTerm_sort h array;
    s ← deref (sort_object st p);
    r ← Sort_sorts st s 1;
    m ← UnsafeArraySelectExpr_init array index;
    Ret (UnsafeExpr_of ARRAY_SELECT_EXPR_KIND r m None).

(** [ArraySelectExpr<Domain, Range>(array, index)] *)
Definition ArraySelectExpr_ctor (Domain Range : Ty)
    (array : Term (Array Domain Range)) (index : Term Domain)
    : Heap -> Outcome UnsafeExpr :=
  fun _ =>
    m ← UnsafeArraySelectExpr_init (to_UnsafeTerm array) (to_UnsafeTerm index);
    Ret (UnsafeExpr_of ARRAY_SELECT_EXPR_KIND (sort Range) m (Some Range)).

Definition UnsafeArrayStoreExpr_init (array index value : UnsafeTerm)
    : Outcome Members :=
  _ ← assert (negb (UnsafeTerm_is_null array));
  _ ← assert (negb (UnsafeTerm_is_null index));
  _ ← assert (negb (UnsafeTerm_is_null value));
  Ret (UnsafeArrayStoreExpr array index value).

(** [UnsafeArrayStoreExpr(array, index, value)] as the most derived class:
    the sort of the node is [array.sort()]. *)
Definition UnsafeArrayStoreExpr_ctor (array index value : UnsafeTerm)
    : Heap -> Outcome UnsafeExpr :=
  fun h =>
    p ← UnsafeTerm_sort h array;
    m ← UnsafeArrayStoreExpr_init array index value;
    Ret (UnsafeExpr_of ARRAY_STORE_EXPR_KIND p m None).

(** [ArrayStoreExpr<Domain, Range>(array, index, value)] *)
Definition ArrayStoreExpr_ctor (Domain Range : Ty)
    (array : Term (Array Domain Range)) (index : Term Domain)
    (value : Term Range) : Heap -> Outcome UnsafeExpr :=
  fun _ =>
    m ← UnsafeArrayStoreExpr_init (to_UnsafeTerm array)
          (to_UnsafeTerm index) (to_UnsafeTerm value);
    Ret (UnsafeExpr_of ARRAY_STORE_EXPR_KIND (sort (Array Domain Range)) m
           (Some (Array Domain Range))).

End Constructors.

Arguments m_terms {T} t.

(** ** Builders *)

Section Builders.

Context `{DM : DataModel}.
Context (st : Storage).

(** [UnsafeTerm(new C(...))] and [T(new C(...))] *)
Definition UnsafeTerm_new (ctor : Heap -> Outcome UnsafeExpr)
    : Build UnsafeTerm :=
  p ← new ctor; mret {| m_ptr := p |}.

Definition Term_new (T : Ty) (ctor : Heap -> Outcome UnsafeExpr)
    : Build (Term T) :=
  p ← new ctor; mret {| Term_ptr := p |}.

(** [literal(sort, literal)] on the untyped path *)
Definition unsafe_literal (s : SortPtr) (T : Integral) (literal : Z)
    : Build UnsafeTerm :=
  UnsafeTerm_new (UnsafeLiteralExpr_ctor s T literal).

(** [literal<T, U>(literal)] *)
Definition literal (T : Ty) (U : Integral) (literal : Z) : Build (Term T) :=
  Term_new T (LiteralExpr_ctor T U literal).

(** [constant<T>(decl)] *)
Definition constant {T : Ty} (decl : Decl T) : Build (Term T) :=
  Term_new T (ConstantExpr_ctor T decl).

(** [any<T>(symbol)] *)
Definition any (T : Ty) (symbol : string) : Build (Term T) :=
  constant {| Decl_symbol := symbol |}.

(** [apply(func_decl, args)], the n-ary function application, for a
    declaration of type [Decl<Func<A..., Range>>]. *)
Definition apply (A : list Ty) (Range : Ty)
    (func_decl : Decl (Func (A ++ [Range]))) (args : Args A)
    : Build (Term Range) :=
  Term_new Range (FuncAppExpr_ctor A Range func_decl args).

(** [distinct(terms)] *)
Definition distinct {T : Ty} (terms : Terms T) : Build (Term Bool) :=
  Term_new Bool (NaryExpr_ctor NEQ T Bool terms).

(** [select(array, index)] *)
Definition select {Domain Range : Ty} (array : Term (Array Domain Range))
    (index : Term Domain) : Build (Term Range) :=
  Term_new Range (ArraySelectExpr_ctor Domain Range array index).

(** [store(array, index, value)] *)
Definition store {Domain Range : Ty} (array : Term (Array Domain Range))
    (index : Term Domain) (value : Term Range)
    : Build (Term (Array Domain Range)) :=
  Term_new (Array Domain Range)
    (ArrayStoreExpr_ctor Domain Range array index value).

(** ** Overloaded operators *)

(** [SMT_BUILTIN_UNARY_OP(op, opcode)] *)
Definition SMT_BUILTIN_UNARY_OP (opcode : Opcode) {T : Ty} (arg : Term T)
    : Build (Term T) :=
  Term_new T (UnaryExpr_ctor opcode T T arg).

(** [SMT_BUILTIN_BINARY_OP(op, opcode)]: term and term, term and scalar,
    scalar and term. *)
Definition SMT_BUILTIN_BINARY_OP (opcode : Opcode) {T : Ty}
    (larg rarg : Term T) : Build (Term T) :=
  Term_new T (BinaryExpr_ctor opcode T T larg rarg).

Definition SMT_BUILTIN_BINARY_OP_rscalar (opcode : Opcode) {T : Ty}
    (larg : Term T) (U : Integral) (rscalar : Z) : Build (Term T) :=
  rarg ← literal T U rscalar; SMT_BUILTIN_BINARY_OP opcode larg rarg.

Definition SMT_BUILTIN_BINARY_OP_lscalar (opcode : Opcode) {T : Ty}
    (U : Integral) (lscalar : Z) (rarg : Term T) : Build (Term T) :=
  larg ← literal T U lscalar; SMT_BUILTIN_BINARY_OP opcode larg rarg.

(** [SMT_BUILTIN_BINARY_REL(op, opcode)] *)
Definition SMT_BUILTIN_BINARY_REL (opcode : Opcode) {T : Ty}
    (larg rarg : Term T) : Build (Term Bool) :=
  Term_new Bool (BinaryExpr_ctor opcode T Bool larg rarg).

Definition SMT_BUILTIN_BINARY_REL_rscalar (opcode : Opcode) {T : Ty}
    (larg : Term T) (U : Integral) (rscalar : Z) : Build (Term Bool) :=
  rarg ← literal T U rscalar; SMT_BUILTIN_BINARY_REL opcode larg rarg.

Definition SMT_BUILTIN_BINARY_REL_lscalar (opcode : Opcode) {T : Ty}
    (U : Integral) (lscalar : Z) (rarg : Term T) : Build (Term Bool) :=
  larg ← literal T U lscalar; SMT_BUILTIN_BINARY_REL opcode larg rarg.


Definition SMT_BUILTIN_BV_BINARY_OP (opcode : Opcode) {T : Integral}
    (larg rarg : Term (Bv T)) : Build (Term (Bv T)) :=
  Term_new (Bv T) (BinaryExpr_ctor opcode (Bv T) (Bv T) larg rarg).

(** [SMT_BUILTIN_BOOL_UNARY_OP] and [SMT_BUILTIN_BOOL_BINARY_OP] *)
Definition SMT_BUILTIN_BOOL_UNARY_OP (opcode : Opcode) (arg : Term Bool)
    : Build (Term Bool) :=
  Term_new Bool (UnaryExpr_ctor opcode Bool Bool arg).

Definition SMT_BUILTIN_BOOL_BINARY_OP (opcode : Opcode)
    (larg rarg : Term Bool) : Build (Term Bool) :=
  Term_new Bool (BinaryExpr_ctor opcode Bool Bool larg rarg).

(** [SMT_UNSAFE_UNARY_OP(op, opcode)] *)
Definition SMT_UNSAFE_UNARY_OP (opcode : Opcode) (arg : UnsafeTerm)
    : Build UnsafeTerm :=
  UnsafeTerm_new (fun h =>
    s ← UnsafeTerm_sort h arg;
    UnsafeUnaryExpr_ctor s opcode arg h).

(** [SMT_UNSAFE_BINARY_OP(op, opcode)]: the node takes the sort of the left
    term operand (of the right one when the left operand is a scalar). *)
Definition SMT_UNSAFE_BINARY_OP (opcode : Opcode) (larg rarg : UnsafeTerm)
    : Build UnsafeTerm :=
  UnsafeTerm_new (fun h =>
    s ← UnsafeTerm_sort h larg;
    UnsafeBinaryExpr_ctor s opcode larg rarg h).

Definition SMT_UNSAFE_BINARY_OP_lscalar (opcode : Opcode) (T : Integral)
    (lscalar : Z) (rarg : UnsafeTerm) : Build UnsafeTerm :=
  fun h =>
    s ← UnsafeTerm_sort h rarg;
    (larg ← unsafe_literal s T lscalar;
     UnsafeTerm_new (UnsafeBinaryExpr_ctor s opcode larg rarg)) h.

Definition SMT_UNSAFE_BINARY_OP_rscalar (opcode : Opcode)
    (larg : UnsafeTerm) (T : Integral) (rscalar : Z) : Build UnsafeTerm :=
  fun h =>
    s ← UnsafeTerm_sort h larg;
    (rarg ← unsafe_literal s T rscalar;
     UnsafeTerm_new (UnsafeBinaryExpr_ctor s opcode larg rarg)) h.

(** [SMT_UNSAFE_BINARY_REL(op, opcode)]: the node has the sort
    [internal::sort<Bool>()]. *)
Definition SMT_UNSAFE_BINARY_REL (opcode : Opcode) (larg rarg : UnsafeTerm)
    : Build UnsafeTerm :=
  UnsafeTerm_new (UnsafeBinaryExpr_ctor (sort Bool) opcode larg rarg).

Definition SMT_UNSAFE_BINARY_REL_lscalar (opcode : Opcode) (T : Integral)
    (lscalar : Z) (rarg : UnsafeTerm) : Build UnsafeTerm :=
  fun h =>
    s ← UnsafeTerm_sort h rarg;
    (larg ← unsafe_literal s T lscalar;
     UnsafeTerm_new (UnsafeBinaryExpr_ctor (sort Bool) opcode larg rarg)) h.

Definition SMT_UNSAFE_BINARY_REL_rscalar (opcode : Opcode)
    (larg : UnsafeTerm) (T : Integral) (rscalar : Z) : Build UnsafeTerm :=
  fun h =>
    s ← UnsafeTerm_sort h larg;
    (rarg ← unsafe_literal s T rscalar;
     UnsafeTerm_new (UnsafeBinaryExpr_ctor (sort Bool) opcode larg rarg)) h.

(** The operator tokens and the macro instantiation that defines each. *)
Inductive ArithOp := minus | plus | times | divide | modulo.
Inductive RelOp :=
  | less | greater | not_equal | less_equal | greater_equal | equal.
Inductive BitOp := bit_and | bit_or | bit_xor.

(** [SMT_BUILTIN_BINARY_OP(-, SUB)] ... [SMT_BUILTIN_BINARY_OP(%, REM)] *)
Definition ArithOp_opcode (op : ArithOp) : Opcode :=
  match op with
  | minus => SUB | plus => ADD | times => MUL | divide => QUO | modulo => REM
  end.

(** [SMT_BUILTIN_BINARY_REL(<, LSS)] ... [SMT_BUILTIN_BINARY_REL(==, EQL)] *)
Definition RelOp_opcode (op : RelOp) : Opcode :=
  match op with
  | less => LSS | greater => GTR | not_equal => NEQ
  | less_equal => LEQ | greater_equal => GEQ | equal => EQL
  end.

(** [SMT_BUILTIN_BV_BINARY_OP(&, AND)], [(|, OR)], [(^, XOR)] *)
Definition BitOp_opcode (op : BitOp) : Opcode :=
  match op with
  | bit_and => AND | bit_or => OR | bit_xor => XOR
  end.

(** [larg op rarg] on typed terms.  The arithmetic and the relational
    operators are templates over every term class [T]; for [Bool] operands
    [==] and [!=] resolve to the non-template overloads of
    [SMT_BUILTIN_BOOL_BINARY_OP]; the bitwise operators exist for [Bv<T>]
    only. *)
Definition operator_arith (op : ArithOp) {T : Ty} (larg rarg : Term T)
    : Build (Term T) :=
  SMT_BUILTIN_BINARY_OP (ArithOp_opcode op) larg rarg.

Definition operator_rel (op : RelOp) {T : Ty}
    : Term T -> Term T -> Build (Term Bool) :=
  match T, op with
  | Bool, equal => SMT_BUILTIN_BOOL_BINARY_OP EQL
  | Bool, not_equal => SMT_BUILTIN_BOOL_BINARY_OP NEQ
  | _, _ => SMT_BUILTIN_BINARY_REL (RelOp_opcode op)
  end.

Definition operator_bit (op : BitOp) {T : Integral}
    (larg rarg : Term (Bv T)) : Build (Term (Bv T)) :=
  SMT_BUILTIN_BV_BINARY_OP (BitOp_opcode op) larg rarg.

(** [larg op rarg] on untyped terms. *)
Definition unsafe_operator_arith (op : ArithOp) (larg rarg : UnsafeTerm)
    : Build UnsafeTerm :=
  SMT_UNSAFE_BINARY_OP (ArithOp_opcode op) larg rarg.

Definition unsafe_operator_bit (op : BitOp) (larg rarg : UnsafeTerm)
    : Build UnsafeTerm :=
  SMT_UNSAFE_BINARY_OP (BitOp_opcode op) larg rarg.

Definition unsafe_operator_rel (op : RelOp) (larg rarg : UnsafeTerm)
    : Build UnsafeTerm :=
  SMT_UNSAFE_BINARY_REL (RelOp_opcode op) larg rarg.

End Builders.

(** ** Well-formed sorts and structural equality *)

Section SortProperties.

Context `{DM : DataModel}.
Context (st : Storage).

(** The nested-sort sequence of a sort: the [m_sorts_size] pointers that
    [m_sorts] points to.  Both constructors establish that there are that
    many ([m_sorts] is null only together with a size of 0). *)
Definition nested_sorts (s : Sort) : option (list SortPtr) :=
  if m_sorts_size s =? 0 then Some []
  else
    l ← sorts_array st (m_sorts s);
    if N.of_nat (List.length l) =? m_sorts_size s then Some l else None.

Definition Sort_wf (s : Sort) : Prop := is_Some (nested_sorts s).

(** Agreement on the classification fields. *)
Definition same_classification (s o : Sort) : Prop :=
  m_is_bool s = m_is_bool o /\ m_is_int s = m_is_int o /\
  m_is_real s = m_is_real o /\ m_is_bv s = m_is_bv o /\
  m_is_signed s = m_is_signed o /\ m_bv_size s = m_bv_size o /\
  m_is_array s = m_is_array o /\ m_is_func s = m_is_func o /\
  m_is_tuple s = m_is_tuple o.

(** Structural equality as the specification words it: agreement on all
    classification fields and nested-sort sequences that are structurally
    equal element by element. *)
#[warnings="-register-all"]
Inductive structurally_equal : SortPtr -> SortPtr -> Prop :=
  | structurally_equal_intro (this other : SortPtr) (s o : Sort)
        (ls lo : list SortPtr) :
      sort_object st this = Some s ->
      sort_object st other = Some o ->
      same_classification s o ->
      nested_sorts s = Some ls ->
      nested_sorts o = Some lo ->
      Forall2 structurally_equal ls lo ->
      structurally_equal this other.

End SortProperties.

(** ** Well-formed heaps *)

(** A non-null handle that points to a node of the heap. *)
Definition points_to (h : Heap) (t : UnsafeTerm) (e : UnsafeExpr) : Prop :=
  node_at h (m_ptr t) = Some e.

(** What the type system of C++ guarantees of a handle of class [T]: when it
    is not null it points to a node with an [Expr<T>] base. *)
Definition Term_ok (h : Heap) {T : Ty} (t : Term T) : Prop :=
  exists e, node_at h (Term_ptr t) = Some e /\ Expr_base e = Some T.

(** Every node with an [Expr<T>] base carries the sort [internal::sort<T>()]:
    the constructors of the typed classes pass it to the virtual base. *)
Definition typed_heap (h : Heap) : Prop :=
  forall i e T, h !! i = Some e -> Expr_base e = Some T -> m_sort e = sort T.

(** [h'] is [h] with more nodes: no cell of [h] is changed. *)
Definition extends (h h' : Heap) : Prop :=
  forall i e, h !! i = Some e -> h' !! i = Some e.

(** Construction is bottom-up: the operand handles of a node are not null
    and point to nodes that were built before it.  ([UnsafeNaryExpr] and
    [UnsafeFuncAppExpr] do not check their operands, so this holds of the
    heaps whose N-ary nodes and applications were given non-null handles.) *)
Definition closed_heap (h : Heap) : Prop :=
  forall i e, h !! i = Some e ->
    Forall (fun a => exists j, m_ptr a = Some j /\ (j < i)%nat) (operands e).

(** ** The backend semantics *)

(** Modelled from the spec: the backends (subclasses of [Solver], such as
    the Z3 one that the tests drive) are not in the header, which declares
    one hook per node kind and nothing of their meaning.  Following the
    sections on encoding dispatch and on the solver protocol, a backend is
    modelled by what it denotes for each hook; "standard SMT array
    semantics" is McCarthy's read-over-write axioms for select and store,
    with [EQL] denoting equality and [LNOT] negation. *)
Class Theory (V : Type) := {
  (* encode_literal(sort, literal) *)
  den_literal : SortPtr -> Integral -> Z -> V;
  (* encode_constant(decl): the value assigned to the free constant *)
  den_constant : UnsafeDecl -> V;
  (* encode_func_app(func_decl, arity, args) *)
  den_func_app : UnsafeDecl -> list V -> V;
  (* encode_const_array(sort, init) *)
  den_const_array : SortPtr -> V -> V;
  (* encode_array_select(array, index) *)
  den_array_select : V -> V -> V;
  (* encode_array_store(array, index, value) *)
  den_array_store : V -> V -> V -> V;
  (* encode_unary(opcode, sort, arg) *)
  den_unary : Opcode -> SortPtr -> V -> V;
  (* encode_binary(opcode, sort, larg, rarg) *)
  den_binary : Opcode -> SortPtr -> V -> V -> V;
  (* encode_nary(opcode, sort, args) *)
  den_nary : Opcode -> SortPtr -> list V -> V;
  den_true : V;
  den_false : V;
  true_not_false : den_true <> den_false;
  den_LNOT_true : forall s, den_unary LNOT s den_true = den_false;
  den_LNOT_false : forall s, den_unary LNOT s den_false = den_true;
  den_EQL_same : forall s x, den_binary EQL s x x = den_true;
  den_EQL_other : forall s x y, x <> y -> den_binary EQL s x y = den_false;
  select_store_same : forall a i v,
    den_array_select (den_array_store a i v) i = v;
  select_store_other : forall a i j v,
    i <> j -> den_array_select (den_array_store a i v) j = den_array_select a j
}.

Section Semantics.

Context {V : Type} `{M : Theory V}.

(** Modelled from the spec: the value that a backend gives to a term.  Each
    node passes its own fields to the hook of its kind, as the [__encode]
    overrides do, and the backend evaluates the operand handles
    recursively.  The fuel bounds the depth of the term; a null or dangling
    operand has no value. *)
Fixpoint eval (fuel : nat) (h : Heap) (t : UnsafeTerm) : option V :=
  match fuel with
  | O => None
  | S n =>
      e ← node_at h (m_ptr t);
      match members e with
      | UnsafeLiteralExpr T z => Some (den_literal (m_sort e) T z)
      | UnsafeConstantExpr d => Some (den_constant d)
      | UnsafeFuncAppExpr _ d args =>
          vs ← mapM (eval n h) args; Some (den_func_app d vs)
      | UnsafeUnaryExpr op a =>
          x ← eval n h a; Some (den_unary op (m_sort e) x)
      | UnsafeBinaryExpr op l r =>
          x ← eval n h l; y ← eval n h r;
          Some (den_binary op (m_sort e) x y)
      | UnsafeNaryExpr op l =>
          vs ← mapM (eval n h) l; Some (den_nary op (m_sort e) vs)
      | UnsafeConstArrayExpr i =>
          x ← eval n h i; Some (den_const_array (m_sort e) x)
      | UnsafeArraySelectExpr a i =>
          x ← eval n h a; y ← eval n h i; Some (den_array_select x y)
      | UnsafeArrayStoreExpr a i v =>
          x ← eval n h a; y ← eval n h i; z ← eval n h v;
          Some (den_array_store x y z)
      end
  end.

End Semantics.

(** ** Vectors of terms *)

(** The vector that holds the terms [ts], pushed in order. *)
Definition Terms_of {T : Ty} (ts : list (Term T)) : Terms T :=
  foldl Terms_push_back (Terms_new T (N.of_nat (List.length ts))) ts.

(** ** Calls of the constructors that take operand handles *)

(** A call of one of the constructors that take operand term handles:
    unary, binary, N-ary, constant-array, array-select and array-store, each
    on the untyped path (the [Unsafe...Expr] class is the most derived one)
    and on the typed path. *)
Inductive Construction :=
  | new_UnsafeUnaryExpr (s : SortPtr) (opcode : Opcode) (operand : UnsafeTerm)
  | new_UnaryExpr (opcode : Opcode) (T U : Ty) (operand : Term T)
  | new_UnsafeBinaryExpr (s : SortPtr) (opcode : Opcode)
      (loperand roperand : UnsafeTerm)
  | new_BinaryExpr (opcode : Opcode) (T U : Ty) (loperand roperand : Term T)
  | new_UnsafeNaryExpr (s : SortPtr) (opcode : Opcode) (operands : UnsafeTerms)
  | new_NaryExpr (opcode : Opcode) (T U : Ty) (operands : Terms T)
  | new_UnsafeConstArrayExpr (s : SortPtr) (init : UnsafeTerm)
  | new_ConstArrayExpr (Domain Range : Ty) (init : Term Range)
  | new_UnsafeArraySelectExpr (array index : UnsafeTerm)
  | new_ArraySelectExpr (Domain Range : Ty)
      (array : Term (Array Domain Range)) (index : Term Domain)
  | new_UnsafeArrayStoreExpr (array index value : UnsafeTerm)
  | new_ArrayStoreExpr (Domain Range : Ty)
      (array : Term (Array Domain Range)) (index : Term Domain)
      (value : Term Range).

Definition construct `{DM : DataModel} (st : Storage) (c : Construction)
    : Heap -> Outcome UnsafeExpr :=
  match c with
  | new_UnsafeUnaryExpr s op a => UnsafeUnaryExpr_ctor s op a
  | new_UnaryExpr op T U a => UnaryExpr_ctor op T U a
  | new_UnsafeBinaryExpr s op l r => UnsafeBinaryExpr_ctor s op l r
  | new_BinaryExpr op T U l r => BinaryExpr_ctor op T U l r
  | new_UnsafeNaryExpr s op l => UnsafeNaryExpr_ctor s op l
  | new_NaryExpr op T U l => NaryExpr_ctor op T U l
  | new_UnsafeConstArrayExpr s i => UnsafeConstArrayExpr_ctor s i
  | new_ConstArrayExpr D R i => ConstArrayExpr_ctor D R i
  | new_UnsafeArraySelectExpr a i => UnsafeArraySelectExpr_ctor st a i
  | new_ArraySelectExpr D R a i => ArraySelectExpr_ctor D R a i
  | new_UnsafeArrayStoreExpr a i v => UnsafeArrayStoreExpr_ctor a i v
  | new_ArrayStoreExpr D R a i v => ArrayStoreExpr_ctor D R a i v
  end.

(** The operand handles that the call passes. *)
Definition given_operands (c : Construction) : list UnsafeTerm :=
  match c with
  | new_UnsafeUnaryExpr _ _ a => [a]
  | new_UnaryExpr _ _ _ a => [to_UnsafeTerm a]
  | new_UnsafeBinaryExpr _ _ l r => [l; r]
  | new_BinaryExpr _ _ _ l r => [to_UnsafeTerm l; to_UnsafeTerm r]
  | new_UnsafeNaryExpr _ _ l => l
  | new_NaryExpr _ _ _ l => m_terms l
  | new_UnsafeConstArrayExpr _ i => [i]
  | new_ConstArrayExpr _ _ i => [to_UnsafeTerm i]
  | new_UnsafeArraySelectExpr a i => [a; i]
  | new_ArraySelectExpr _ _ a i => [to_UnsafeTerm a; to_UnsafeTerm i]
  | new_UnsafeArrayStoreExpr a i v => [a; i; v]
  | new_ArrayStoreExpr _ _ a i v =>
      [to_UnsafeTerm a; to_UnsafeTerm i; to_UnsafeTerm v]
  end.

Definition is_nary (c : Construction) : bool :=
  match c with
  | new_UnsafeNaryExpr _ _ _ | new_NaryExpr _ _ _ _ => true
  | _ => false
  end.

Definition is_unsafe_select (c : Construction) : bool :=
  match c with
  | new_UnsafeArraySelectExpr _ _ => true
  | _ => false
  end.

(** A [shared_ptr] is null or keeps a node alive. *)
Definition live (h : Heap) (t : UnsafeTerm) : Prop :=
  UnsafeTerm_is_null t = true \/ exists e, points_to h t e.

(** What the unchecked array-select constructor needs of its array operand
    to compute the sort of the node: a sort with a nested sort at index 1. *)
Definition select_sort_ok `{DM : DataModel} (st : Storage) (h : Heap)
    (c : Construction) : Prop :=
  match c with
  | new_UnsafeArraySelectExpr a _ =>
      exists e s l,
        points_to h a e /\ sort_object st (m_sort e) = Some s /\
        nested_sorts st s = Some l /\ 2 <= sorts_size s
  | _ => True
  end.

(** ** The select/store formula and a model of the backend semantics *)

(** [select(store(a, i, v), i) == v] *)
Definition select_store_formula {D R : Ty} (a : Term (Array D R))
    (i : Term D) (v : Term R) : Build (Term Bool) :=
  s ← store a i v; x ← select s i; operator_rel equal x v.

(** Modelled from the spec: a model of the backend semantics in which an
    array is a finite list of entries over a default value, the shape of
    the array models that a solver prints. *)
#[warnings="-register-all"]
Inductive Value :=
  | VBool (b : bool)
  | VNum (z : Z)
  | VArray (entries : list (Value * Value)) (default : Value).

Global Instance Value_eq_dec : EqDecision Value.
Proof.
  unfold EqDecision, Decision. fix IH 1. intros x y. decide equality.
  - apply Bool.bool_dec.
  - apply Z.eq_dec.
  - apply List.list_eq_dec. intros [k1 x1] [k2 x2].
    destruct (IH k1 k2) as [<-|Hk]; [|right; congruence].
    destruct (IH x1 x2) as [<-|Hx]; [left; reflexivity|right; congruence].
Defined.

Fixpoint Value_lookup (entries : list (Value * Value)) (default i : Value)
    : Value :=
  match entries with
  | [] => default
  | (k, x) :: entries' =>
      if decide (k = i) then x else Value_lookup entries' default i
  end.

Definition Value_select (a i : Value) : Value :=
  match a with
  | VArray entries default => Value_lookup entries default i
  | _ => a
  end.

Definition Value_store (a i v : Value) : Value :=
  match a with
  | VArray entries default => VArray ((i, v) :: entries) default
  | _ => VArray [(i, v)] a
  end.

Definition Value_unary (op : Opcode) (x : Value) : Value :=
  match op, x with
  | LNOT, VBool b => VBool (negb b)
  | SUB, VNum z => VNum (- z)
  | _, _ => x
  end.

Definition Value_binary (op : Opcode) (x y : Value) : Value :=
  match op, x, y with
  | EQL, _, _ => VBool (bool_decide (x = y))
  | NEQ, _, _ => VBool (negb (bool_decide (x = y)))
  | LAND, VBool a, VBool b => VBool (a && b)
  | LOR, VBool a, VBool b => VBool (a || b)
  | IMP, VBool a, VBool b => VBool (implb a b)
  | ADD, VNum a, VNum b => VNum (a + b)
  | SUB, VNum a, VNum b => VNum (a - b)
  | MUL, VNum a, VNum b => VNum (a * b)
  | LSS, VNum a, VNum b => VBool (a <? b)%Z
  | GTR, VNum a, VNum b => VBool (b <? a)%Z
  | LEQ, VNum a, VNum b => VBool (a <=? b)%Z
  | GEQ, VNum a, VNum b => VBool (b <=? a)%Z
  | _, _, _ => x
  end.

Definition Value_nary (op : Opcode) (xs : list Value) : Value :=
  match op with
  | NEQ => VBool (bool_decide (NoDup xs))
  | LAND => VBool (forallb (fun x => bool_decide (x = VBool true)) xs)
  | LOR => VBool (existsb (fun x => bool_decide (x = VBool true)) xs)
  | _ => VBool false
  end.

Definition Value_literal (s : SortPtr) (z : Z) : Value :=
  if decide (s = sort Bool) then VBool (negb (z =? 0)%Z) else VNum z.

Lemma Value_lookup_same (entries : list (Value * Value)) (d i v : Value) :
  Value_lookup ((i, v) :: entries) d i = v.
Proof. simpl. destruct (decide (i = i)); [reflexivity|contradiction]. Qed.

Lemma Value_select_store_same (a i v : Value) :
  Value_select (Value_store a i v) i = v.
Proof. destruct a; apply Value_lookup_same. Qed.

Lemma Value_select_store_other (a i j v : Value) :
  i <> j -> Value_select (Value_store a i v) j = Value_select a j.
Proof.
  intros Hne. destruct a; simpl;
    destruct (decide (i = j)); try contradiction; reflexivity.
Qed.

(** The model under an assignment to the constants and an interpretation
    of the function symbols. *)
Definition Value_theory (constants : string -> Value)
    (functions : string -> list Value -> Value) : Theory Value.
Proof.
  refine
    {| den_literal s _ z := Value_literal s z;
       den_constant d := constants (m_symbol d);
       den_func_app d xs := functions (m_symbol d) xs;
       den_const_array _ x := VArray [] x;
       den_array_select := Value_select;
       den_array_store := Value_store;
       den_unary op _ x := Value_unary op x;
       den_binary op _ x y := Value_binary op x y;
       den_nary op _ xs := Value_nary op xs;
       den_true := VBool true;
       den_false := VBool false |}.
  - discriminate.
  - reflexivity.
  - reflexivity.
  - intros _ x. simpl. now rewrite bool_decide_eq_true_2.
  - intros _ x y Hne. simpl. now rewrite bool_decide_eq_false_2.
  - apply Value_select_store_same.
  - apply Value_select_store_other.
Defined.

(** ** Further parts of the header *)

(** *** Logic acronyms *)

(** [enum Logic] *)
Inductive Logic :=
  | AUFLIA_LOGIC | AUFLIRA_LOGIC | AUFNIRA_LOGIC | LRA_LOGIC
  | QF_ABV_LOGIC | QF_AUFBV_LOGIC | QF_UFBV_LOGIC | QF_AUFLIA_LOGIC
  | QF_AX_LOGIC | QF_BV_LOGIC | QF_IDL_LOGIC | QF_RDL_LOGIC
  | QF_LIA_LOGIC | QF_LRA_LOGIC | QF_NIA_LOGIC | QF_NRA_LOGIC
  | QF_UF_LOGIC | QF_UFIDL_LOGIC | QF_UFLIA_LOGIC | QF_UFLRA_LOGIC
  | QF_UFNRA_LOGIC | UFLRA_LOGIC | UFNIA_LOGIC.

(** The value of an enumerator: its position in the enumeration. *)
Definition Logic_value (l : Logic) : nat :=
  match l with
  | AUFLIA_LOGIC => 0 | AUFLIRA_LOGIC => 1 | AUFNIRA_LOGIC => 2
  | LRA_LOGIC => 3 | QF_ABV_LOGIC => 4 | QF_AUFBV_LOGIC => 5
  | QF_UFBV_LOGIC => 6 | QF_AUFLIA_LOGIC => 7 | QF_AX_LOGIC => 8
  | QF_BV_LOGIC => 9 | QF_IDL_LOGIC => 10 | QF_RDL_LOGIC => 11
  | QF_LIA_LOGIC => 12 | QF_LRA_LOGIC => 13 | QF_NIA_LOGIC => 14
  | QF_NRA_LOGIC => 15 | QF_UF_LOGIC => 16 | QF_UFIDL_LOGIC => 17
  | QF_UFLIA_LOGIC => 18 | QF_UFLRA_LOGIC => 19 | QF_UFNRA_LOGIC => 20
  | UFLRA_LOGIC => 21 | UFNIA_LOGIC => 22
  end%nat.

(** [Logics::acronyms] *)
Definition acronyms : list string :=
  ["AUFLIA"; "AUFLIRA"; "AUFNIRA"; "LRA"; "QF_ABV"; "QF_AUFBV"; "QF_UFBV";
   "QF_AUFLIA"; "QF_AX"; "QF_BV"; "QF_IDL"; "QF_RDL"; "QF_LIA"; "QF_LRA";
   "QF_NIA"; "QF_NRA"; "QF_UF"; "QF_UFIDL"; "QF_UFLIA"; "QF_UFLRA";
   "QF_UFNRA"; "UFLRA"; "UFNIA"]%string.

(** *** The move constructor of Sort *)

(** [Sort(Sort&& other)]: every member is initialised from [other]. *)
Definition Sort_move (other : Sort) : Sort :=
  {| m_is_bool := m_is_bool other;
     m_is_int := m_is_int other;
     m_is_real := m_is_real other;
     m_is_bv := m_is_bv other;
     m_is_signed := m_is_signed other;
     m_bv_size := m_bv_size other;
     m_is_array := m_is_array other;
     m_is_func := m_is_func other;
     m_is_tuple := m_is_tuple other;
     m_sorts := m_sorts other;
     m_sorts_size := m_sorts_size other |}.

(** Agreement on every member. *)
Definition same_members (s o : Sort) : Prop :=
  same_classification s o /\ m_sorts s = m_sorts o /\
  m_sorts_size s = m_sorts_size o.

(** The classification members of a sort that are set. *)
Definition classification (s : Sort) : list bool :=
  filter (fun b => b = true)
    [m_is_bool s; m_is_int s; m_is_real s; m_is_bv s; m_is_array s;
     m_is_func s; m_is_tuple s].

(** A pointer to one of the sorts of the templates of the header. *)
Definition static_sort (p : SortPtr) : Prop :=
  match p with Sort_at _ => False | _ => True end.

(** *** Equality of declarations *)

(** [UnsafeDecl::operator==] on the declarations at the addresses [this]
    and [other]: identity first, then the symbols and the addresses of the
    sorts. *)
Definition UnsafeDecl_eq (this other : N) (d o : UnsafeDecl) : bool :=
  if decide (this = other) then true
  else bool_decide (m_symbol d = m_symbol o)
       && bool_decide (m_decl_sort d = m_decl_sort o).

(** *** Primitive term classes *)

(** [internal::RemoveBv<T>::Type]: the integral type of a [Bv<T>], [void]
    (no type) for every other class. *)
Definition RemoveBv (T : Ty) : option Integral :=
  match T with
  | Bv U => Some U
  | _ => None
  end.

(** [internal::IsPrimitive<T>::value]; [std::is_integral] holds of every
    [Integral] and not of [void]. *)
Definition IsPrimitive (T : Ty) : bool :=
  match RemoveBv T with Some _ => true | None => false end
  || is_same Bool T || is_same Int T || is_same Real T.

(** *** Index sequences and tuples *)

(** [internal::__Sequence<seqs...>::next] *)
Definition Sequence_next (seqs : list nat) : list nat :=
  seqs ++ [List.length seqs].

(** [internal::__BuildSequence<N>::type] *)
Fixpoint BuildSequence (n : nat) : list nat :=
  match n with
  | O => []
  | S n' => Sequence_next (BuildSequence n')
  end.

(** [std::get<k>(tuple)], converted to [UnsafeTerm]; there is no such
    element when [k] is not below the size of the tuple. *)
Fixpoint tuple_get {Ts : list Ty} (k : nat) : Args Ts -> option UnsafeTerm :=
  match Ts with
  | [] => fun _ => None
  | T :: Ts' => fun a =>
      match k with
      | O => Some (to_UnsafeTerm (fst a))
      | S k' => tuple_get k' (snd a)
      end
  end.

(** [internal::__to_array<UnsafeTerm, Tuple>(tuple, __Sequence<seqs...>)]:
    the array [{ std::get<seqs>(tuple)... }]. *)
Definition to_array_seq {Ts : list Ty} (tuple : Args Ts) (seqs : list nat)
    : option (list UnsafeTerm) :=
  mapM (fun k => tuple_get k tuple) seqs.

(** *** Vectors of terms and N-ary nodes *)

(** [std::vector::at(pos)]: a bounds-checked access.  The text of the
    exception is the library's and stands for no particular one here. *)
Definition vector_at {A : Type} (v : list A) (pos : N) : Outcome A :=
  match v !! N.to_nat pos with
  | Some a => Ret a
  | None => Throw (out_of_range "vector::at"%string)
  end.

(** [Terms<T>::at(pos)]: [static_cast<const T>(m_terms.at(pos))]. *)
Definition Terms_at {T : Ty} (h : Heap) (ts : Terms T) (pos : N)
    : Outcome (Term T) :=
  u ← vector_at (m_terms ts) pos; UnsafeTerm_to T h u.

(** [UnsafeNaryExpr::operands()] of a node of that class. *)
Definition UnsafeNaryExpr_operands (e : UnsafeExpr) : Outcome UnsafeTerms :=
  match members e with
  | UnsafeNaryExpr _ l => Ret l
  | _ => Undefined
  end.

(** [NaryExpr<opcode, T, U>::size()] *)
Definition NaryExpr_size (e : UnsafeExpr) : Outcome N :=
  l ← UnsafeNaryExpr_operands e; Ret (N.of_nat (List.length l)).

(** [NaryExpr<opcode, T, U>::operand(pos)] *)
Definition NaryExpr_operand (T : Ty) (h : Heap) (e : UnsafeExpr) (pos : N)
    : Outcome (Term T) :=
  l ← UnsafeNaryExpr_operands e;
  u ← vector_at l pos;
  UnsafeTerm_to T h u.

(** *** Every constructor of a node class *)

(** A call of a constructor of a node class: those that take operand
    handles, and the literal, constant and function-application ones. *)
Inductive Allocation :=
  | alloc_Construction (c : Construction)
  | alloc_UnsafeLiteralExpr (s : SortPtr) (T : Integral) (literal : Z)
  | alloc_LiteralExpr (T : Ty) (U : Integral) (literal : Z)
  | alloc_UnsafeConstantExpr (decl : UnsafeDecl)
  | alloc_ConstantExpr (T : Ty) (decl : Decl T)
  | alloc_UnsafeFuncAppExpr (arity : N) (func_decl : UnsafeDecl)
      (args : list UnsafeTerm)
  | alloc_FuncAppExpr (A : list Ty) (Range : Ty)
      (func_decl : Decl (Func (A ++ [Range]))) (args : Args A).

Definition allocate `{DM : DataModel} (st : Storage) (a : Allocation)
    : Heap -> Outcome UnsafeExpr :=
  match a with
  | alloc_Construction c => construct st c
  | alloc_UnsafeLiteralExpr s T z => UnsafeLiteralExpr_ctor s T z
  | alloc_LiteralExpr T U z => LiteralExpr_ctor T U z
  | alloc_UnsafeConstantExpr d => UnsafeConstantExpr_ctor d
  | alloc_ConstantExpr T d => ConstantExpr_ctor T d
  | alloc_UnsafeFuncAppExpr n d args => UnsafeFuncAppExpr_ctor st n d args
  | alloc_FuncAppExpr A R d args => FuncAppExpr_ctor A R d args
  end.

(** The operand handles that the call passes. *)
Definition allocation_operands (a : Allocation) : list UnsafeTerm :=
  match a with
  | alloc_Construction c => given_operands c
  | alloc_UnsafeFuncAppExpr _ _ args => args
  | alloc_FuncAppExpr _ _ _ args => to_array args
  | _ => []
  end.

(** The class [U] of the [Expr<U>] base of the node that the call builds;
    the [Unsafe...Expr] classes have none. *)
Definition result_class (a : Allocation) : option Ty :=
  match a with
  | alloc_Construction c =>
      match c with
      | new_UnaryExpr _ _ U _ | new_BinaryExpr _ _ U _ _
      | new_NaryExpr _ _ U _ => Some U
      | new_ConstArrayExpr D R _ | new_ArrayStoreExpr D R _ _ _ =>
          Some (Array D R)
      | new_ArraySelectExpr _ R _ _ => Some R
      | _ => None
      end
  | alloc_LiteralExpr T _ _ | alloc_ConstantExpr T _ => Some T
  | alloc_FuncAppExpr _ R _ _ => Some R
  | _ => None
  end.

(** The kind that the class of the members passes to [UnsafeExpr]. *)
Definition kind_of (m : Members) : ExprKind :=
  match m with
  | UnsafeLiteralExpr _ _ => LITERAL_EXPR_KIND
  | UnsafeConstantExpr _ => CONSTANT_EXPR_KIND
  | UnsafeFuncAppExpr _ _ _ => FUNC_APP_EXPR_KIND
  | UnsafeUnaryExpr _ _ => UNARY_EXPR_KIND
  | UnsafeBinaryExpr _ _ _ => BINARY_EXPR_KIND
  | UnsafeNaryExpr _ _ => NARY_EXPR_KIND
  | UnsafeConstArrayExpr _ => CONST_ARRAY_EXPR_KIND
  | UnsafeArraySelectExpr _ _ => ARRAY_SELECT_EXPR_KIND
  | UnsafeArrayStoreExpr _ _ _ => ARRAY_STORE_EXPR_KIND
  end.

(** Every node carries the kind of its class. *)
Definition tagged_heap (h : Heap) : Prop :=
  forall i e, h !! i = Some e -> m_expr_kind e = kind_of (members e).

(** Node [i] holds an operand handle on node [j]. *)
Definition child (h : Heap) (i j : nat) : Prop :=
  exists e, h !! i = Some e /\ {| m_ptr := Some j |} ∈ operands e.

(** Node [j] is a proper subterm of node [i]. *)
Inductive subterm (h : Heap) : nat -> nat -> Prop :=
  | subterm_child (i j : nat) : child h i j -> subterm h i j
  | subterm_step (i j k : nat) :
      child h i j -> subterm h j k -> subterm h i k.

(** The node without its [Expr<T>] base: what the untyped interface sees. *)
Definition erase (e : UnsafeExpr) : UnsafeExpr :=
  {| m_expr_kind := m_expr_kind e;
     m_sort := m_sort e;
     members := members e;
     Expr_base := None |}.

(** *** Encoding dispatch *)

(** [enum Error] *)
Inductive Error := OK | OPCODE_ERROR | UNSUPPORT_ERROR.

(** [class Solver] over a backend state [S].  The header defines the
    literal hooks, one private virtual [__encode_literal] for each integral
    type, whose body in the base class returns [UNSUPPORT_ERROR]; a
    subclass overrides some of them ([Some]).  The other public [encode_...]
    functions are declared in the header and defined elsewhere: they are
    fields. *)
Record Solver (S : Type) := {
  override_encode_literal :
    Integral -> option (SortPtr -> Z -> S -> Error * S);
  encode_constant : UnsafeDecl -> S -> Error * S;
  encode_func_app : UnsafeDecl -> N -> list UnsafeTerm -> S -> Error * S;
  encode_const_array : SortPtr -> UnsafeTerm -> S -> Error * S;
  encode_array_select : UnsafeTerm -> UnsafeTerm -> S -> Error * S;
  encode_array_store :
    UnsafeTerm -> UnsafeTerm -> UnsafeTerm -> S -> Error * S;
  encode_unary : Opcode -> SortPtr -> UnsafeTerm -> S -> Error * S;
  encode_binary :
    Opcode -> SortPtr -> UnsafeTerm -> UnsafeTerm -> S -> Error * S;
  encode_nary : Opcode -> SortPtr -> UnsafeTerms -> S -> Error * S
}.

Arguments override_encode_literal {S} _ _.
Arguments encode_constant {S} _ _ _.
Arguments encode_func_app {S} _ _ _ _ _.
Arguments encode_const_array {S} _ _ _ _.
Arguments encode_array_select {S} _ _ _ _.
Arguments encode_array_store {S} _ _ _ _ _.
Arguments encode_unary {S} _ _ _ _ _.
Arguments encode_binary {S} _ _ _ _ _ _.
Arguments encode_nary {S} _ _ _ _ _.

(** [Solver::__encode_literal(sort, literal)], virtual. *)
Definition __encode_literal {S : Type} (solver : Solver S) (T : Integral)
    (s : SortPtr) (literal : Z) (state : S) : Error * S :=
  match override_encode_literal solver T with
  | Some hook => hook s literal state
  | None => (UNSUPPORT_ERROR, state)
  end.

(** [Solver::encode_literal(sort, literal)] *)
Definition encode_literal {S : Type} (solver : Solver S) (T : Integral)
    (s : SortPtr) (literal : Z) (state : S) : Error * S :=
  __encode_literal solver T s literal state.

(** [UnsafeExpr::encode(solver)]: the [__encode] override of the class of
    the node passes the members of the node to the solver. *)
Definition UnsafeExpr_encode {S : Type} (solver : Solver S) (e : UnsafeExpr)
    (state : S) : Error * S :=
  match members e with
  | UnsafeLiteralExpr T z => encode_literal solver T (m_sort e) z state
  | UnsafeConstantExpr d => encode_constant solver d state
  | UnsafeFuncAppExpr arity d args =>
      encode_func_app solver d arity args state
  | UnsafeUnaryExpr op a => encode_unary solver op (m_sort e) a state
  | UnsafeBinaryExpr op l r => encode_binary solver op (m_sort e) l r state
  | UnsafeNaryExpr op l => encode_nary solver op (m_sort e) l state
  | UnsafeConstArrayExpr i => encode_const_array solver (m_sort e) i state
  | UnsafeArraySelectExpr a i => encode_array_select solver a i state
  | UnsafeArrayStoreExpr a i v => encode_array_store solver a i v state
  end.

(** [UnsafeTerm::encode(solver)] *)
Definition UnsafeTerm_encode {S : Type} (h : Heap) (solver : Solver S)
    (t : UnsafeTerm) (state : S) : Outcome (Error * S) :=
  _ ← assert (negb (UnsafeTerm_is_null t));
  e ← deref (node_at h (m_ptr t));
  Ret (UnsafeExpr_encode solver e state).

(** *** The unary and the logical operators *)

Inductive UnaryOp := negate | complement | logical_not.
Inductive LogicOp := logical_and | logical_or.

(** [SMT_UNSAFE_UNARY_OP(-, SUB)], [(~, NOT)], [(!, LNOT)] *)
Definition UnaryOp_opcode (op : UnaryOp) : Opcode :=
  match op with
  | negate => SUB | complement => NOT | logical_not => LNOT
  end.

(** [SMT_BUILTIN_BOOL_BINARY_OP(&&, LAND)], [(||, LOR)] *)
Definition LogicOp_opcode (op : LogicOp) : Opcode :=
  match op with
  | logical_and => LAND | logical_or => LOR
  end.

(** [-arg], of [SMT_BUILTIN_UNARY_OP(-, SUB)] *)
Definition operator_negate {T : Ty} (arg : Term T) : Build (Term T) :=
  SMT_BUILTIN_UNARY_OP SUB arg.



(** [larg && rarg] and [larg || rarg] on [Bool] terms *)
Definition operator_logic (op : LogicOp) (larg rarg : Term Bool)
    : Build (Term Bool) :=
  SMT_BUILTIN_BOOL_BINARY_OP (LogicOp_opcode op) larg rarg.

(** The unary and the logical operators on untyped terms. *)
Definition unsafe_operator_unary (op : UnaryOp) (arg : UnsafeTerm)
    : Build UnsafeTerm :=
  SMT_UNSAFE_UNARY_OP (UnaryOp_opcode op) arg.

Definition unsafe_operator_logic (op : LogicOp) (larg rarg : UnsafeTerm)
    : Build UnsafeTerm :=
  SMT_UNSAFE_BINARY_OP (LogicOp_opcode op) larg rarg.

(** The scalar overloads of [SMT_BUILTIN_BV_BINARY_OP]: the scalar has the
    integral type of the bit vector. *)
Definition SMT_BUILTIN_BV_BINARY_OP_rscalar (opcode : Opcode) {T : Integral}
    (larg : Term (Bv T)) (rscalar : Z) : Build (Term (Bv T)) :=
  rarg ← literal (Bv T) T rscalar; SMT_BUILTIN_BV_BINARY_OP opcode larg rarg.

Definition SMT_BUILTIN_BV_BINARY_OP_lscalar (opcode : Opcode) {T : Integral}
    (lscalar : Z) (rarg : Term (Bv T)) : Build (Term (Bv T)) :=
  larg ← literal (Bv T) T lscalar; SMT_BUILTIN_BV_BINARY_OP opcode larg rarg.

(** The scalar overloads of [SMT_BUILTIN_BOOL_BINARY_OP]: the scalar is a
    [bool]. *)
Definition SMT_BUILTIN_BOOL_BINARY_OP_rscalar (opcode : Opcode)
    (larg : Term Bool) (rscalar : bool) : Build (Term Bool) :=
  rarg ← literal Bool c_bool (Z.b2z rscalar);
  SMT_BUILTIN_BOOL_BINARY_OP opcode larg rarg.

Definition SMT_BUILTIN_BOOL_BINARY_OP_lscalar (opcode : Opcode)
    (lscalar : bool) (rarg : Term Bool) : Build (Term Bool) :=
  larg ← literal Bool c_bool (Z.b2z lscalar);
  SMT_BUILTIN_BOOL_BINARY_OP opcode larg rarg.

(** The node of a literal and the node of a binary operator. *)
Definition literal_node (s : SortPtr) (T : Integral) (z : Z)
    (base : option Ty) : UnsafeExpr :=
  UnsafeExpr_of LITERAL_EXPR_KIND s (UnsafeLiteralExpr T z) base.

Definition binary_node (s : SortPtr) (opcode : Opcode) (l r : UnsafeTerm)
    (base : option Ty) : UnsafeExpr :=
  UnsafeExpr_of BINARY_EXPR_KIND s (UnsafeBinaryExpr opcode l r) base.

(** ** A data model and client objects for the examples *)

(** The LP64 data model of x86-64 Linux. *)
Definition LP64 : DataModel :=
  {| sizeof T :=
       match T with
       | c_bool | c_char | c_signed_char | c_unsigned_char => 1
       | c_char16_t | c_short | c_unsigned_short => 2
       | c_wchar_t | c_char32_t | c_int | c_unsigned_int => 4
       | c_long | c_unsigned_long | c_long_long | c_unsigned_long_long => 8
       end;
     is_signed T :=
       match T with
       | c_char | c_signed_char | c_wchar_t | c_short | c_int | c_long
       | c_long_long => true
       | _ => false
       end |}.

(** Two array sorts that a client builds with the composite constructor,
    each over an array of its own that holds the same two pointers:
<<
    static constexpr const Sort* const a1[2] = { &sort<Int>(), &sort<Bool>() };
    static constexpr const Sort* const a2[2] = { &sort<Int>(), &sort<Bool>() };
    static constexpr Sort s1(false, true, false, a1);
    static constexpr Sort s2(false, true, false, a2);
>> *)
Definition two_arrays : Storage :=
  {| sort_objects :=
       <[1 := Sort_composite false true false (Sorts_at 1) 2]>
         (<[2 := Sort_composite false true false (Sorts_at 2) 2]> ∅);
     sorts_arrays :=
       <[1 := [sort Int; sort Bool]]> (<[2 := [sort Int; sort Bool]]> ∅) |}.

(** Five constants, built on the empty heap:
<<
    Int x = any<Int>("x");   Int y = any<Int>("y");
    Array<Int, Int> a = any<Array<Int, Int>>("a");
    Bv<int> p = any<Bv<int>>("p");   Bv<int> q = any<Bv<int>>("q");
>> *)
Definition example_build
    : Build (Term Int * Term Int * Term (Array Int Int)
             * Term (Bv c_int) * Term (Bv c_int)) :=
  x ← any Int "x"; y ← any Int "y"; a ← any (Array Int Int) "a";
  p ← any (Bv c_int) "p"; q ← any (Bv c_int) "q";
  mret (x, y, a, p, q).

Definition example_x : Term Int := {| Term_ptr := Some 0%nat |}.
Definition example_y : Term Int := {| Term_ptr := Some 1%nat |}.
Definition example_a : Term (Array Int Int) := {| Term_ptr := Some 2%nat |}.
Definition example_p : Term (Bv c_int) := {| Term_ptr := Some 3%nat |}.
Definition example_q : Term (Bv c_int) := {| Term_ptr := Some 4%nat |}.

Definition constant_node (T : Ty) (symbol : string) : UnsafeExpr :=
  UnsafeExpr_of CONSTANT_EXPR_KIND (sort T)
    (UnsafeConstantExpr {| m_symbol := symbol; m_decl_sort := sort T |})
    (Some T).

Definition example_heap : Heap :=
  [constant_node Int "x"; constant_node Int "y";
   constant_node (Array Int Int) "a";
   constant_node (Bv c_int) "p"; constant_node (Bv c_int) "q"].

(** An assignment to the constants: [a] is the array that is 0 everywhere,
    [x] is 1 and every other constant is 7. *)
Definition example_constants (symbol : string) : Value :=
  if decide (symbol = "a"%string) then VArray [] (VNum 0)
  else if decide (symbol = "x"%string) then VNum 1
  else VNum 7.

Definition example_functions (symbol : string) (args : list Value) : Value :=
  VNum 0.

(** A layout that places the [Expr<T>] subobject of every node 56 bytes
    away from its [UnsafeExpr] subobject, as a compiler for x86-64 may
    place the two in the object of a constant. *)
Definition example_layout : ObjectLayout :=
  {| Expr_address i := cell_address i + 56;
     Expr_address_not_null :=
       ltac:(intros i; unfold cell_address; lia) |}.

(** A sort that a client builds with the composite constructor and a sort
    that is move-constructed from it:
<<
    static constexpr const Sort* const a1[2] = { &sort<Int>(), &sort<Bool>() };
    static constexpr Sort s1(false, true, false, a1);
    Sort s2(Sort(false, true, false, a1));
>> *)
Definition moved_array : Storage :=
  {| sort_objects :=
       <[1 := Sort_composite false true false (Sorts_at 1) 2]>
         (<[2 := Sort_move (Sort_composite false true false (Sorts_at 1) 2)]>
            ∅);
     sorts_arrays := <[1 := [sort Int; sort Bool]]> ∅ |}.

(** A backend that counts the nodes it is handed; of the literal hooks it
    overrides the one of [int]. *)
Definition example_solver : Solver nat :=
  {| override_encode_literal T :=
       match T with
       | c_int => Some (fun _ _ n => (OK, S n))
       | _ => None
       end;
     encode_constant _ n := (OK, S n);
     encode_func_app _ _ _ n := (OK, S n);
     encode_const_array _ _ n := (OK, S n);
     encode_array_select _ _ n := (OK, S n);
     encode_array_store _ _ _ n := (OK, S n);
     encode_unary _ _ _ n := (OK, S n);
     encode_binary _ _ _ _ n := (OK, S n);
     encode_nary _ _ _ n := (OK, S n) |}.

(** [x + y] on the heap of the five constants. *)
Definition example_sum : UnsafeExpr :=
  binary_node (sort Int) ADD (to_UnsafeTerm example_x)
    (to_UnsafeTerm example_y) (Some Int).

(** * Properties *)

(** ** Sorts *)

Section SortTheorems.

Context `{DM : DataModel}.
Context (st : Storage).

Lemma nested_sorts_length (s : Sort) (l : list SortPtr) :
  nested_sorts st s = Some l -> N.of_nat (List.length l) = m_sorts_size s.
Proof.
  unfold nested_sorts. destruct (N.eqb_spec (m_sorts_size s) 0) as [E|E].
  - intros [= <-]. simpl. lia.
  - destruct (sorts_array st (m_sorts s)) as [l'|]; simpl; [|discriminate].
    destruct (N.eqb_spec (N.of_nat (List.length l')) (m_sorts_size s));
      [|discriminate].
    now intros [= <-].
Qed.

Lemma nested_sorts_element (s : Sort) (l : list SortPtr) (i : N) :
  nested_sorts st s = Some l -> i < m_sorts_size s ->
  sorts_element st (m_sorts s) i = l !! N.to_nat i.
Proof.
  unfold nested_sorts, sorts_element.
  destruct (N.eqb_spec (m_sorts_size s) 0) as [E|E]; [lia|].
  destruct (sorts_array st (m_sorts s)) as [l'|]; simpl; [|discriminate].
  destruct (N.of_nat (List.length l') =? m_sorts_size s); [|discriminate].
  now intros [= <-] _.
Qed.

Lemma check_sorts_index_in_range (s : Sort) (i : N) :
  i < m_sorts_size s -> check_sorts_index s i = Ret (i mod 2 ^ 32).
Proof.
  intros H. unfold check_sorts_index.
  destruct (N.leb_spec (m_sorts_size s) i); [lia|reflexivity].
Qed.

Lemma check_sorts_index_out_of_range (s : Sort) (i : N) :
  m_sorts_size s <= i ->
  check_sorts_index s i = Throw (out_of_range "check_sorts_index fails").
Proof.
  intros H. unfold check_sorts_index.
  destruct (N.leb_spec (m_sorts_size s) i); [reflexivity|lia].
Qed.

Lemma Sort_sorts_out_of_range (s : Sort) (i : N) :
  m_sorts_size s <= i ->
  Sort_sorts st s i = Throw (out_of_range "check_sorts_index fails").
Proof.
  intros H. unfold Sort_sorts.
  now rewrite check_sorts_index_out_of_range.
Qed.

Lemma Sort_sorts_in_range (s : Sort) (i : N) :
  i < m_sorts_size s ->
  Sort_sorts st s i = deref (sorts_element st (m_sorts s) i).
Proof.
  intros H. unfold Sort_sorts.
  now rewrite check_sorts_index_in_range.
Qed.

Lemma Sort_sorts_nested (s : Sort) (l : list SortPtr) (i : N) :
  nested_sorts st s = Some l -> i < m_sorts_size s ->
  exists p, l !! N.to_nat i = Some p /\ Sort_sorts st s i = Ret p.
Proof.
  intros Hl Hi.
  destruct (lookup_lt_is_Some_2 l (N.to_nat i)) as [p Hp].
  { pose proof (nested_sorts_length s l Hl). lia. }
  exists p. split; [exact Hp|].
  rewrite Sort_sorts_in_range by exact Hi.
  now rewrite (nested_sorts_element s l i Hl Hi), Hp.
Qed.

(** C8.  [s.sorts(i)] throws [std::out_of_range] if and only if
    [i >= s.sorts_size()]; otherwise it returns a reference to the [i]-th
    nested sort of [s]. *)
Theorem Sort_sorts_spec (s : Sort) (l : list SortPtr) (i : N) :
  nested_sorts st s = Some l ->
  ((exists e, Sort_sorts st s i = Throw e) <-> sorts_size s <= i) /\
  (sorts_size s <= i ->
     Sort_sorts st s i = Throw (out_of_range "check_sorts_index fails")) /\
  (i < sorts_size s ->
     exists p, l !! N.to_nat i = Some p /\ Sort_sorts st s i = Ret p).
Proof.
  intros Hl. unfold sorts_size.
  pose proof (Sort_sorts_nested s l i Hl) as Hin.
  split; [|split].
  - split.
    + intros [e He]. destruct (N.le_gt_cases (m_sorts_size s) i) as [|Hi];
        [assumption|].
      destruct (Hin Hi) as (p & _ & Hp). congruence.
    + intros Hi. eexists. now apply Sort_sorts_out_of_range.
  - apply Sort_sorts_out_of_range.
  - exact Hin.
Qed.

Lemma same_classification_refl (s : Sort) : same_classification s s.
Proof. repeat split. Qed.

(** The value of [Sort::operator==] between two distinct objects. *)
Lemma Sort_eq_distinct (this other : SortPtr) (s o : Sort) :
  sort_object st this = Some s -> sort_object st other = Some o ->
  this <> other ->
  forall b, Sort_eq st this other = Some b ->
  (b = true <->
     same_classification s o /\ m_sorts s = m_sorts o /\
     m_sorts_size s = m_sorts_size o).
Proof.
  intros Hs Ho Hne b. unfold Sort_eq. rewrite Hs, Ho. simpl.
  destruct (decide (this = other)) as [|_]; [contradiction|].
  intros [= <-]. unfold same_classification.
  rewrite !andb_true_iff, !eqb_true_iff, !N.eqb_eq, bool_decide_eq_true.
  tauto.
Qed.

(** C1, as the code has it.  [s1 == s2] is true when [s1] and [s2] are the
    same object; otherwise it is true exactly when they agree on all
    classification fields, their [m_sorts] point to the same array of
    nested sorts and the nested counts agree.  The nested sequences are
    then the same sequence; and two distinct sorts whose nested-sort arrays
    are separately allocated compare unequal, whatever the arrays hold. *)
Theorem Sort_eq_spec (this other : SortPtr) (s o : Sort) :
  sort_object st this = Some s ->
  sort_object st other = Some o ->
  (this = other -> Sort_eq st this other = Some true) /\
  (this <> other ->
     (Sort_eq st this other = Some true <->
        same_classification s o /\ m_sorts s = m_sorts o /\
        m_sorts_size s = m_sorts_size o)) /\
  (this <> other -> Sort_eq st this other = Some true ->
     nested_sorts st s = nested_sorts st o) /\
  (this <> other -> m_sorts s <> m_sorts o ->
     Sort_eq st this other = Some false).
Proof.
  intros Hs Ho.
  assert (Hb : exists b, Sort_eq st this other = Some b).
  { unfold Sort_eq. rewrite Hs, Ho. simpl. eauto. }
  destruct Hb as [b Hb].
  split; [|split; [|split]].
  - intros E. unfold Sort_eq. rewrite Hs, Ho. simpl.
    destruct (decide (this = other)); [reflexivity|contradiction].
  - intros Hne. rewrite Hb.
    rewrite <- (Sort_eq_distinct this other s o Hs Ho Hne b Hb).
    split; [now intros [= ->]|now intros ->].
  - intros Hne Ht. rewrite Hb in Ht. injection Ht as ->.
    destruct (Sort_eq_distinct this other s o Hs Ho Hne true Hb) as [Hb' _].
    destruct (Hb' eq_refl) as (_ & Hp & Hn).
    unfold nested_sorts. now rewrite Hp, Hn.
  - intros Hne Hp. rewrite Hb. f_equal.
    destruct b; [|reflexivity].
    destruct (Sort_eq_distinct this other s o Hs Ho Hne true Hb) as [Hb' _].
    destruct (Hb' eq_refl) as (_ & Hp' & _).
    contradiction.
Qed.

End SortTheorems.

(** ** Allocation *)

Lemma node_at_new (h : Heap) (e : UnsafeExpr) :
  node_at (h ++ [e]) (Some (List.length h)) = Some e.
Proof.
  unfold node_at, Heap in *. simpl.
  rewrite lookup_app_r by lia.
  now rewrite Nat.sub_diag.
Qed.

Lemma extends_refl (h : Heap) : extends h h.
Proof. now intros i e. Qed.

Lemma extends_trans (h1 h2 h3 : Heap) :
  extends h1 h2 -> extends h2 h3 -> extends h1 h3.
Proof. intros H12 H23 i e Hi. auto. Qed.

Lemma extends_new (h : Heap) (e : UnsafeExpr) : extends h (h ++ [e]).
Proof. intros i e' Hi. now apply lookup_app_l_Some. Qed.

Lemma extends_node_at (h h' : Heap) (p : option nat) (e : UnsafeExpr) :
  extends h h' -> node_at h p = Some e -> node_at h' p = Some e.
Proof. intros Hext. destruct p as [i|]; simpl; [apply Hext|discriminate]. Qed.

Lemma fresh_cell (h : Heap) : h !! List.length h = None.
Proof. now apply lookup_ge_None_2. Qed.

Lemma new_Ret (ctor : Heap -> Outcome UnsafeExpr) (h : Heap) (e : UnsafeExpr) :
  ctor h = Ret e -> new ctor h = Ret (Some (List.length h), h ++ [e]).
Proof. intros H. unfold new. now rewrite H. Qed.

Lemma Term_new_Ret (T : Ty) (ctor : Heap -> Outcome UnsafeExpr) (h : Heap)
    (e : UnsafeExpr) :
  ctor h = Ret e ->
  Term_new T ctor h = Ret ({| Term_ptr := Some (List.length h) |}, h ++ [e]).
Proof.
  intros H. unfold Term_new, mbind, Build_bind. now rewrite (new_Ret _ _ _ H).
Qed.

Lemma UnsafeTerm_new_Ret (ctor : Heap -> Outcome UnsafeExpr) (h : Heap)
    (e : UnsafeExpr) :
  ctor h = Ret e ->
  UnsafeTerm_new ctor h = Ret ({| m_ptr := Some (List.length h) |}, h ++ [e]).
Proof.
  intros H. unfold UnsafeTerm_new, mbind, Build_bind.
  now rewrite (new_Ret _ _ _ H).
Qed.

Lemma Term_new_Abort (T : Ty) (ctor : Heap -> Outcome UnsafeExpr) (h : Heap) :
  ctor h = Abort -> Term_new T ctor h = Abort.
Proof. intros H. unfold Term_new, mbind, Build_bind, new. now rewrite H. Qed.


Lemma UnsafeTerm_new_Throw (ctor : Heap -> Outcome UnsafeExpr) (h : Heap)
    (x : Exception) :
  ctor h = Throw x -> UnsafeTerm_new ctor h = Throw x.
Proof.
  intros H. unfold UnsafeTerm_new, mbind, Build_bind, new. now rewrite H.
Qed.

(** Reading a handle that points to a node. *)
Lemma Term_sort_node (h : Heap) (T : Ty) (t : Term T) (e : UnsafeExpr) :
  node_at h (Term_ptr t) = Some e -> Term_sort h t = Ret (m_sort e).
Proof.
  intros H. unfold Term_sort, Term_is_null.
  destruct (Term_ptr t); [|discriminate]. simpl in *. now rewrite H.
Qed.

Lemma Term_expr_kind_node (h : Heap) (T : Ty) (t : Term T) (e : UnsafeExpr) :
  node_at h (Term_ptr t) = Some e -> Term_expr_kind h t = Ret (m_expr_kind e).
Proof.
  intros H. unfold Term_expr_kind, Term_is_null.
  destruct (Term_ptr t); [|discriminate]. simpl in *. now rewrite H.
Qed.

Lemma UnsafeTerm_sort_node (h : Heap) (t : UnsafeTerm) (e : UnsafeExpr) :
  points_to h t e -> UnsafeTerm_sort h t = Ret (m_sort e).
Proof.
  unfold points_to. intros H. unfold UnsafeTerm_sort, UnsafeTerm_is_null.
  destruct (m_ptr t); [|discriminate]. simpl in *. now rewrite H.
Qed.

Lemma UnsafeTerm_expr_kind_node (h : Heap) (t : UnsafeTerm) (e : UnsafeExpr) :
  points_to h t e -> UnsafeTerm_expr_kind h t = Ret (m_expr_kind e).
Proof.
  unfold points_to. intros H. unfold UnsafeTerm_expr_kind, UnsafeTerm_is_null.
  destruct (m_ptr t); [|discriminate]. simpl in *. now rewrite H.
Qed.

Lemma points_to_not_null (h : Heap) (t : UnsafeTerm) (e : UnsafeExpr) :
  points_to h t e -> UnsafeTerm_is_null t = false.
Proof.
  unfold points_to, UnsafeTerm_is_null.
  destruct (m_ptr t); [reflexivity|discriminate].
Qed.

Lemma Term_ok_not_null (h : Heap) (T : Ty) (t : Term T) :
  Term_ok h t -> UnsafeTerm_is_null (to_UnsafeTerm t) = false.
Proof.
  intros (e & He & _). unfold UnsafeTerm_is_null. simpl.
  destruct (Term_ptr t); [reflexivity|discriminate].
Qed.

Lemma Term_ok_extends (h h' : Heap) (T : Ty) (t : Term T) :
  extends h h' -> Term_ok h t -> Term_ok h' t.
Proof.
  intros Hext (e & He & HT). exists e. split; [|exact HT].
  now apply (extends_node_at h h').
Qed.

(** A node over earlier nodes keeps the heap closed. *)
Lemma closed_heap_nil : closed_heap [].
Proof. intros i e Hi. discriminate. Qed.

Lemma closed_heap_new (h : Heap) (e : UnsafeExpr) :
  closed_heap h ->
  Forall (fun a => exists j, m_ptr a = Some j /\ (j < List.length h)%nat)
    (operands e) ->
  closed_heap (h ++ [e]).
Proof.
  intros Hh He i e' Hi.
  apply lookup_app_Some in Hi as [Hi|[Hge Hi]].
  - now apply Hh.
  - apply list_lookup_singleton_Some in Hi as [Hz <-].
    eapply Forall_impl; [exact He|].
    intros a (j & Hj & Hlt). exists j. split; [exact Hj|lia].
Qed.

(** The typed constructors keep the heap typed. *)
Lemma typed_heap_nil : typed_heap [].
Proof. intros i e T Hi. discriminate. Qed.

Lemma typed_heap_new (h : Heap) (e : UnsafeExpr) :
  typed_heap h ->
  (forall T, Expr_base e = Some T -> m_sort e = sort T) ->
  typed_heap (h ++ [e]).
Proof.
  intros Hh He i e' T Hi HT.
  apply lookup_app_Some in Hi as [Hi|[_ Hi]].
  - now apply (Hh i e' T).
  - apply list_lookup_singleton_Some in Hi as [_ <-]. now apply He.
Qed.

(** ** Function sorts and application *)

Section FuncTheorems.

Context `{DM : DataModel}.
Context (st : Storage).

Lemma FuncSort_result_spec (n : N) (U : list Ty) (sorts : list SortPtr) :
  FuncSort_result n sorts U = FuncSort_s_sorts n (sorts ++ map sort U).
Proof.
  revert sorts. induction U as [|T U IH]; intros sorts; simpl.
  - now rewrite app_nil_r.
  - rewrite IH. now rewrite <- app_assoc.
Qed.

Lemma Math_s_sort_value_Func (A : list Ty) (R : Ty) :
  Math_s_sort_value (Func (A ++ [R])) =
  Sort_composite true false false
    (FuncSort_s_sorts (N.of_nat (List.length A) + 1) (map sort (A ++ [R])))
    (N.of_nat (List.length A) + 1).
Proof.
  destruct A as [|T0 U]; simpl Math_s_sort_value.
  - reflexivity.
  - rewrite FuncSort_result_spec, length_app. simpl List.length.
    replace (N.of_nat (List.length U + 1) + 1)
      with (N.of_nat (S (List.length U)) + 1) by lia.
    reflexivity.
Qed.

Lemma RemoveLast_app (A : list Ty) (R : Ty) :
  A <> [] -> RemoveLast (A ++ [R]) = Some A.
Proof.
  induction A as [|T U IH]; [contradiction|]. intros _.
  destruct U as [|T' U']; [reflexivity|].
  assert (IH' : RemoveLast ((T' :: U') ++ [R]) = Some (T' :: U'))
    by now apply IH.
  destruct U' as [|T'' U'']; [reflexivity|].
  change (RemoveLast ((T :: T' :: T'' :: U'') ++ [R]))
    with (r ← RemoveLast ((T' :: T'' :: U'') ++ [R]); Some (T :: r)).
  now rewrite IH'.
Qed.

Lemma Func_Range_app (A : list Ty) (R : Ty) : Func_Range (A ++ [R]) = Some R.
Proof. unfold Func_Range. apply last_snoc. Qed.

Lemma Func_nested_sorts (A : list Ty) (R : Ty) :
  nested_sorts st (Math_s_sort_value (Func (A ++ [R]))) =
  Some (map sort A ++ [sort R]).
Proof.
  rewrite Math_s_sort_value_Func. unfold nested_sorts. simpl.
  destruct (N.eqb_spec (N.of_nat (List.length A) + 1) 0); [lia|].
  rewrite length_map, length_app, map_app. simpl.
  destruct (N.eqb_spec (N.of_nat (List.length A + 1))
              (N.of_nat (List.length A) + 1)); [reflexivity|lia].
Qed.

(** C6.  The registry sort of [Func<T1, ..., Tn, R>] is a function sort with
    [n + 1] nested sorts: the sorts of [T1] ... [Tn] at the indices [0] to
    [n - 1] and the sort of [R] at index [n], the arity.  A function
    application node over a declaration of that sort, built unchecked with
    arity [n] or through [apply], has the sort of [R]. *)
Theorem Func_sort_spec (A : list Ty) (R : Ty) :
  let n := N.of_nat (List.length A) in
  exists s : Sort,
    sort_object st (sort (Func (A ++ [R]))) = Some s /\
    is_func s = true /\
    sorts_size s = n + 1 /\
    nested_sorts st s = Some (map sort A ++ [sort R]) /\
    (forall (i : nat) (T : Ty),
       A !! i = Some T -> Sort_sorts st s (N.of_nat i) = Ret (sort T)) /\
    Sort_sorts st s n = Ret (sort R) /\
    (forall (symbol : string) (args : list UnsafeTerm) (h : Heap),
       exists e,
         UnsafeFuncAppExpr_ctor st n
           {| m_symbol := symbol; m_decl_sort := sort (Func (A ++ [R])) |}
           args h = Ret e /\
         m_expr_kind e = FUNC_APP_EXPR_KIND /\ m_sort e = sort R) /\
    (forall (func_decl : Decl (Func (A ++ [R]))) (args : Args A) (h : Heap),
       exists t h',
         apply A R func_decl args h = Ret (t, h') /\
         Term_expr_kind h' t = Ret FUNC_APP_EXPR_KIND /\
         Term_sort h' t = Ret (sort R)).
Proof.
  intros n. exists (Math_s_sort_value (Func (A ++ [R]))).
  pose proof (Func_nested_sorts A R) as Hnested.
  assert (Hsize : m_sorts_size (Math_s_sort_value (Func (A ++ [R]))) = n + 1).
  { now rewrite Math_s_sort_value_Func. }
  assert (Hat : forall (i : nat) (p : SortPtr),
            (map sort A ++ [sort R]) !! i = Some p ->
            Sort_sorts st (Math_s_sort_value (Func (A ++ [R]))) (N.of_nat i)
            = Ret p).
  { intros i p Hi.
    destruct (Sort_sorts_nested st _ _ (N.of_nat i) Hnested)
      as (p' & Hp' & Hret).
    - rewrite Hsize.
      apply lookup_lt_Some in Hi. rewrite length_app, length_map in Hi.
      simpl in Hi. subst n. lia.
    - rewrite Nat2N.id in Hp'. congruence. }
  assert (Hres : Sort_sorts st (Math_s_sort_value (Func (A ++ [R]))) n
                 = Ret (sort R)).
  { apply Hat. rewrite lookup_app_r by (rewrite length_map; lia).
    now rewrite length_map, Nat.sub_diag. }
  split; [reflexivity|].
  split; [now rewrite Math_s_sort_value_Func|].
  split; [exact Hsize|].
  split; [exact Hnested|].
  split; [|split; [exact Hres|split]].
  - intros i T Hi. apply Hat.
    rewrite lookup_app_l by (rewrite length_map; now apply lookup_lt_Some in Hi).
    now rewrite list_lookup_fmap, Hi.
  - intros symbol args h. eexists. unfold UnsafeFuncAppExpr_ctor.
    cbn [m_decl_sort].
    change (sort_object st (sort (Func (A ++ [R]))))
      with (Some (Math_s_sort_value (Func (A ++ [R])))).
    cbn [deref mbind Outcome_bind]. rewrite Hres.
    split; [reflexivity|]. split; reflexivity.
  - intros func_decl args h. do 2 eexists. unfold apply.
    split; [now apply Term_new_Ret|].
    split.
    + erewrite Term_expr_kind_node by apply node_at_new. reflexivity.
    + erewrite Term_sort_node by apply node_at_new. reflexivity.
Qed.

End FuncTheorems.

(** ** Constructors: the node that each one builds *)

Lemma assert_not_null (t : UnsafeTerm) :
  UnsafeTerm_is_null t = false -> assert (negb (UnsafeTerm_is_null t)) = Ret tt.
Proof. now intros ->. Qed.

Lemma assert_null (t : UnsafeTerm) :
  UnsafeTerm_is_null t = true -> assert (negb (UnsafeTerm_is_null t)) = Abort.
Proof. now intros ->. Qed.

Lemma UnsafeUnaryExpr_init_Ret (opcode : Opcode) (a : UnsafeTerm) :
  UnsafeTerm_is_null a = false ->
  UnsafeUnaryExpr_init opcode a = Ret (UnsafeUnaryExpr opcode a).
Proof. intros Ha. unfold UnsafeUnaryExpr_init. now rewrite Ha. Qed.

Lemma UnsafeBinaryExpr_init_Ret (opcode : Opcode) (l r : UnsafeTerm) :
  UnsafeTerm_is_null l = false -> UnsafeTerm_is_null r = false ->
  UnsafeBinaryExpr_init opcode l r = Ret (UnsafeBinaryExpr opcode l r).
Proof. intros Hl Hr. unfold UnsafeBinaryExpr_init. now rewrite Hl, Hr. Qed.

Lemma UnsafeNaryExpr_init_Ret (opcode : Opcode) (l : UnsafeTerms) :
  l <> [] -> UnsafeNaryExpr_init opcode l = Ret (UnsafeNaryExpr opcode l).
Proof. intros Hl. unfold UnsafeNaryExpr_init. now destruct l. Qed.

Lemma UnsafeConstArrayExpr_init_Ret (i : UnsafeTerm) :
  UnsafeTerm_is_null i = false ->
  UnsafeConstArrayExpr_init i = Ret (UnsafeConstArrayExpr i).
Proof. intros Hi. unfold UnsafeConstArrayExpr_init. now rewrite Hi. Qed.

Lemma UnsafeArraySelectExpr_init_Ret (a i : UnsafeTerm) :
  UnsafeTerm_is_null a = false -> UnsafeTerm_is_null i = false ->
  UnsafeArraySelectExpr_init a i = Ret (UnsafeArraySelectExpr a i).
Proof. intros Ha Hi. unfold UnsafeArraySelectExpr_init. now rewrite Ha, Hi. Qed.

Lemma UnsafeArrayStoreExpr_init_Ret (a i v : UnsafeTerm) :
  UnsafeTerm_is_null a = false -> UnsafeTerm_is_null i = false ->
  UnsafeTerm_is_null v = false ->
  UnsafeArrayStoreExpr_init a i v = Ret (UnsafeArrayStoreExpr a i v).
Proof.
  intros Ha Hi Hv. unfold UnsafeArrayStoreExpr_init. now rewrite Ha, Hi, Hv.
Qed.

Lemma BinaryExpr_ctor_Ret (opcode : Opcode) (T U : Ty) (l r : Term T)
    (h : Heap) :
  Term_ok h l -> Term_ok h r ->
  BinaryExpr_ctor opcode T U l r h =
  Ret (UnsafeExpr_of BINARY_EXPR_KIND (sort U)
         (UnsafeBinaryExpr opcode (to_UnsafeTerm l) (to_UnsafeTerm r))
         (Some U)).
Proof.
  intros Hl Hr. unfold BinaryExpr_ctor.
  rewrite UnsafeBinaryExpr_init_Ret; [reflexivity| |];
    now apply (Term_ok_not_null h).
Qed.

Lemma UnsafeBinaryExpr_ctor_Ret (s : SortPtr) (opcode : Opcode)
    (l r : UnsafeTerm) (h : Heap) :
  UnsafeTerm_is_null l = false -> UnsafeTerm_is_null r = false ->
  UnsafeBinaryExpr_ctor s opcode l r h =
  Ret (UnsafeExpr_of BINARY_EXPR_KIND s (UnsafeBinaryExpr opcode l r) None).
Proof.
  intros Hl Hr. unfold UnsafeBinaryExpr_ctor.
  now rewrite UnsafeBinaryExpr_init_Ret.
Qed.

(** ** Operators *)

Lemma operator_rel_unfold (op : RelOp) (T : Ty) (l r : Term T) :
  operator_rel op l r =
  Term_new Bool (BinaryExpr_ctor (RelOp_opcode op) T Bool l r).
Proof. destruct T, op; reflexivity. Qed.

Lemma Term_ok_sort (h : Heap) (T : Ty) (t : Term T) :
  typed_heap h -> Term_ok h t -> Term_sort h t = Ret (sort T).
Proof.
  intros Hh (e & He & HT). rewrite (Term_sort_node h T t e He). f_equal.
  unfold node_at in He. destruct (Term_ptr t) as [i|]; [|discriminate].
  now apply (Hh i e T).
Qed.

(** A typed binary operator node. *)
Lemma typed_binary_node (opcode : Opcode) (T U : Ty) (l r : Term T)
    (h : Heap) :
  Term_ok h l -> Term_ok h r ->
  exists (t : Term U) (e : UnsafeExpr),
    Term_new U (BinaryExpr_ctor opcode T U l r) h = Ret (t, h ++ [e]) /\
    Term_ptr t = Some (List.length h) /\
    members e = UnsafeBinaryExpr opcode (to_UnsafeTerm l) (to_UnsafeTerm r) /\
    Expr_base e = Some U /\
    Term_expr_kind (h ++ [e]) t = Ret BINARY_EXPR_KIND /\
    Term_sort (h ++ [e]) t = Ret (sort U).
Proof.
  intros Hl Hr. do 2 eexists.
  split; [apply Term_new_Ret, BinaryExpr_ctor_Ret; eassumption|].
  split; [reflexivity|]. split; [reflexivity|]. split; [reflexivity|].
  split.
  - erewrite Term_expr_kind_node by apply node_at_new. reflexivity.
  - erewrite Term_sort_node by apply node_at_new. reflexivity.
Qed.

(** An untyped binary operator node of sort [s]. *)
Lemma unsafe_binary_node (s : SortPtr) (opcode : Opcode) (l r : UnsafeTerm)
    (h : Heap) :
  UnsafeTerm_is_null l = false -> UnsafeTerm_is_null r = false ->
  exists (t : UnsafeTerm) (e : UnsafeExpr),
    UnsafeTerm_new (UnsafeBinaryExpr_ctor s opcode l r) h = Ret (t, h ++ [e]) /\
    m_ptr t = Some (List.length h) /\
    members e = UnsafeBinaryExpr opcode l r /\
    UnsafeTerm_expr_kind (h ++ [e]) t = Ret BINARY_EXPR_KIND /\
    UnsafeTerm_sort (h ++ [e]) t = Ret s.
Proof.
  intros Hl Hr. do 2 eexists.
  split; [apply UnsafeTerm_new_Ret, UnsafeBinaryExpr_ctor_Ret; assumption|].
  split; [reflexivity|]. split; [reflexivity|].
  split.
  - erewrite UnsafeTerm_expr_kind_node by apply node_at_new. reflexivity.
  - erewrite UnsafeTerm_sort_node by apply node_at_new. reflexivity.
Qed.

Lemma SMT_UNSAFE_BINARY_OP_unfold (opcode : Opcode) (l r : UnsafeTerm)
    (h : Heap) (e : UnsafeExpr) :
  points_to h l e ->
  SMT_UNSAFE_BINARY_OP opcode l r h =
  UnsafeTerm_new (UnsafeBinaryExpr_ctor (m_sort e) opcode l r) h.
Proof.
  intros Hl. unfold SMT_UNSAFE_BINARY_OP, UnsafeTerm_new, mbind, Build_bind, new.
  now rewrite (UnsafeTerm_sort_node h l e Hl).
Qed.

(** C2.  On two typed terms of class [T], each of [==], [!=], [<], [<=],
    [>], [>=] builds a new term of sort [Bool], and each of [+], [-], [*],
    [/], [%] (and, for a bit-vector class, of [&], [|], [^]) builds a new
    term of the sort of [T], which is the sort of the operands.  On two
    untyped terms the relational operators build a node that carries the
    sort [Bool], and the arithmetic and bitwise operators a node that
    carries the sort of the operands. *)
Theorem binary_operator_sorts (h : Heap) :
  typed_heap h ->
  (forall (T : Ty) (l r : Term T) (op : RelOp),
     Term_ok h l -> Term_ok h r ->
     exists (t : Term Bool) (h' : Heap),
       operator_rel op l r h = Ret (t, h') /\
       Term_ptr t = Some (List.length h) /\
       Term_expr_kind h' t = Ret BINARY_EXPR_KIND /\
       Term_sort h' t = Ret (sort Bool)) /\
  (forall (T : Ty) (l r : Term T) (op : ArithOp),
     Term_ok h l -> Term_ok h r ->
     exists (t : Term T) (h' : Heap),
       operator_arith op l r h = Ret (t, h') /\
       Term_ptr t = Some (List.length h) /\
       Term_expr_kind h' t = Ret BINARY_EXPR_KIND /\
       Term_sort h' t = Ret (sort T) /\
       Term_sort h' t = Term_sort h l /\ Term_sort h' t = Term_sort h r) /\
  (forall (U : Integral) (l r : Term (Bv U)) (op : BitOp),
     Term_ok h l -> Term_ok h r ->
     exists (t : Term (Bv U)) (h' : Heap),
       operator_bit op l r h = Ret (t, h') /\
       Term_ptr t = Some (List.length h) /\
       Term_expr_kind h' t = Ret BINARY_EXPR_KIND /\
       Term_sort h' t = Ret (sort (Bv U)) /\
       Term_sort h' t = Term_sort h l /\ Term_sort h' t = Term_sort h r) /\
  (forall (l r : UnsafeTerm) (el er : UnsafeExpr) (op : RelOp),
     points_to h l el -> points_to h r er ->
     exists (t : UnsafeTerm) (h' : Heap),
       unsafe_operator_rel op l r h = Ret (t, h') /\
       m_ptr t = Some (List.length h) /\
       UnsafeTerm_expr_kind h' t = Ret BINARY_EXPR_KIND /\
       UnsafeTerm_sort h' t = Ret (sort Bool)) /\
  (forall (l r : UnsafeTerm) (el er : UnsafeExpr),
     points_to h l el -> points_to h r er -> m_sort el = m_sort er ->
     (forall op : ArithOp,
        exists (t : UnsafeTerm) (h' : Heap),
          unsafe_operator_arith op l r h = Ret (t, h') /\
          m_ptr t = Some (List.length h) /\
          UnsafeTerm_expr_kind h' t = Ret BINARY_EXPR_KIND /\
          UnsafeTerm_sort h' t = UnsafeTerm_sort h l /\
          UnsafeTerm_sort h' t = UnsafeTerm_sort h r) /\
     (forall op : BitOp,
        exists (t : UnsafeTerm) (h' : Heap),
          unsafe_operator_bit op l r h = Ret (t, h') /\
          m_ptr t = Some (List.length h) /\
          UnsafeTerm_expr_kind h' t = Ret BINARY_EXPR_KIND /\
          UnsafeTerm_sort h' t = UnsafeTerm_sort h l /\
          UnsafeTerm_sort h' t = UnsafeTerm_sort h r)).
Proof.
  intros Hh. split; [|split; [|split; [|split]]].
  - intros T l r op Hl Hr. rewrite operator_rel_unfold.
    destruct (typed_binary_node (RelOp_opcode op) T Bool l r h Hl Hr)
      as (t & e & Ht & Hp & _ & _ & Hk & Hs).
    now exists t, (h ++ [e]).
  - intros T l r op Hl Hr. unfold operator_arith, SMT_BUILTIN_BINARY_OP.
    destruct (typed_binary_node (ArithOp_opcode op) T T l r h Hl Hr)
      as (t & e & Ht & Hp & _ & _ & Hk & Hs).
    exists t, (h ++ [e]).
    rewrite (Term_ok_sort h T l Hh Hl), (Term_ok_sort h T r Hh Hr).
    now repeat split.
  - intros U l r op Hl Hr. unfold operator_bit, SMT_BUILTIN_BV_BINARY_OP.
    destruct (typed_binary_node (BitOp_opcode op) (Bv U) (Bv U) l r h Hl Hr)
      as (t & e & Ht & Hp & _ & _ & Hk & Hs).
    exists t, (h ++ [e]).
    rewrite (Term_ok_sort h _ l Hh Hl), (Term_ok_sort h _ r Hh Hr).
    now repeat split.
  - intros l r el er op Hl Hr.
    unfold unsafe_operator_rel, SMT_UNSAFE_BINARY_REL.
    destruct (unsafe_binary_node (sort Bool) (RelOp_opcode op) l r h)
      as (t & e & Ht & Hp & _ & Hk & Hs);
      [now apply (points_to_not_null h l el)
      |now apply (points_to_not_null h r er)|].
    now exists t, (h ++ [e]).
  - intros l r el er Hl Hr Hsame.
    assert (Hop : forall opcode : Opcode,
              exists (t : UnsafeTerm) (h' : Heap),
                SMT_UNSAFE_BINARY_OP opcode l r h = Ret (t, h') /\
                m_ptr t = Some (List.length h) /\
                UnsafeTerm_expr_kind h' t = Ret BINARY_EXPR_KIND /\
                UnsafeTerm_sort h' t = UnsafeTerm_sort h l /\
                UnsafeTerm_sort h' t = UnsafeTerm_sort h r).
    { intros opcode. rewrite (SMT_UNSAFE_BINARY_OP_unfold _ l r h el Hl).
      destruct (unsafe_binary_node (m_sort el) opcode l r h)
        as (t & e & Ht & Hp & _ & Hk & Hs);
        [now apply (points_to_not_null h l el)
        |now apply (points_to_not_null h r er)|].
      exists t, (h ++ [e]).
      rewrite (UnsafeTerm_sort_node h l el Hl),
        (UnsafeTerm_sort_node h r er Hr).
      repeat split; try assumption. now rewrite Hs, Hsame. }
    split; intros op; apply Hop.
Qed.

(** ** distinct *)

Lemma foldl_push_back (T : Ty) (ts : list (Term T)) (acc : Terms T) :
  m_terms (foldl Terms_push_back acc ts) =
  m_terms acc ++ map to_UnsafeTerm ts.
Proof.
  revert acc. induction ts as [|t ts IH]; intros acc; simpl.
  - now rewrite app_nil_r.
  - rewrite IH. simpl. now rewrite <- app_assoc.
Qed.

Lemma m_terms_Terms_of (T : Ty) (ts : list (Term T)) :
  m_terms (Terms_of ts) = map to_UnsafeTerm ts.
Proof. unfold Terms_of. now rewrite foldl_push_back. Qed.

Lemma distinct_node (T : Ty) (terms : Terms T) (h : Heap) :
  m_terms terms <> [] ->
  distinct terms h =
  Ret ({| Term_ptr := Some (List.length h) |},
       h ++ [UnsafeExpr_of NARY_EXPR_KIND (sort Bool)
               (UnsafeNaryExpr NEQ (m_terms terms)) (Some Bool)]).
Proof.
  intros Hne. unfold distinct. apply Term_new_Ret.
  unfold NaryExpr_ctor. now rewrite UnsafeNaryExpr_init_Ret.
Qed.

(** The assertion of the constructor is about emptiness only. *)
Lemma distinct_empty (T : Ty) (terms : Terms T) (h : Heap) :
  m_terms terms = [] -> distinct terms h = Abort.
Proof.
  intros He. unfold distinct. apply Term_new_Abort.
  unfold NaryExpr_ctor, UnsafeNaryExpr_init. now rewrite He.
Qed.

(** C3.  For at least two terms of class [T], pushed in order into a
    [Terms<T>], [distinct] returns a new term of sort [Bool] whose node is
    an N-ary expression with the opcode [NEQ] and exactly the given terms,
    in order, as its operands. *)
Theorem distinct_spec (T : Ty) (ts : list (Term T)) (h : Heap) :
  (2 <= List.length ts)%nat ->
  exists (t : Term Bool) (e : UnsafeExpr),
    distinct (Terms_of ts) h = Ret (t, h ++ [e]) /\
    Term_ptr t = Some (List.length h) /\
    node_at (h ++ [e]) (Term_ptr t) = Some e /\
    Term_sort (h ++ [e]) t = Ret (sort Bool) /\
    Term_expr_kind (h ++ [e]) t = Ret NARY_EXPR_KIND /\
    Expr_base e = Some Bool /\
    members e = UnsafeNaryExpr NEQ (map to_UnsafeTerm ts) /\
    operands e = map to_UnsafeTerm ts.
Proof.
  intros Hlen. do 2 eexists.
  split.
  { apply distinct_node. rewrite m_terms_Terms_of.
    destruct ts; [simpl in Hlen; lia|discriminate]. }
  rewrite m_terms_Terms_of.
  split; [reflexivity|]. split; [apply node_at_new|].
  split; [erewrite Term_sort_node by apply node_at_new; reflexivity|].
  split; [erewrite Term_expr_kind_node by apply node_at_new; reflexivity|].
  repeat split.
Qed.

(** ** store *)

Lemma ArrayStoreExpr_ctor_Ret (D R : Ty) (a : Term (Array D R)) (i : Term D)
    (v : Term R) (h : Heap) :
  Term_ok h a -> Term_ok h i -> Term_ok h v ->
  ArrayStoreExpr_ctor D R a i v h =
  Ret (UnsafeExpr_of ARRAY_STORE_EXPR_KIND (sort (Array D R))
         (UnsafeArrayStoreExpr (to_UnsafeTerm a) (to_UnsafeTerm i)
            (to_UnsafeTerm v))
         (Some (Array D R))).
Proof.
  intros Ha Hi Hv. unfold ArrayStoreExpr_ctor.
  rewrite UnsafeArrayStoreExpr_init_Ret; [reflexivity| | |];
    now apply (Term_ok_not_null h).
Qed.

Lemma ArraySelectExpr_ctor_Ret (D R : Ty) (a : Term (Array D R)) (i : Term D)
    (h : Heap) :
  Term_ok h a -> Term_ok h i ->
  ArraySelectExpr_ctor D R a i h =
  Ret (UnsafeExpr_of ARRAY_SELECT_EXPR_KIND (sort R)
         (UnsafeArraySelectExpr (to_UnsafeTerm a) (to_UnsafeTerm i))
         (Some R)).
Proof.
  intros Ha Hi. unfold ArraySelectExpr_ctor.
  rewrite UnsafeArraySelectExpr_init_Ret; [reflexivity| |];
    now apply (Term_ok_not_null h).
Qed.

Lemma Term_ok_new (h : Heap) (T : Ty) (e : UnsafeExpr) :
  Expr_base e = Some T ->
  Term_ok (h ++ [e]) ({| Term_ptr := Some (List.length h) |} : Term T).
Proof. intros HT. exists e. split; [apply node_at_new|exact HT]. Qed.

(** C4.  [store(a, i, v)] returns a term on a fresh node of kind
    [ARRAY_STORE_EXPR_KIND] whose sort is the sort of [a]; it is a functional
    update: every node of the heap, and so the nodes that [a], [i] and [v]
    reference, is as before. *)
Theorem store_spec (D R : Ty) (a : Term (Array D R)) (i : Term D)
    (v : Term R) (h : Heap) :
  typed_heap h -> Term_ok h a -> Term_ok h i -> Term_ok h v ->
  exists (t : Term (Array D R)) (h' : Heap),
    store a i v h = Ret (t, h') /\
    Term_ptr t = Some (List.length h) /\
    node_at h (Term_ptr t) = None /\
    Term_expr_kind h' t = Ret ARRAY_STORE_EXPR_KIND /\
    Term_sort h' t = Term_sort h a /\
    Term_sort h' t = Ret (sort (Array D R)) /\
    extends h h' /\
    node_at h' (Term_ptr a) = node_at h (Term_ptr a) /\
    node_at h' (Term_ptr i) = node_at h (Term_ptr i) /\
    node_at h' (Term_ptr v) = node_at h (Term_ptr v) /\
    typed_heap h' /\ Term_ok h' t.
Proof.
  intros Hh Ha Hi Hv.
  pose (e := UnsafeExpr_of ARRAY_STORE_EXPR_KIND (sort (Array D R))
               (UnsafeArrayStoreExpr (to_UnsafeTerm a) (to_UnsafeTerm i)
                  (to_UnsafeTerm v)) (Some (Array D R))).
  assert (Hkeep : forall (T : Ty) (x : Term T),
            Term_ok h x -> node_at (h ++ [e]) (Term_ptr x) = node_at h (Term_ptr x)).
  { intros T x (ex & Hx & _). rewrite Hx.
    apply (extends_node_at h); [apply extends_new|exact Hx]. }
  exists {| Term_ptr := Some (List.length h) |}, (h ++ [e]).
  split.
  { unfold store. apply Term_new_Ret. now apply ArrayStoreExpr_ctor_Ret. }
  split; [reflexivity|].
  split; [apply fresh_cell|].
  split; [erewrite Term_expr_kind_node by apply node_at_new; reflexivity|].
  split.
  { rewrite (Term_ok_sort h _ a Hh Ha).
    erewrite Term_sort_node by apply node_at_new. reflexivity. }
  split; [erewrite Term_sort_node by apply node_at_new; reflexivity|].
  split; [apply extends_new|].
  split; [now apply Hkeep|]. split; [now apply Hkeep|].
  split; [now apply Hkeep|].
  split.
  - apply typed_heap_new; [exact Hh|]. simpl. now intros T [= <-].
  - now apply Term_ok_new.
Qed.

(** ** Conversion of an untyped term to a typed term *)

(** C7.  The conversion of a non-null untyped term [u] to a typed term of
    class [T] raises nothing.  It yields a null handle, whose [addr()] is 0,
    when the node of [u] is not an expression of the static sort [T].
    Otherwise it yields a non-null typed handle on the node of [u]:
    converted back to an untyped term it is [u], with the [addr()] of [u].
    The [addr()] of the typed handle itself is not 0; it is the address of
    the [Expr<T>] subobject of the node, where the [addr()] of [u] is the
    address of its [UnsafeExpr] subobject, and nothing makes the two
    equal. *)
Theorem UnsafeTerm_to_spec `{L : ObjectLayout} (T : Ty) (h : Heap)
    (u : UnsafeTerm) (e : UnsafeExpr) :
  points_to h u e ->
  exists t : Term T,
    UnsafeTerm_to T h u = Ret t /\
    (Expr_base e <> Some T -> Term_is_null t = true /\ Term_addr t = 0) /\
    (Expr_base e = Some T ->
       Term_is_null t = false /\
       node_at h (Term_ptr t) = Some e /\
       to_UnsafeTerm t = u /\
       UnsafeTerm_addr (to_UnsafeTerm t) = UnsafeTerm_addr u /\
       Term_addr t <> 0 /\
       exists i, m_ptr u = Some i /\
         UnsafeTerm_addr u = cell_address i /\
         Term_addr t = Expr_address i).
Proof.
  unfold points_to. intros Hu. destruct u as [[i|]]; [|discriminate].
  simpl in Hu. unfold UnsafeTerm_to, dynamic_pointer_cast. simpl.
  rewrite Hu. simpl.
  destruct (decide (Expr_base e = Some T)) as [HT|HT].
  - eexists. split; [reflexivity|]. split; [contradiction|].
    intros _. split; [reflexivity|]. split; [exact Hu|].
    split; [reflexivity|]. split; [reflexivity|].
    split; [apply Expr_address_not_null|].
    exists i. repeat split.
  - eexists. split; [reflexivity|]. split; [|contradiction].
    intros _. split; reflexivity.
Qed.

(** ** The unchecked array-select node *)

Section SelectTheorems.

Context `{DM : DataModel}.
Context (st : Storage).

Lemma Sort_primitive_sorts_size (b1 b2 b3 b4 b5 : bool) (n : N) :
  sorts_size (Sort_primitive b1 b2 b3 b4 b5 n) = 0.
Proof. reflexivity. Qed.

(** The sorts of [Bool], [Int], [Real] and [Bv<T>] have no nested sort. *)
Lemma primitive_sorts_size (T : Ty) (s : Sort) :
  match T with Array _ _ | Func _ => False | _ => True end ->
  sort_object st (sort T) = Some s -> sorts_size s = 0.
Proof. destruct T; try contradiction; intros _ [= <-]; reflexivity. Qed.

(** With two nested sorts or more the node is built, array sort or not:
    its sort is the nested sort at index 1. *)
Lemma UnsafeArraySelectExpr_ctor_Ret (h : Heap) (array index : UnsafeTerm)
    (e : UnsafeExpr) (s : Sort) (l : list SortPtr) :
  points_to h array e ->
  sort_object st (m_sort e) = Some s ->
  nested_sorts st s = Some l ->
  2 <= sorts_size s ->
  UnsafeTerm_is_null index = false ->
  exists p, l !! 1%nat = Some p /\
    UnsafeArraySelectExpr_ctor st array index h =
    Ret (UnsafeExpr_of ARRAY_SELECT_EXPR_KIND p
           (UnsafeArraySelectExpr array index) None).
Proof.
  intros He Hs Hl Hge Hi.
  destruct (Sort_sorts_nested st s l 1 Hl) as (p & Hp & Hret);
    [unfold sorts_size in Hge; lia|].
  exists p. split; [exact Hp|].
  unfold UnsafeArraySelectExpr_ctor.
  rewrite (UnsafeTerm_sort_node h array e He). cbn [mbind Outcome_bind].
  rewrite Hs. cbn [deref mbind Outcome_bind]. rewrite Hret.
  cbn [mbind Outcome_bind].
  rewrite UnsafeArraySelectExpr_init_Ret;
    [reflexivity|now apply (points_to_not_null h array e)|exact Hi].
Qed.

(** C10.  For an untyped term whose sort has fewer than two nested sorts,
    as have the sorts of [Bool], [Int], [Real] and [Bv<T>], whose nested
    count is 0, the construction of an unchecked array-select node over it
    throws [std::out_of_range]: the sort of the node is computed as the
    nested sort at index 1 of the sort of the array operand.  No node is
    allocated.  The nested count is all that is checked: the constructor
    throws exactly when it is below two, and over a first operand with two
    nested sorts or more, of an array sort or not, and a non-null index it
    builds the node, with the nested sort at index 1 as its sort. *)
Theorem UnsafeArraySelectExpr_out_of_range (h : Heap) (array index : UnsafeTerm)
    (e : UnsafeExpr) (s : Sort) :
  points_to h array e ->
  sort_object st (m_sort e) = Some s ->
  (sorts_size s < 2 ->
     UnsafeArraySelectExpr_ctor st array index h =
       Throw (out_of_range "check_sorts_index fails") /\
     UnsafeTerm_new (UnsafeArraySelectExpr_ctor st array index) h =
       Throw (out_of_range "check_sorts_index fails")) /\
  (forall T, match T with Array _ _ | Func _ => False | _ => True end ->
     m_sort e = sort T -> sorts_size s = 0) /\
  (forall what,
     UnsafeArraySelectExpr_ctor st array index h = Throw what ->
     sorts_size s < 2) /\
  (forall l, nested_sorts st s = Some l -> 2 <= sorts_size s ->
     UnsafeTerm_is_null index = false ->
     exists p, l !! 1%nat = Some p /\
       UnsafeTerm_new (UnsafeArraySelectExpr_ctor st array index) h =
       Ret ({| m_ptr := Some (List.length h) |},
            h ++ [UnsafeExpr_of ARRAY_SELECT_EXPR_KIND p
                    (UnsafeArraySelectExpr array index) None])).
Proof.
  intros He Hs.
  split; [|split; [|split]].
  - intros Hlt.
    assert (H : UnsafeArraySelectExpr_ctor st array index h =
                Throw (out_of_range "check_sorts_index fails")).
    { unfold UnsafeArraySelectExpr_ctor.
      rewrite (UnsafeTerm_sort_node h array e He). cbn [mbind Outcome_bind].
      rewrite Hs. cbn [deref mbind Outcome_bind].
      rewrite Sort_sorts_out_of_range; [reflexivity|].
      unfold sorts_size in Hlt. lia. }
    split; [exact H|]. now apply UnsafeTerm_new_Throw.
  - intros T HT Hsort. rewrite Hsort in Hs.
    exact (primitive_sorts_size T s HT Hs).
  - intros what. unfold UnsafeArraySelectExpr_ctor.
    rewrite (UnsafeTerm_sort_node h array e He). cbn [mbind Outcome_bind].
    rewrite Hs. cbn [deref mbind Outcome_bind].
    destruct (N.lt_ge_cases (sorts_size s) 2) as [Hlt|Hge]; [now intros _|].
    rewrite Sort_sorts_in_range by (unfold sorts_size in Hge; lia).
    destruct (sorts_element st (m_sorts s) 1) as [p|];
      cbn [deref mbind Outcome_bind]; [|discriminate].
    unfold UnsafeArraySelectExpr_init, assert.
    destruct (UnsafeTerm_is_null array), (UnsafeTerm_is_null index);
      cbn; discriminate.
  - intros l Hl Hge Hi.
    destruct (UnsafeArraySelectExpr_ctor_Ret h array index e s l He Hs Hl
                Hge Hi) as (p & Hp & Hret).
    exists p. split; [exact Hp|]. now apply UnsafeTerm_new_Ret.
Qed.

End SelectTheorems.

(** ** The constructors that take operand handles *)

Ltac break_match :=
  match goal with
  | |- context [match ?x with _ => _ end] => destruct x eqn:?
  | H : context [match ?x with _ => _ end] |- _ => destruct x eqn:?
  end.

Ltac unfold_ctors :=
  unfold construct, UnsafeUnaryExpr_ctor, UnaryExpr_ctor,
    UnsafeBinaryExpr_ctor, BinaryExpr_ctor, UnsafeNaryExpr_ctor,
    NaryExpr_ctor, UnsafeConstArrayExpr_ctor, ConstArrayExpr_ctor,
    UnsafeArraySelectExpr_ctor, ArraySelectExpr_ctor,
    UnsafeArrayStoreExpr_ctor, ArrayStoreExpr_ctor,
    UnsafeUnaryExpr_init, UnsafeBinaryExpr_init, UnsafeNaryExpr_init,
    UnsafeConstArrayExpr_init, UnsafeArraySelectExpr_init,
    UnsafeArrayStoreExpr_init, UnsafeTerm_sort, assert, empty,
    mbind, Outcome_bind in *.

Section ConstructionTheorems.

Context `{DM : DataModel}.
Context (st : Storage).

Lemma live_not_null (h : Heap) (t : UnsafeTerm) :
  live h t -> UnsafeTerm_is_null t = false -> exists e, points_to h t e.
Proof. intros [Hn|He] Hf; [congruence|exact He]. Qed.

Lemma construct_operands (c : Construction) (h : Heap) (e : UnsafeExpr) :
  construct st c h = Ret e -> operands e = given_operands c.
Proof.
  destruct c; unfold_ctors; simpl; intros H;
    repeat (break_match; simplify_eq); reflexivity.
Qed.

Lemma construct_null_operand (c : Construction) (h : Heap) (e : UnsafeExpr) :
  is_nary c = false ->
  construct st c h = Ret e ->
  Forall (fun a => UnsafeTerm_is_null a = false) (given_operands c).
Proof.
  destruct c; try discriminate; intros _; unfold_ctors; simpl; intros H;
    repeat (break_match; simplify_eq);
    repeat constructor; simpl;
    match goal with
    | H : negb ?b = true |- ?b = false => now apply negb_true_iff
    end.
Qed.

Lemma construct_null_Abort (c : Construction) (h : Heap) :
  Forall (live h) (given_operands c) ->
  is_nary c = false -> is_unsafe_select c = false ->
  Exists (fun a => UnsafeTerm_is_null a = true) (given_operands c) ->
  construct st c h = Abort.
Proof.
  destruct c; try discriminate; intros Hlive _ _; simpl in *;
    rewrite ?Exists_cons, Exists_nil; unfold_ctors; simpl; intros H;
    repeat (break_match; simplify_eq); try reflexivity;
    repeat match goal with
    | H : negb _ = true |- _ => apply negb_true_iff in H
    end; try (intuition congruence).
  all: unfold deref in *; break_match; simplify_eq.
  all: apply Forall_cons in Hlive as [[Hn|[e He]] _]; [congruence|].
  all: unfold points_to in He; congruence.
Qed.

Lemma construct_null_array_Abort (array index : UnsafeTerm) (h : Heap) :
  UnsafeTerm_is_null array = true ->
  construct st (new_UnsafeArraySelectExpr array index) h = Abort.
Proof. intros Hn. unfold_ctors. simpl. now rewrite Hn. Qed.

Lemma construct_empty_Abort (c : Construction) (h : Heap) :
  is_nary c = true -> given_operands c = [] -> construct st c h = Abort.
Proof.
  destruct c; try discriminate; intros _; unfold_ctors; simpl;
    intros ->; reflexivity.
Qed.

Lemma construct_returns (c : Construction) (h : Heap) :
  Forall (live h) (given_operands c) ->
  Forall (fun a => UnsafeTerm_is_null a = false) (given_operands c) ->
  given_operands c <> [] ->
  select_sort_ok st h c ->
  returns (construct st c h).
Proof.
  intros Hlive Hnn Hne Hsel. unfold returns.
  destruct c; simpl in *;
    repeat match goal with
    | H : Forall _ (_ :: _) |- _ => apply Forall_cons in H as [? ?]
    end.
  - eexists. unfold UnsafeUnaryExpr_ctor.
    now rewrite UnsafeUnaryExpr_init_Ret.
  - eexists. unfold UnaryExpr_ctor. now rewrite UnsafeUnaryExpr_init_Ret.
  - eexists. now apply UnsafeBinaryExpr_ctor_Ret.
  - eexists. unfold BinaryExpr_ctor. now rewrite UnsafeBinaryExpr_init_Ret.
  - eexists. unfold UnsafeNaryExpr_ctor. now rewrite UnsafeNaryExpr_init_Ret.
  - eexists. unfold NaryExpr_ctor. now rewrite UnsafeNaryExpr_init_Ret.
  - eexists. unfold UnsafeConstArrayExpr_ctor.
    now rewrite UnsafeConstArrayExpr_init_Ret.
  - eexists. unfold ConstArrayExpr_ctor.
    now rewrite UnsafeConstArrayExpr_init_Ret.
  - destruct Hsel as (e & s & l & He & Hs & Hl & Hge).
    destruct (UnsafeArraySelectExpr_ctor_Ret st h array index e s l)
      as (p & _ & Hret); try assumption.
    eexists. exact Hret.
  - eexists. unfold ArraySelectExpr_ctor.
    now rewrite UnsafeArraySelectExpr_init_Ret.
  - destruct (live_not_null h array) as [e He]; try assumption.
    eexists. unfold UnsafeArrayStoreExpr_ctor.
    rewrite (UnsafeTerm_sort_node h array e He). cbn [mbind Outcome_bind].
    now rewrite UnsafeArrayStoreExpr_init_Ret.
  - eexists. unfold ArrayStoreExpr_ctor.
    now rewrite UnsafeArrayStoreExpr_init_Ret.
Qed.

(** C9, as the code has it.  The unary, binary, constant-array, array-select
    and array-store constructors build no node when an operand handle is
    null: the assertion aborts the program (the unchecked array-select
    constructor asserts on a null array operand, and with a null index
    operand it may instead fail earlier, when it computes the sort of the
    node), so the nodes they build hold only non-null operand handles.  The
    N-ary constructors assert that the list of operands is not empty.  With
    non-null operand handles the construction succeeds, for an N-ary node
    when the list is not empty and for an unchecked array-select node when
    the sort of the array operand has a nested sort at index 1; the node
    holds the operand handles that were given. *)
Theorem construct_spec (c : Construction) (h : Heap) :
  Forall (live h) (given_operands c) ->
  (forall e, construct st c h = Ret e -> operands e = given_operands c) /\
  (is_nary c = false ->
   Exists (fun a => UnsafeTerm_is_null a = true) (given_operands c) ->
   ~ returns (construct st c h) /\
   (is_unsafe_select c = false -> construct st c h = Abort) /\
   (forall array index,
      c = new_UnsafeArraySelectExpr array index ->
      UnsafeTerm_is_null array = true -> construct st c h = Abort)) /\
  (is_nary c = false ->
   forall e, construct st c h = Ret e ->
     Forall (fun a => UnsafeTerm_is_null a = false) (operands e)) /\
  (is_nary c = true -> given_operands c = [] -> construct st c h = Abort) /\
  (Forall (fun a => UnsafeTerm_is_null a = false) (given_operands c) ->
   given_operands c <> [] ->
   select_sort_ok st h c ->
   returns (construct st c h)).
Proof.
  intros Hlive.
  split; [intros e; apply construct_operands|].
  split; [|split; [|split]].
  - intros Hn Hex. split; [|split].
    + intros [e He].
      pose proof (construct_null_operand c h e Hn He) as Hall.
      apply Exists_exists in Hex as (a & Ha & Hnull).
      rewrite Forall_forall in Hall. specialize (Hall a Ha). congruence.
    + intros Hs. now apply construct_null_Abort.
    + intros array index -> Hnull. now apply construct_null_array_Abort.
  - intros Hn e He. rewrite (construct_operands c h e He).
    now apply (construct_null_operand c h e).
  - apply construct_empty_Abort.
  - now apply construct_returns.
Qed.

End ConstructionTheorems.

(** ** The select/store law *)

Section SemanticsTheorems.

Context {V : Type} `{M : Theory V}.

Lemma eval_S (n : nat) (h : Heap) (t : UnsafeTerm) :
  eval (S n) h t =
  (e ← node_at h (m_ptr t);
   match members e with
   | UnsafeLiteralExpr T z => Some (den_literal (m_sort e) T z)
   | UnsafeConstantExpr d => Some (den_constant d)
   | UnsafeFuncAppExpr _ d args =>
       vs ← mapM (eval n h) args; Some (den_func_app d vs)
   | UnsafeUnaryExpr op a =>
       x ← eval n h a; Some (den_unary op (m_sort e) x)
   | UnsafeBinaryExpr op l r =>
       x ← eval n h l; y ← eval n h r;
       Some (den_binary op (m_sort e) x y)
   | UnsafeNaryExpr op l =>
       vs ← mapM (eval n h) l; Some (den_nary op (m_sort e) vs)
   | UnsafeConstArrayExpr i =>
       x ← eval n h i; Some (den_const_array (m_sort e) x)
   | UnsafeArraySelectExpr a i =>
       x ← eval n h a; y ← eval n h i; Some (den_array_select x y)
   | UnsafeArrayStoreExpr a i v =>
       x ← eval n h a; y ← eval n h i; z ← eval n h v;
       Some (den_array_store x y z)
   end).
Proof. reflexivity. Qed.

(** More fuel and more nodes do not change the value of a term. *)
Lemma eval_mono (n : nat) :
  forall (m : nat) (h h' : Heap) (t : UnsafeTerm) (x : V),
    (n <= m)%nat -> extends h h' ->
    eval n h t = Some x -> eval m h' t = Some x.
Proof.
  induction n as [|n IH]; intros m h h' t x Hle Hext; [discriminate|].
  destruct m as [|m]; [lia|].
  assert (IH' : forall t x, eval n h t = Some x -> eval m h' t = Some x).
  { intros t' x'. apply IH; [lia|exact Hext]. }
  assert (IHl : forall l xs,
            mapM (eval n h) l = Some xs -> mapM (eval m h') l = Some xs).
  { intros l xs. rewrite !mapM_Some. intros HF.
    apply (Forall2_impl _ _ _ _ HF). exact IH'. }
  rewrite !eval_S.
  destruct (node_at h (m_ptr t)) as [e|] eqn:He; [|discriminate].
  rewrite (extends_node_at h h' _ e Hext He). simpl.
  destruct (members e); simpl; try (intros H; exact H).
  - destruct (mapM (eval n h) m_args) as [vs|] eqn:E; [|discriminate].
    now rewrite (IHl _ _ E).
  - destruct (eval n h m_operand) as [a|] eqn:E; [|discriminate].
    now rewrite (IH' _ _ E).
  - destruct (eval n h m_loperand) as [a|] eqn:E1; [|discriminate].
    destruct (eval n h m_roperand) as [b|] eqn:E2; [|discriminate].
    now rewrite (IH' _ _ E1), (IH' _ _ E2).
  - destruct (mapM (eval n h) m_operands) as [vs|] eqn:E; [|discriminate].
    now rewrite (IHl _ _ E).
  - destruct (eval n h m_init) as [a|] eqn:E; [|discriminate].
    now rewrite (IH' _ _ E).
  - destruct (eval n h m_array) as [a|] eqn:E1; [|discriminate].
    destruct (eval n h m_index) as [b|] eqn:E2; [|discriminate].
    now rewrite (IH' _ _ E1), (IH' _ _ E2).
  - destruct (eval n h m_array) as [a|] eqn:E1; [|discriminate].
    destruct (eval n h m_index) as [b|] eqn:E2; [|discriminate].
    destruct (eval n h m_value) as [c|] eqn:E3; [|discriminate].
    now rewrite (IH' _ _ E1), (IH' _ _ E2), (IH' _ _ E3).
Qed.

(** When a term has a value, it has no other, whatever the fuel. *)
Lemma eval_unique (n m : nat) (h : Heap) (t : UnsafeTerm) (x y : V) :
  eval n h t = Some x -> eval m h t = Some y -> x = y.
Proof.
  intros Hx Hy.
  apply (eval_mono n (Nat.max n m) h h t x) in Hx;
    [|lia|apply extends_refl].
  apply (eval_mono m (Nat.max n m) h h t y) in Hy;
    [|lia|apply extends_refl].
  congruence.
Qed.

(** The formula and its negation, from the values of the operands. *)
Lemma select_store_values (D R : Ty) (a : Term (Array D R)) (i : Term D)
    (v : Term R) (h : Heap) (n : nat) (va vi vv : V) :
  Term_ok h a -> Term_ok h i -> Term_ok h v ->
  eval n h (to_UnsafeTerm a) = Some va ->
  eval n h (to_UnsafeTerm i) = Some vi ->
  eval n h (to_UnsafeTerm v) = Some vv ->
  exists (f : Term Bool) (h' : Heap),
    select_store_formula a i v h = Ret (f, h') /\
    List.length h' = (List.length h + 3)%nat /\
    (forall m, (n + 3 <= m)%nat ->
       eval m h' (to_UnsafeTerm f) = Some den_true) /\
    exists (g : Term Bool) (h'' : Heap),
      SMT_BUILTIN_BOOL_UNARY_OP LNOT f h' = Ret (g, h'') /\
      List.length h'' = (List.length h + 4)%nat /\
      (forall m, (n + 4 <= m)%nat ->
         eval m h'' (to_UnsafeTerm g) = Some den_false) /\
      (forall m, eval m h'' (to_UnsafeTerm g) <> Some den_true).
Proof.
  intros Ha Hi Hv Ea Ei Ev.
  pose (e1 := UnsafeExpr_of ARRAY_STORE_EXPR_KIND (sort (Array D R))
                (UnsafeArrayStoreExpr (to_UnsafeTerm a) (to_UnsafeTerm i)
                   (to_UnsafeTerm v)) (Some (Array D R))).
  pose (s := {| Term_ptr := Some (List.length h) |} : Term (Array D R)).
  pose (h1 := h ++ [e1]).
  pose (e2 := UnsafeExpr_of ARRAY_SELECT_EXPR_KIND (sort R)
                (UnsafeArraySelectExpr (to_UnsafeTerm s) (to_UnsafeTerm i))
                (Some R)).
  pose (x := {| Term_ptr := Some (List.length h1) |} : Term R).
  pose (h2 := h1 ++ [e2]).
  pose (e3 := UnsafeExpr_of BINARY_EXPR_KIND (sort Bool)
                (UnsafeBinaryExpr EQL (to_UnsafeTerm x) (to_UnsafeTerm v))
                (Some Bool)).
  pose (f := {| Term_ptr := Some (List.length h2) |} : Term Bool).
  pose (h3 := h2 ++ [e3]).
  pose (e4 := UnsafeExpr_of UNARY_EXPR_KIND (sort Bool)
                (UnsafeUnaryExpr LNOT (to_UnsafeTerm f)) (Some Bool)).
  pose (g := {| Term_ptr := Some (List.length h3) |} : Term Bool).
  pose (h4 := h3 ++ [e4]).
  assert (X1 : extends h h1) by apply extends_new.
  assert (X2 : extends h1 h2) by apply extends_new.
  assert (X3 : extends h2 h3) by apply extends_new.
  assert (X4 : extends h3 h4) by apply extends_new.
  assert (Hs : Term_ok h1 s) by now apply Term_ok_new.
  assert (Hx : Term_ok h2 x) by now apply Term_ok_new.
  assert (Hf : Term_ok h3 f) by now apply Term_ok_new.
  (* the three nodes of the formula *)
  assert (B1 : store a i v h = Ret (s, h1)).
  { unfold store. apply Term_new_Ret. now apply ArrayStoreExpr_ctor_Ret. }
  assert (B2 : select s i h1 = Ret (x, h2)).
  { unfold select. apply Term_new_Ret. apply ArraySelectExpr_ctor_Ret;
      [exact Hs|now apply (Term_ok_extends h h1)]. }
  assert (B3 : operator_rel equal x v h2 = Ret (f, h3)).
  { rewrite operator_rel_unfold. apply Term_new_Ret.
    apply BinaryExpr_ctor_Ret;
      [exact Hx|apply (Term_ok_extends h h2); [|exact Hv]].
    now apply (extends_trans h h1 h2). }
  assert (B4 : SMT_BUILTIN_BOOL_UNARY_OP LNOT f h3 = Ret (g, h4)).
  { unfold SMT_BUILTIN_BOOL_UNARY_OP. apply Term_new_Ret.
    unfold UnaryExpr_ctor. rewrite UnsafeUnaryExpr_init_Ret; [reflexivity|].
    now apply (Term_ok_not_null h3). }
  (* their values *)
  assert (V1 : eval (S n) h1 (to_UnsafeTerm s)
               = Some (den_array_store va vi vv)).
  { rewrite eval_S. simpl m_ptr. unfold h1. rewrite node_at_new. simpl.
    rewrite (eval_mono n n h (h ++ [e1]) _ va (le_n _) X1 Ea).
    rewrite (eval_mono n n h (h ++ [e1]) _ vi (le_n _) X1 Ei).
    rewrite (eval_mono n n h (h ++ [e1]) _ vv (le_n _) X1 Ev).
    reflexivity. }
  assert (V2 : eval (S (S n)) h2 (to_UnsafeTerm x) = Some vv).
  { rewrite eval_S. simpl m_ptr. unfold h2. rewrite node_at_new.
    cbn [mbind option_bind e2 members UnsafeExpr_of].
    rewrite (eval_mono (S n) (S n) h1 (h1 ++ [e2]) _ _ (le_n _) X2 V1).
    cbn [mbind option_bind].
    rewrite (eval_mono n (S n) h (h1 ++ [e2]) _ vi); [| lia | | exact Ei].
    - cbn [mbind option_bind]. now rewrite select_store_same.
    - now apply (extends_trans h h1). }
  assert (V3 : eval (S (S (S n))) h3 (to_UnsafeTerm f) = Some den_true).
  { rewrite eval_S. simpl m_ptr. unfold h3. rewrite node_at_new.
    cbn [mbind option_bind e3 members m_sort UnsafeExpr_of].
    rewrite (eval_mono (S (S n)) (S (S n)) h2 (h2 ++ [e3]) _ _ (le_n _) X3 V2).
    cbn [mbind option_bind].
    rewrite (eval_mono n (S (S n)) h (h2 ++ [e3]) _ vv); [| lia | | exact Ev].
    - cbn [mbind option_bind]. now rewrite den_EQL_same.
    - apply (extends_trans h h2); [|exact X3].
      now apply (extends_trans h h1). }
  assert (V4 : eval (S (S (S (S n)))) h4 (to_UnsafeTerm g) = Some den_false).
  { rewrite eval_S. simpl m_ptr. unfold h4. rewrite node_at_new.
    cbn [mbind option_bind e4 members m_sort UnsafeExpr_of].
    rewrite (eval_mono _ (S (S (S n))) h3 (h3 ++ [e4]) _ _ (le_n _) X4 V3).
    cbn [mbind option_bind]. now rewrite den_LNOT_true. }
  exists f, h3. split.
  { unfold select_store_formula, mbind, Build_bind. now rewrite B1, B2. }
  split.
  { unfold h3, h2, h1. rewrite !length_app. simpl. lia. }
  split.
  { intros m Hm. apply (eval_mono (S (S (S n))) m h3 h3);
      [lia|apply extends_refl|exact V3]. }
  exists g, h4. split; [exact B4|]. split.
  { unfold h4, h3, h2, h1. rewrite !length_app. simpl. lia. }
  split.
  - intros m Hm. apply (eval_mono (S (S (S (S n)))) m h4 h4);
      [lia|apply extends_refl|exact V4].
  - intros m Hm.
    pose proof (eval_unique _ _ _ _ _ _ Hm V4) as Heq.
    now apply true_not_false.
Qed.

(** In a closed heap every node has a value. *)
Lemma eval_total (h : Heap) :
  closed_heap h ->
  forall i, (i < List.length h)%nat ->
    is_Some (eval (S i) h {| m_ptr := Some i |}).
Proof.
  intros Hc i. induction i as [i IH] using lt_wf_ind. intros Hi.
  destruct (lookup_lt_is_Some_2 h i Hi) as [e He].
  assert (Hop : Forall (fun a => is_Some (eval i h a)) (operands e)).
  { eapply Forall_impl; [exact (Hc i e He)|].
    intros [p] (j & Hj & Hlt). simpl in Hj. subst p.
    destruct (IH j Hlt) as [x Hx]; [lia|].
    exists x. apply (eval_mono (S j) i h h); [lia|apply extends_refl|exact Hx]. }
  rewrite eval_S.
  replace (node_at h (m_ptr {| m_ptr := Some i |})) with (Some e)
    by (symmetry; exact He).
  cbn [mbind option_bind].
  unfold operands in Hop.
  destruct (members e); simpl;
    repeat match goal with
    | H : Forall _ (_ :: _) |- _ => apply Forall_cons in H as [[? ->] ?]
    end; simpl; eauto.
  - destruct (mapM_is_Some_2 (eval i h) m_args Hop) as [vs ->]. simpl. eauto.
  - destruct (mapM_is_Some_2 (eval i h) m_operands Hop) as [vs ->].
    simpl. eauto.
Qed.

Lemma Term_ok_eval (h : Heap) (T : Ty) (t : Term T) :
  closed_heap h -> Term_ok h t ->
  is_Some (eval (List.length h) h (to_UnsafeTerm t)).
Proof.
  intros Hc (e & He & _). destruct t as [[j|]]; [|discriminate].
  simpl in He. pose proof (lookup_lt_Some _ _ _ He) as Hj.
  destruct (eval_total h Hc j Hj) as [x Hx]. exists x.
  apply (eval_mono (S j) (List.length h) h h); [lia|apply extends_refl|].
  exact Hx.
Qed.

(** C5.  In every model of the standard array semantics and under every
    assignment to the constants, the term that
    [select(store(a, i, v), i) == v] builds has the value true: the formula
    is valid.  Its negation has the value false and in no model the value
    true: asserting it is unsatisfiable. *)
Theorem select_store_law (D R : Ty) (a : Term (Array D R)) (i : Term D)
    (v : Term R) (h : Heap) :
  closed_heap h -> Term_ok h a -> Term_ok h i -> Term_ok h v ->
  exists (f : Term Bool) (h' : Heap),
    select_store_formula a i v h = Ret (f, h') /\
    (forall m, (List.length h' <= m)%nat ->
       eval m h' (to_UnsafeTerm f) = Some den_true) /\
    exists (g : Term Bool) (h'' : Heap),
      SMT_BUILTIN_BOOL_UNARY_OP LNOT f h' = Ret (g, h'') /\
      (forall m, (List.length h'' <= m)%nat ->
         eval m h'' (to_UnsafeTerm g) = Some den_false) /\
      (forall m, eval m h'' (to_UnsafeTerm g) <> Some den_true).
Proof.
  intros Hc Ha Hi Hv.
  destruct (Term_ok_eval h _ a Hc Ha) as [va Ea].
  destruct (Term_ok_eval h _ i Hc Hi) as [vi Ei].
  destruct (Term_ok_eval h _ v Hc Hv) as [vv Ev].
  destruct (select_store_values D R a i v h (List.length h) va vi vv
              Ha Hi Hv Ea Ei Ev)
    as (f & h' & Hf & Hlen & Htrue & g & h'' & Hg & Hlen' & Hfalse & Hnot).
  exists f, h'. split; [exact Hf|]. split.
  { intros m Hm. apply Htrue. lia. }
  exists g, h''. split; [exact Hg|]. split; [|exact Hnot].
  intros m Hm. apply Hfalse. lia.
Qed.

End SemanticsTheorems.

(** ** More on sorts *)

Section MoreSortTheorems.

Context `{DM : DataModel}.
Context (st : Storage).

Lemma same_members_refl (s : Sort) : same_members s s.
Proof. repeat split. Qed.

Lemma same_members_sym (s o : Sort) : same_members s o -> same_members o s.
Proof. unfold same_members, same_classification. intuition congruence. Qed.

Lemma same_members_trans (s o r : Sort) :
  same_members s o -> same_members o r -> same_members s r.
Proof. unfold same_members, same_classification. intuition congruence. Qed.

(** The identity test is a shortcut: the answer is that of the comparison
    of the members. *)
Lemma Sort_eq_true_iff (this other : SortPtr) (s o : Sort) :
  sort_object st this = Some s -> sort_object st other = Some o ->
  (Sort_eq st this other = Some true <-> same_members s o).
Proof.
  intros Hs Ho. destruct (decide (this = other)) as [E|Hne].
  - subst other. assert (s = o) by congruence. subst o.
    split; [intros _; apply same_members_refl|intros _].
    unfold Sort_eq. rewrite Hs. simpl.
    destruct (decide (this = this)); [reflexivity|contradiction].
  - assert (Hb : exists b, Sort_eq st this other = Some b).
    { unfold Sort_eq. rewrite Hs, Ho. simpl. eauto. }
    destruct Hb as [b Hb]. rewrite Hb.
    rewrite <- (Sort_eq_distinct st this other s o Hs Ho Hne b Hb).
    split; [now intros [= ->]|now intros ->].
Qed.

Lemma Sort_eq_live (this other : SortPtr) (b : bool) :
  Sort_eq st this other = Some b ->
  exists s o, sort_object st this = Some s /\ sort_object st other = Some o.
Proof.
  unfold Sort_eq.
  destruct (sort_object st this) as [s|]; [|discriminate].
  destruct (sort_object st other) as [o|]; [|discriminate]. eauto.
Qed.

(** X1.  [operator==] is an equivalence on sorts: every sort equals itself,
    [s1 == s2] and [s2 == s1] give the same answer, and equality is
    transitive. *)
Theorem Sort_eq_equivalence :
  (forall p s, sort_object st p = Some s -> Sort_eq st p p = Some true) /\
  (forall p q, Sort_eq st p q = Sort_eq st q p) /\
  (forall p q r,
     Sort_eq st p q = Some true -> Sort_eq st q r = Some true ->
     Sort_eq st p r = Some true).
Proof.
  split; [|split].
  - intros p s Hs. apply (Sort_eq_true_iff p p s s Hs Hs).
    apply same_members_refl.
  - intros p q.
    destruct (sort_object st p) as [s|] eqn:Hs;
      destruct (sort_object st q) as [o|] eqn:Ho;
      try (unfold Sort_eq; rewrite Hs, Ho; reflexivity).
    assert (Hpq : exists b, Sort_eq st p q = Some b).
    { unfold Sort_eq. rewrite Hs, Ho. simpl. eauto. }
    assert (Hqp : exists b, Sort_eq st q p = Some b).
    { unfold Sort_eq. rewrite Hs, Ho. simpl. eauto. }
    destruct Hpq as [b Hb], Hqp as [b' Hb'].
    pose proof (Sort_eq_true_iff p q s o Hs Ho) as H1.
    pose proof (Sort_eq_true_iff q p o s Ho Hs) as H2.
    rewrite Hb in *. rewrite Hb' in *. f_equal.
    destruct b, b'; try reflexivity.
    + destruct H2 as [_ H2]. destruct H1 as [H1 _].
      specialize (H2 (same_members_sym _ _ (H1 eq_refl))). discriminate.
    + destruct H1 as [_ H1]. destruct H2 as [H2 _].
      specialize (H1 (same_members_sym _ _ (H2 eq_refl))). discriminate.
  - intros p q r Hpq Hqr.
    destruct (Sort_eq_live p q true Hpq) as (s & o & Hs & Ho).
    destruct (Sort_eq_live q r true Hqr) as (o' & t & Ho' & Ht).
    assert (o' = o) by congruence. subst o'.
    apply (Sort_eq_true_iff p r s t Hs Ht).
    apply (same_members_trans s o t).
    + now apply (Sort_eq_true_iff p q s o Hs Ho).
    + now apply (Sort_eq_true_iff q r o t Ho Ht).
Qed.

Lemma Sort_move_id (s : Sort) : Sort_move s = s.
Proof. now destruct s. Qed.

(** X2.  A sort that is move-constructed from another one compares equal to
    it, in both directions, wherever the two objects live; and the answer
    of [operator==] depends on the members of the two sorts only. *)
Theorem Sort_move_eq (this other : SortPtr) (s : Sort) :
  sort_object st this = Some s ->
  sort_object st other = Some (Sort_move s) ->
  Sort_eq st this other = Some true /\
  Sort_eq st other this = Some true /\
  (forall this' other' o,
     sort_object st this' = Some s -> sort_object st other' = Some o ->
     sort_object st other = Some o ->
     Sort_eq st this' other' = Some true).
Proof.
  intros Hs Ho.
  assert (H : Sort_eq st this other = Some true).
  { apply (Sort_eq_true_iff this other s (Sort_move s) Hs Ho).
    rewrite Sort_move_id. apply same_members_refl. }
  split; [exact H|]. split.
  - apply (Sort_eq_true_iff other this (Sort_move s) s Ho Hs).
    rewrite Sort_move_id. apply same_members_refl.
  - intros this' other' o Hs' Ho' Ho2.
    apply (Sort_eq_true_iff this' other' s o Hs' Ho').
    assert (o = Sort_move s) by congruence. subst o.
    rewrite Sort_move_id. apply same_members_refl.
Qed.

Lemma Array_nested_sorts (D R : Ty) :
  nested_sorts st (Math_s_sort_value (Array D R)) = Some [sort D; sort R].
Proof. reflexivity. Qed.

(** X3.  The registry sort of [Array<Domain, Range>] is an array sort with
    exactly two nested sorts, the sort of [Domain] at index 0 and the sort
    of [Range] at index 1; every other index is out of range. *)
Theorem Array_sort_spec (D R : Ty) :
  exists s : Sort,
    sort_object st (sort (Array D R)) = Some s /\
    is_array s = true /\ is_func s = false /\
    sorts_size s = 2 /\
    Sort_sorts st s 0 = Ret (sort D) /\
    Sort_sorts st s 1 = Ret (sort R) /\
    (forall i, 2 <= i ->
       Sort_sorts st s i = Throw (out_of_range "check_sorts_index fails")).
Proof.
  exists (Math_s_sort_value (Array D R)).
  split; [reflexivity|]. split; [reflexivity|]. split; [reflexivity|].
  split; [reflexivity|].
  split; [|split].
  - destruct (Sort_sorts_nested st _ _ 0 (Array_nested_sorts D R))
      as (p & Hp & Hr); [simpl; lia|]. simpl in Hp. congruence.
  - destruct (Sort_sorts_nested st _ _ 1 (Array_nested_sorts D R))
      as (p & Hp & Hr); [simpl; lia|]. simpl in Hp. congruence.
  - intros i Hi. apply Sort_sorts_out_of_range. simpl. lia.
Qed.

Lemma Func_cons_nested_sorts (T0 : Ty) (U : list Ty) :
  nested_sorts st (Math_s_sort_value (Func (T0 :: U))) =
  Some (map sort (T0 :: U)).
Proof.
  destruct (exists_last (l := T0 :: U)) as (A & R & E); [discriminate|].
  rewrite E, Func_nested_sorts, map_app. reflexivity.
Qed.

Lemma registry_sort_flags (T : Ty) :
  exists s : Sort,
    sort_object st (sort T) = Some s /\
    m_is_bool s = is_same T Bool /\
    m_is_int s = is_same T Int /\
    m_is_real s = is_same T Real /\
    m_is_bv s = (match T with Bv _ => true | _ => false end).
Proof.
  destruct T as [ | | | U | D R | [|T0 Ts]];
    (eexists; split; [reflexivity|]); repeat split.
Qed.

(** X4.  Every sort of the registry has exactly one classification, which
    follows the class of terms ([Func<>], the degenerate function class of
    no type, has none); no registry sort is a tuple sort; its nested sorts
    are registry sorts, as many as [sorts_size] says; and the class is
    primitive, so that it has literals, exactly when the sort has no
    nested sort and the class is not [Func<>], whose sort has no nested
    sort either. *)
Theorem registry_sort_spec (T : Ty) :
  exists s : Sort,
    sort_object st (sort T) = Some s /\
    classification s = (if decide (T = Func []) then [] else [true]) /\
    is_bool s = is_same T Bool /\
    is_int s = is_same T Int /\
    is_real s = is_same T Real /\
    is_bv s = (match T with Bv _ => true | _ => false end) /\
    is_array s = (match T with Array _ _ => true | _ => false end) /\
    is_func s = (match T with Func (_ :: _) => true | _ => false end) /\
    m_is_tuple s = false /\
    (exists Ts, nested_sorts st s = Some (map sort Ts) /\
                N.of_nat (List.length Ts) = sorts_size s) /\
    (IsPrimitive T = true <-> sorts_size s = 0 /\ T <> Func []).
Proof.
  destruct T as [ | | | U | D R | [|T0 Ts]];
    (eexists; split; [reflexivity|]);
    (split; [reflexivity|]);
    do 7 (split; [reflexivity|]).
  - split; [exists []; split; reflexivity|]. split; [now split|reflexivity].
  - split; [exists []; split; reflexivity|]. split; [now split|reflexivity].
  - split; [exists []; split; reflexivity|]. split; [now split|reflexivity].
  - split; [exists []; split; reflexivity|]. split; [now split|reflexivity].
  - split; [exists [D; R]; split; reflexivity|].
    split; [discriminate|intros [H _]; discriminate].
  - split; [exists []; split; reflexivity|].
    split; [discriminate|intros [_ H]; contradiction].
  - split.
    + exists (T0 :: Ts). split; [apply Func_cons_nested_sorts|].
      unfold sorts_size. simpl. lia.
    + split; [discriminate|]. intros [H _].
      unfold sorts_size in H. simpl in H. lia.
Qed.

Lemma Ty_ind_nested (P : Ty -> Prop) :
  P Bool -> P Int -> P Real -> (forall U, P (Bv U)) ->
  (forall D R, P D -> P R -> P (Array D R)) ->
  (forall Ts, Forall P Ts -> P (Func Ts)) ->
  forall T, P T.
Proof.
  intros HB HI HR HBv HA HF. fix IH 1. intros [ | | | U | D R | Ts].
  - exact HB.
  - exact HI.
  - exact HR.
  - apply HBv.
  - apply HA; apply IH.
  - apply HF. induction Ts as [|T Ts IHTs]; constructor;
      [apply IH|exact IHTs].
Qed.

Lemma structurally_equal_primitive (p : SortPtr) (s : Sort) :
  sort_object st p = Some s -> m_sorts_size s = 0 ->
  structurally_equal st p p.
Proof.
  intros Hs Hz.
  apply (structurally_equal_intro st p p s s [] []);
    try assumption; try apply same_classification_refl;
    try (unfold nested_sorts; now rewrite Hz).
  constructor.
Qed.

Lemma Forall2_map_refl (R : SortPtr -> SortPtr -> Prop) (Ts : list Ty) :
  Forall (fun T => R (sort T) (sort T)) Ts ->
  Forall2 R (map sort Ts) (map sort Ts).
Proof. induction 1; constructor; assumption. Qed.

Lemma structurally_equal_sort (T : Ty) :
  structurally_equal st (sort T) (sort T).
Proof.
  induction T as [ | | | U | D R IHD IHR | Ts IH] using Ty_ind_nested;
    try (eapply structurally_equal_primitive; reflexivity).
  - apply (structurally_equal_intro st (sort (Array D R)) (sort (Array D R))
             (Math_s_sort_value (Array D R)) (Math_s_sort_value (Array D R))
             [sort D; sort R] [sort D; sort R] eq_refl eq_refl);
      [apply same_classification_refl|reflexivity|reflexivity|].
    repeat constructor; assumption.
  - destruct Ts as [|T0 Ts].
    + eapply structurally_equal_primitive; reflexivity.
    + apply (structurally_equal_intro st (sort (Func (T0 :: Ts)))
               (sort (Func (T0 :: Ts)))
               (Math_s_sort_value (Func (T0 :: Ts)))
               (Math_s_sort_value (Func (T0 :: Ts)))
               (map sort (T0 :: Ts)) (map sort (T0 :: Ts)) eq_refl eq_refl);
        [apply same_classification_refl|apply Func_cons_nested_sorts
        |apply Func_cons_nested_sorts|].
      now apply Forall2_map_refl.
Qed.

Lemma structurally_equal_static (p : SortPtr) :
  static_sort p -> structurally_equal st p p.
Proof.
  destruct p as [U|T|a]; [intros _|intros _|contradiction].
  - apply (structurally_equal_sort (Bv U)).
  - destruct T; try apply (structurally_equal_sort Bool);
      try apply (structurally_equal_sort Int);
      try apply (structurally_equal_sort Real).
    + eapply structurally_equal_primitive; reflexivity.
    + apply (structurally_equal_sort (Array T1 T2)).
    + apply (structurally_equal_sort (Func Ts)).
Qed.

Lemma static_nested_sorts (p : SortPtr) (s : Sort) :
  static_sort p -> sort_object st p = Some s ->
  exists Ts, nested_sorts st s = Some (map sort Ts).
Proof.
  destruct p as [U|T|a]; [intros _ [= <-]|intros _ [= <-]|contradiction].
  - now exists [].
  - destruct T as [ | | | U | D R | [|T0 Ts]];
      try (now exists []).
    + now exists [D; R].
    + exists (T0 :: Ts). apply Func_cons_nested_sorts.
Qed.

(** X5.  On the sorts of the registry [operator==] is sound for structural
    equality: two sorts that compare equal agree on all classification
    fields and have nested-sort sequences that are structurally equal
    element by element. *)
Theorem Sort_eq_sound (p q : SortPtr) :
  static_sort p -> static_sort q ->
  Sort_eq st p q = Some true ->
  structurally_equal st p q.
Proof.
  intros Hp Hq Heq.
  destruct (decide (p = q)) as [<-|Hne];
    [now apply structurally_equal_static|].
  destruct (Sort_eq_live p q true Heq) as (s & o & Hs & Ho).
  destruct (Sort_eq_true_iff p q s o Hs Ho) as [H _].
  destruct (H Heq) as (Hc & Hm & Hn).
  destruct (static_nested_sorts p s Hp Hs) as (Ts & HTs).
  assert (HTo : nested_sorts st o = Some (map sort Ts)).
  { rewrite <- HTs. unfold nested_sorts. now rewrite Hm, Hn. }
  apply (structurally_equal_intro st p q s o _ _ Hs Ho Hc HTs HTo).
  apply Forall2_map_refl. apply Forall_forall. intros T _.
  apply structurally_equal_sort.
Qed.

(** X6.  Two bit-vector sorts of the registry compare equal exactly when
    their integral types have the same signedness and the same size; the
    sorts of [Bool], [Int] and [Real] compare equal to themselves only; and
    the sort of a primitive class never compares equal to the sort of an
    array or function class. *)
Theorem primitive_Sort_eq (T U : Ty) :
  IsPrimitive T = true ->
  (forall V W : Integral, T = Bv V -> U = Bv W ->
     (Sort_eq st (sort T) (sort U) = Some true <->
      is_signed V = is_signed W /\ sizeof V = sizeof W)) /\
  (IsPrimitive U = true ->
   (forall V W, ~ (T = Bv V /\ U = Bv W)) ->
   (Sort_eq st (sort T) (sort U) = Some true <-> T = U)) /\
  (IsPrimitive U = false -> Sort_eq st (sort T) (sort U) = Some false).
Proof.
  intros HT. split; [|split].
  - intros V W -> ->.
    rewrite (Sort_eq_true_iff (sort (Bv V)) (sort (Bv W))
               (Bv_s_sort_value V) (Bv_s_sort_value W) eq_refl eq_refl).
    unfold same_members, same_classification. simpl.
    split; [intros ((_ & _ & _ & _ & Hs & Hn & _) & _); split; [exact Hs|lia]|].
    intros [Hs Hn]. rewrite Hs, Hn. repeat split.
  - intros HU Hbv.
    destruct T as [ | | | V | | ]; try discriminate;
      destruct U as [ | | | W | | ]; try discriminate;
      try (exfalso; now apply (Hbv V W));
      (split;
       [intros H; first [reflexivity|vm_compute in H; discriminate]
       |intros E; first [discriminate E|reflexivity]]).
  - intros HU.
    assert (Hne : sort T <> sort U).
    { intros E. destruct T, U; try discriminate; simpl in E; congruence. }
    destruct (registry_sort_flags T) as (s & Hs & Hb & Hi & Hr & Hv).
    destruct (registry_sort_flags U) as (o & Ho & Hb' & Hi' & Hr' & Hv').
    assert (Hex : exists b, Sort_eq st (sort T) (sort U) = Some b).
    { unfold Sort_eq. rewrite Hs, Ho. simpl. eauto. }
    destruct Hex as [[] Hb0]; [|exact Hb0]. exfalso.
    destruct (Sort_eq_true_iff _ _ s o Hs Ho) as [H _].
    destruct (H Hb0) as ((E1 & E2 & E3 & E4 & _) & _).
    rewrite Hb, Hb' in E1. rewrite Hi, Hi' in E2. rewrite Hr, Hr' in E3.
    rewrite Hv, Hv' in E4.
    destruct T; try discriminate; destruct U; try discriminate;
      vm_compute in E1, E2, E3, E4; discriminate.
Qed.

End MoreSortTheorems.

(** ** Declarations *)

Lemma sort_inj (T U : Ty) : sort T = sort U -> T = U.
Proof. destruct T, U; simpl; congruence. Qed.

Section DeclTheorems.

Context `{DM : DataModel}.
Context (st : Storage).

(** X7.  Two declarations compare equal exactly when they have the same
    symbol and the same sort object; their sorts then compare equal.  Two
    typed declarations compare equal exactly when they have the same symbol
    and the same class of terms. *)
Theorem UnsafeDecl_eq_spec (this other : N) (d o : UnsafeDecl) :
  (this = other -> d = o) ->
  (UnsafeDecl_eq this other d o = true <->
     m_symbol d = m_symbol o /\ m_decl_sort d = m_decl_sort o) /\
  (UnsafeDecl_eq this other d o = true ->
   forall s, sort_object st (m_decl_sort d) = Some s ->
     Sort_eq st (m_decl_sort d) (m_decl_sort o) = Some true) /\
  (forall (T U : Ty) (td : Decl T) (to : Decl U),
     d = Decl_base td -> o = Decl_base to ->
     (UnsafeDecl_eq this other d o = true <->
        Decl_symbol td = Decl_symbol to /\ T = U)).
Proof.
  intros Hobj.
  assert (H : UnsafeDecl_eq this other d o = true <->
              m_symbol d = m_symbol o /\ m_decl_sort d = m_decl_sort o).
  { unfold UnsafeDecl_eq. destruct (decide (this = other)) as [E|_].
    - rewrite (Hobj E). now split.
    - rewrite andb_true_iff, !bool_decide_eq_true. reflexivity. }
  split; [exact H|]. split.
  - intros Heq s Hs. apply H in Heq as [_ <-].
    apply (Sort_eq_true_iff st _ _ s s Hs Hs). apply same_members_refl.
  - intros T U td to -> ->. rewrite H. simpl.
    split; intros [Hsym Hsort]; (split; [exact Hsym|]).
    + now apply sort_inj.
    + now rewrite Hsort.
Qed.

End DeclTheorems.

(** ** Handles *)

(** X8.  On a null handle [ref], [expr_kind], [sort] and [encode] fail their
    assertion; on any other handle they return the node and the kind and
    the sort that the node carries, and [encode] what the encoding of the
    node returns.  A handle is null exactly when its [addr()] is 0. *)
Theorem UnsafeTerm_accessors (S : Type) (solver : Solver S) (state : S)
    (h : Heap) (t : UnsafeTerm) :
  live h t ->
  (UnsafeTerm_is_null t = true <-> UnsafeTerm_addr t = 0) /\
  (UnsafeTerm_is_null t = true ->
     UnsafeTerm_ref h t = Abort /\ UnsafeTerm_expr_kind h t = Abort /\
     UnsafeTerm_sort h t = Abort /\
     UnsafeTerm_encode h solver t state = Abort) /\
  (UnsafeTerm_is_null t = false ->
     exists e, points_to h t e /\
       UnsafeTerm_ref h t = Ret e /\
       UnsafeTerm_expr_kind h t = Ret (m_expr_kind e) /\
       UnsafeTerm_sort h t = Ret (m_sort e) /\
       UnsafeTerm_encode h solver t state
         = Ret (UnsafeExpr_encode solver e state)).
Proof.
  intros Hlive. split; [|split].
  - unfold UnsafeTerm_is_null, UnsafeTerm_addr, cell_address.
    destruct (m_ptr t); split; intros H; try reflexivity;
      try discriminate; lia.
  - intros Hn.
    unfold UnsafeTerm_ref, UnsafeTerm_expr_kind, UnsafeTerm_sort,
      UnsafeTerm_encode. rewrite Hn. repeat split.
  - intros Hn. destruct Hlive as [Hl|[e He]]; [congruence|].
    exists e. split; [exact He|].
    unfold UnsafeTerm_ref, UnsafeTerm_expr_kind, UnsafeTerm_sort,
      UnsafeTerm_encode. rewrite Hn. unfold points_to in He.
    rewrite He. repeat split.
Qed.

Lemma UnsafeTerm_to_class (T U : Ty) (h : Heap) (t : Term T) :
  Term_is_null t = true \/ Term_ok h t ->
  UnsafeTerm_to U h (to_UnsafeTerm t) =
  Ret (if decide (U = T) then {| Term_ptr := Term_ptr t |} else Term_null U).
Proof.
  intros Ht. destruct t as [[i|]].
  - destruct Ht as [Hn|(e & He & HT)]; [discriminate|].
    simpl in He. unfold UnsafeTerm_to, dynamic_pointer_cast. simpl.
    rewrite He. simpl. rewrite HT.
    destruct (decide (Some T = Some U)) as [E|E], (decide (U = T));
      try reflexivity; congruence.
  - simpl. unfold UnsafeTerm_to. simpl. now destruct (decide (U = T)).
Qed.

Lemma UnsafeTerm_to_same (T : Ty) (h : Heap) (t : Term T) :
  Term_is_null t = true \/ Term_ok h t ->
  UnsafeTerm_to T h (to_UnsafeTerm t) = Ret t.
Proof.
  intros Ht. rewrite (UnsafeTerm_to_class T T h t Ht).
  destruct (decide (T = T)); [now destruct t|contradiction].
Qed.

(** X9.  A typed term converted to an untyped term and back is the term it
    was; converted to any other class it is a null term. *)
Theorem typed_untyped_round_trip (T : Ty) (h : Heap) (t : Term T) :
  Term_is_null t = true \/ Term_ok h t ->
  UnsafeTerm_to T h (to_UnsafeTerm t) = Ret t /\
  (forall U, U <> T ->
     UnsafeTerm_to U h (to_UnsafeTerm t) = Ret (Term_null U)).
Proof.
  intros Ht. split; [now apply UnsafeTerm_to_same|].
  intros U HU. rewrite (UnsafeTerm_to_class T U h t Ht).
  destruct (decide (U = T)); [contradiction|reflexivity].
Qed.

Section AllocationTheorems.

Context `{DM : DataModel}.
Context (st : Storage).

Lemma allocate_shape (a : Allocation) (h : Heap) (e : UnsafeExpr) :
  allocate st a h = Ret e ->
  Expr_base e = result_class a /\
  m_expr_kind e = kind_of (members e) /\
  operands e = allocation_operands a /\
  (forall U, result_class a = Some U -> m_sort e = sort U).
Proof.
  destruct a as [c| | | | | | ]; simpl.
  - destruct c; unfold_ctors; simpl; intros H;
      repeat (break_match; simplify_eq);
      (repeat split; try reflexivity; simpl; intros U' [= <-]; reflexivity).
  - intros [= <-]. repeat split. discriminate.
  - intros [= <-]. repeat split. simpl. now intros U' [= <-].
  - intros [= <-]. repeat split. discriminate.
  - intros [= <-]. repeat split. simpl. now intros U' [= <-].
  - unfold UnsafeFuncAppExpr_ctor, mbind, Outcome_bind. intros H.
    repeat (break_match; simplify_eq). repeat split. discriminate.
  - intros [= <-]. repeat split. simpl. now intros U' [= <-].
Qed.

(** X10.  The node that a constructor builds converts to a typed term of
    class [T] exactly when the constructor is the typed one of a node of
    class [T], and it then carries the sort of [T].  A node built by an
    [Unsafe...Expr] constructor converts to a null term of every class,
    whatever its sort. *)
Theorem allocation_conversion (a : Allocation) (h : Heap) (e : UnsafeExpr) :
  allocate st a h = Ret e ->
  let u := {| m_ptr := Some (List.length h) |} in
  points_to (h ++ [e]) u e /\
  (forall T,
     UnsafeTerm_to T (h ++ [e]) u =
     Ret (if decide (result_class a = Some T)
          then {| Term_ptr := Some (List.length h) |}
          else Term_null T)) /\
  (forall T, result_class a = Some T -> m_sort e = sort T) /\
  (result_class a = None ->
   forall T, UnsafeTerm_to T (h ++ [e]) u = Ret (Term_null T)).
Proof.
  intros Ha u. destruct (allocate_shape a h e Ha) as (Hb & _ & _ & Hs).
  assert (Hu : points_to (h ++ [e]) u e) by apply node_at_new.
  assert (Hto : forall T,
            UnsafeTerm_to T (h ++ [e]) u =
            Ret (if decide (result_class a = Some T)
                 then {| Term_ptr := Some (List.length h) |}
                 else Term_null T)).
  { intros T. unfold UnsafeTerm_to, dynamic_pointer_cast. simpl.
    unfold points_to, node_at in Hu. simpl in Hu. rewrite Hu. simpl.
    rewrite Hb. now destruct (decide (result_class a = Some T)). }
  split; [exact Hu|]. split; [exact Hto|]. split; [exact Hs|].
  intros Hnone T. rewrite Hto, Hnone.
  destruct (decide (None = Some T)); [discriminate|reflexivity].
Qed.

(** X11.  Every constructor keeps the heap well tagged and well sorted: the
    node carries the kind of its class, and a node with an [Expr<T>] base
    carries the sort of [T]. *)
Theorem allocation_invariants (a : Allocation) (h : Heap) (e : UnsafeExpr) :
  tagged_heap h -> typed_heap h ->
  allocate st a h = Ret e ->
  tagged_heap (h ++ [e]) /\ typed_heap (h ++ [e]).
Proof.
  intros Htag Hty Ha.
  destruct (allocate_shape a h e Ha) as (Hb & Hk & _ & Hs). split.
  - intros i e' Hi. apply lookup_app_Some in Hi as [Hi|[_ Hi]].
    + now apply (Htag i).
    + apply list_lookup_singleton_Some in Hi as [_ <-]. exact Hk.
  - apply typed_heap_new; [exact Hty|]. intros T HT. apply Hs. congruence.
Qed.

(** X12.  Construction is bottom-up: a node built over handles on nodes of
    the heap holds exactly these handles, and the heap stays closed. *)
Theorem allocation_closed (a : Allocation) (h : Heap) (e : UnsafeExpr) :
  closed_heap h ->
  Forall (fun t => exists e', points_to h t e') (allocation_operands a) ->
  allocate st a h = Ret e ->
  operands e = allocation_operands a /\
  closed_heap (h ++ [e]) /\
  extends h (h ++ [e]).
Proof.
  intros Hc Hops Ha.
  destruct (allocate_shape a h e Ha) as (_ & _ & Ho & _).
  split; [exact Ho|]. split; [|apply extends_new].
  apply closed_heap_new; [exact Hc|]. rewrite Ho.
  eapply Forall_impl; [exact Hops|].
  intros [[j|]] (e' & He'); [|discriminate].
  exists j. split; [reflexivity|]. now apply lookup_lt_Some in He'.
Qed.

End AllocationTheorems.

Lemma closed_child (h : Heap) (i j : nat) :
  closed_heap h -> child h i j -> (j < i)%nat.
Proof.
  intros Hc (e & He & Hin).
  pose proof (Hc i e He) as Hall. rewrite Forall_forall in Hall.
  destruct (Hall _ Hin) as (j' & Hj & Hlt). simpl in Hj. congruence.
Qed.

(** X13.  In a closed heap the terms form a DAG: a proper subterm of a node
    is an older node, so that no term is a subterm of itself. *)
Theorem subterm_acyclic (h : Heap) :
  closed_heap h ->
  (forall i j, subterm h i j -> (j < i)%nat) /\
  (forall i, ~ subterm h i i).
Proof.
  intros Hc.
  assert (H : forall i j, subterm h i j -> (j < i)%nat).
  { intros i j Hs. induction Hs as [i j Hij|i j k Hij _ IH].
    - now apply (closed_child h).
    - pose proof (closed_child h i j Hc Hij). lia. }
  split; [exact H|]. intros i Hi. apply H in Hi. lia.
Qed.

(** ** Vectors of terms *)

Lemma vector_at_spec {A : Type} (v : list A) (pos : N) :
  (N.of_nat (List.length v) <= pos ->
     vector_at v pos = Throw (out_of_range "vector::at")) /\
  (forall a, v !! N.to_nat pos = Some a -> vector_at v pos = Ret a).
Proof.
  unfold vector_at. split.
  - intros Hge. rewrite lookup_ge_None_2 by lia. reflexivity.
  - now intros a ->.
Qed.

(** X14.  [Terms<T>]: after the terms [ts] are pushed, [size()] is their
    number, [at(i)] is the [i]-th term for every [i] below it, and [at]
    throws [std::out_of_range] for every other position. *)
Theorem Terms_at_spec (T : Ty) (h : Heap) (ts : list (Term T)) :
  Forall (fun t => Term_is_null t = true \/ Term_ok h t) ts ->
  Terms_size (Terms_of ts) = N.of_nat (List.length ts) /\
  (forall i t, ts !! i = Some t ->
     Terms_at h (Terms_of ts) (N.of_nat i) = Ret t) /\
  (forall pos, N.of_nat (List.length ts) <= pos ->
     exists what,
       Terms_at h (Terms_of ts) pos = Throw (out_of_range what)).
Proof.
  intros Hts. unfold Terms_size, Terms_at. rewrite m_terms_Terms_of.
  rewrite length_map. split; [reflexivity|]. split.
  - intros i t Hi.
    destruct (vector_at_spec (map to_UnsafeTerm ts) (N.of_nat i)) as [_ Hat].
    rewrite (Hat (to_UnsafeTerm t)).
    + cbn [mbind Outcome_bind].
      apply UnsafeTerm_to_same.
      rewrite Forall_forall in Hts. apply Hts.
      now apply list_elem_of_lookup_2 in Hi.
    + rewrite Nat2N.id, list_lookup_fmap, Hi. reflexivity.
  - intros pos Hpos. eexists.
    destruct (vector_at_spec (map to_UnsafeTerm ts) pos) as [Hout _].
    rewrite Hout by (rewrite length_map; exact Hpos). reflexivity.
Qed.

(** X15.  The node that [distinct] builds over the terms [ts] gives them
    back: [size()] is their number, [operand(i)] is the [i]-th term, and
    [operand] throws [std::out_of_range] for every other position. *)
Theorem distinct_operands (T : Ty) (h : Heap) (ts : list (Term T)) :
  ts <> [] ->
  Forall (fun t => Term_ok h t) ts ->
  exists (t : Term Bool) (e : UnsafeExpr),
    distinct (Terms_of ts) h = Ret (t, h ++ [e]) /\
    NaryExpr_size e = Ret (N.of_nat (List.length ts)) /\
    (forall i x, ts !! i = Some x ->
       NaryExpr_operand T (h ++ [e]) e (N.of_nat i) = Ret x) /\
    (forall pos, N.of_nat (List.length ts) <= pos ->
       exists what,
         NaryExpr_operand T (h ++ [e]) e pos = Throw (out_of_range what)).
Proof.
  intros Hne Hts. do 2 eexists. split.
  { apply distinct_node. rewrite m_terms_Terms_of. now destruct ts. }
  rewrite m_terms_Terms_of.
  unfold NaryExpr_size, NaryExpr_operand, UnsafeNaryExpr_operands.
  cbn [members UnsafeExpr_of mbind Outcome_bind].
  rewrite length_map. split; [reflexivity|]. split.
  - intros i x Hi.
    destruct (vector_at_spec (map to_UnsafeTerm ts) (N.of_nat i)) as [_ Hat].
    rewrite (Hat (to_UnsafeTerm x)).
    + cbn [mbind Outcome_bind]. apply UnsafeTerm_to_same. right.
      eapply Term_ok_extends; [apply extends_new|].
      rewrite Forall_forall in Hts. apply Hts.
      now apply list_elem_of_lookup_2 in Hi.
    + rewrite Nat2N.id, list_lookup_fmap, Hi. reflexivity.
  - intros pos Hpos. eexists.
    destruct (vector_at_spec (map to_UnsafeTerm ts) pos) as [Hout _].
    rewrite Hout by (rewrite length_map; exact Hpos). reflexivity.
Qed.

(** ** More operators *)

Lemma UnaryExpr_ctor_Ret (opcode : Opcode) (T U : Ty) (x : Term T)
    (h : Heap) :
  Term_ok h x ->
  UnaryExpr_ctor opcode T U x h =
  Ret (UnsafeExpr_of UNARY_EXPR_KIND (sort U)
         (UnsafeUnaryExpr opcode (to_UnsafeTerm x)) (Some U)).
Proof.
  intros Hx. unfold UnaryExpr_ctor.
  rewrite UnsafeUnaryExpr_init_Ret; [reflexivity|].
  now apply (Term_ok_not_null h).
Qed.




(** X17.  [&&] and [||] on two [Bool] terms give a new binary node of
    sort [Bool] with the opcode [LAND] or [LOR] and the two terms, in
    order, as operands.  On untyped terms the node takes the sort of the
    left operand, whatever that sort is. *)
Theorem logical_operator_sorts (h : Heap) :
  typed_heap h ->
  (forall (op : LogicOp) (l r : Term Bool),
     Term_ok h l -> Term_ok h r ->
     exists (t : Term Bool) (e : UnsafeExpr),
       operator_logic op l r h = Ret (t, h ++ [e]) /\
       Term_ptr t = Some (List.length h) /\
       e = binary_node (sort Bool) (LogicOp_opcode op) (to_UnsafeTerm l)
             (to_UnsafeTerm r) (Some Bool)) /\
  (forall (op : LogicOp) (l r : UnsafeTerm) (el er : UnsafeExpr),
     points_to h l el -> points_to h r er ->
     exists (t : UnsafeTerm) (e : UnsafeExpr),
       unsafe_operator_logic op l r h = Ret (t, h ++ [e]) /\
       m_ptr t = Some (List.length h) /\
       e = binary_node (m_sort el) (LogicOp_opcode op) l r None).
Proof.
  intros Hh. split.
  - intros op l r Hl Hr. unfold operator_logic, SMT_BUILTIN_BOOL_BINARY_OP.
    do 2 eexists. split;
      [apply Term_new_Ret, BinaryExpr_ctor_Ret; eassumption|].
    split; reflexivity.
  - intros op l r el er Hl Hr. unfold unsafe_operator_logic.
    rewrite (SMT_UNSAFE_BINARY_OP_unfold _ l r h el Hl).
    do 2 eexists. split.
    { apply UnsafeTerm_new_Ret, UnsafeBinaryExpr_ctor_Ret;
        [now apply (points_to_not_null h l el)
        |now apply (points_to_not_null h r er)]. }
    split; reflexivity.
Qed.

Lemma literal_Ret (T : Ty) (U : Integral) (z : Z) (h : Heap) :
  literal T U z h =
  Ret ({| Term_ptr := Some (List.length h) |},
       h ++ [literal_node (sort T) U z (Some T)]).
Proof. reflexivity. Qed.

Lemma unsafe_literal_Ret (s : SortPtr) (U : Integral) (z : Z) (h : Heap) :
  unsafe_literal s U z h =
  Ret ({| m_ptr := Some (List.length h) |},
       h ++ [literal_node s U z None]).
Proof. reflexivity. Qed.

Lemma typed_binary_after_literal (opcode : Opcode) (T W : Ty) (h : Heap)
    (lit : UnsafeExpr) (l r : Term T) :
  Term_ok (h ++ [lit]) l -> Term_ok (h ++ [lit]) r ->
  Term_new W (BinaryExpr_ctor opcode T W l r) (h ++ [lit]) =
  Ret ({| Term_ptr := Some (S (List.length h)) |},
       h ++ [lit;
             binary_node (sort W) opcode (to_UnsafeTerm l) (to_UnsafeTerm r)
               (Some W)]).
Proof.
  intros Hl Hr.
  rewrite (Term_new_Ret W _ (h ++ [lit]) _
             (BinaryExpr_ctor_Ret opcode T W l r (h ++ [lit]) Hl Hr)).
  rewrite length_app, <- app_assoc. simpl.
  now rewrite Nat.add_1_r.
Qed.

(** X18.  A typed operator with a scalar operand promotes the scalar to a
    literal of the class of the term operand and then builds the operator
    node: two nodes are allocated, the literal, which carries the scalar
    and the sort of the class, and the binary node, which holds the term
    and the literal on the sides where the term and the scalar stood.  The
    binary node has the sort of the class for an arithmetic or bitwise
    operator and the sort [Bool] for a relational one. *)
Theorem scalar_operand_promotion (opcode : Opcode) (T : Ty) (x : Term T)
    (U : Integral) (z : Z) (h : Heap) :
  IsPrimitive T = true ->
  Term_ok h x ->
  let lit := literal_node (sort T) U z (Some T) in
  let lt : Term T := {| Term_ptr := Some (List.length h) |} in
  let t W : Term W := {| Term_ptr := Some (S (List.length h)) |} in
  SMT_BUILTIN_BINARY_OP_rscalar opcode x U z h =
    Ret (t T, h ++ [lit; binary_node (sort T) opcode (to_UnsafeTerm x)
                           (to_UnsafeTerm lt) (Some T)]) /\
  SMT_BUILTIN_BINARY_OP_lscalar opcode U z x h =
    Ret (t T, h ++ [lit; binary_node (sort T) opcode (to_UnsafeTerm lt)
                           (to_UnsafeTerm x) (Some T)]) /\
  SMT_BUILTIN_BINARY_REL_rscalar opcode x U z h =
    Ret (t Bool, h ++ [lit; binary_node (sort Bool) opcode (to_UnsafeTerm x)
                              (to_UnsafeTerm lt) (Some Bool)]) /\
  SMT_BUILTIN_BINARY_REL_lscalar opcode U z x h =
    Ret (t Bool, h ++ [lit; binary_node (sort Bool) opcode (to_UnsafeTerm lt)
                              (to_UnsafeTerm x) (Some Bool)]) /\
  (forall (V : Integral) (b : Term (Bv V)), Term_ok h b ->
     let blit := literal_node (sort (Bv V)) V z (Some (Bv V)) in
     let bl : Term (Bv V) := {| Term_ptr := Some (List.length h) |} in
     SMT_BUILTIN_BV_BINARY_OP_rscalar opcode b z h =
       Ret (t (Bv V),
            h ++ [blit; binary_node (sort (Bv V)) opcode (to_UnsafeTerm b)
                          (to_UnsafeTerm bl) (Some (Bv V))]) /\
     SMT_BUILTIN_BV_BINARY_OP_lscalar opcode z b h =
       Ret (t (Bv V),
            h ++ [blit; binary_node (sort (Bv V)) opcode (to_UnsafeTerm bl)
                          (to_UnsafeTerm b) (Some (Bv V))])) /\
  (forall (c : Term Bool) (scalar : bool), Term_ok h c ->
     let clit := literal_node (sort Bool) c_bool (Z.b2z scalar) (Some Bool) in
     let cl : Term Bool := {| Term_ptr := Some (List.length h) |} in
     SMT_BUILTIN_BOOL_BINARY_OP_rscalar opcode c scalar h =
       Ret (t Bool,
            h ++ [clit; binary_node (sort Bool) opcode (to_UnsafeTerm c)
                          (to_UnsafeTerm cl) (Some Bool)]) /\
     SMT_BUILTIN_BOOL_BINARY_OP_lscalar opcode scalar c h =
       Ret (t Bool,
            h ++ [clit; binary_node (sort Bool) opcode (to_UnsafeTerm cl)
                          (to_UnsafeTerm c) (Some Bool)])).
Proof.
  intros _ Hx lit lt t.
  assert (Hafter : forall (T' W : Ty) (lit' : UnsafeExpr) (y : Term T')
                     (ly : Term T'),
            Term_ok h y -> Expr_base lit' = Some T' ->
            ly = {| Term_ptr := Some (List.length h) |} ->
            Term_new W (BinaryExpr_ctor opcode T' W y ly) (h ++ [lit']) =
              Ret (t W, h ++ [lit'; binary_node (sort W) opcode
                                      (to_UnsafeTerm y) (to_UnsafeTerm ly)
                                      (Some W)]) /\
            Term_new W (BinaryExpr_ctor opcode T' W ly y) (h ++ [lit']) =
              Ret (t W, h ++ [lit'; binary_node (sort W) opcode
                                      (to_UnsafeTerm ly) (to_UnsafeTerm y)
                                      (Some W)])).
  { intros T' W lit' y ly Hy Hb ->.
    assert (Hy' : Term_ok (h ++ [lit']) y)
      by (eapply Term_ok_extends; [apply extends_new|exact Hy]).
    assert (Hly : Term_ok (h ++ [lit'])
                    ({| Term_ptr := Some (List.length h) |} : Term T'))
      by now apply Term_ok_new.
    split; now apply typed_binary_after_literal. }
  assert (Hx' : Term_ok (h ++ [lit]) x)
    by (eapply Term_ok_extends; [apply extends_new|exact Hx]).
  assert (Hl : Term_ok (h ++ [lit]) lt) by now apply Term_ok_new.
  split; [exact (typed_binary_after_literal opcode T T h lit x lt Hx' Hl)|].
  split; [exact (typed_binary_after_literal opcode T T h lit lt x Hl Hx')|].
  split; [exact (typed_binary_after_literal opcode T Bool h lit x lt Hx' Hl)|].
  split; [exact (typed_binary_after_literal opcode T Bool h lit lt x Hl Hx')|].
  split.
  - intros V b Hb blit bl.
    destruct (Hafter (Bv V) (Bv V) blit b bl Hb eq_refl eq_refl) as [H1 H2].
    split; [exact H1|exact H2].
  - intros c scalar Hc clit cl.
    destruct (Hafter Bool Bool clit c cl Hc eq_refl eq_refl) as [H1 H2].
    split; [exact H1|exact H2].
Qed.

(** X19.  An untyped operator with a scalar operand gives the literal the
    sort of the term operand; the binary node holds the term and the
    literal in the order of the source and has the sort of the term for an
    arithmetic or bitwise operator and the sort [Bool] for a relational
    one.  With a null term operand the assertion fails. *)
Theorem unsafe_scalar_operand_promotion (opcode : Opcode) (x : UnsafeTerm)
    (e : UnsafeExpr) (U : Integral) (z : Z) (h : Heap) :
  points_to h x e ->
  let s := m_sort e in
  let lit := literal_node s U z None in
  let lt := {| m_ptr := Some (List.length h) |} in
  let t := {| m_ptr := Some (S (List.length h)) |} in
  SMT_UNSAFE_BINARY_OP_rscalar opcode x U z h =
    Ret (t, h ++ [lit; binary_node s opcode x lt None]) /\
  SMT_UNSAFE_BINARY_OP_lscalar opcode U z x h =
    Ret (t, h ++ [lit; binary_node s opcode lt x None]) /\
  SMT_UNSAFE_BINARY_REL_rscalar opcode x U z h =
    Ret (t, h ++ [lit; binary_node (sort Bool) opcode x lt None]) /\
  SMT_UNSAFE_BINARY_REL_lscalar opcode U z x h =
    Ret (t, h ++ [lit; binary_node (sort Bool) opcode lt x None]) /\
  (forall y, UnsafeTerm_is_null y = true ->
     SMT_UNSAFE_BINARY_OP_rscalar opcode y U z h = Abort /\
     SMT_UNSAFE_BINARY_OP_lscalar opcode U z y h = Abort /\
     SMT_UNSAFE_BINARY_REL_rscalar opcode y U z h = Abort /\
     SMT_UNSAFE_BINARY_REL_lscalar opcode U z y h = Abort).
Proof.
  intros He s lit lt t.
  assert (Hn : UnsafeTerm_is_null x = false)
    by now apply (points_to_not_null h x e).
  assert (Hnode : forall s' l r,
            UnsafeTerm_is_null l = false -> UnsafeTerm_is_null r = false ->
            UnsafeTerm_new (UnsafeBinaryExpr_ctor s' opcode l r) (h ++ [lit])
            = Ret (t, h ++ [lit; binary_node s' opcode l r None])).
  { intros s' l r Hl Hr.
    rewrite (UnsafeTerm_new_Ret _ (h ++ [lit]) _
               (UnsafeBinaryExpr_ctor_Ret s' opcode l r (h ++ [lit]) Hl Hr)).
    rewrite length_app, <- app_assoc. simpl. unfold t.
    now rewrite Nat.add_1_r. }
  unfold SMT_UNSAFE_BINARY_OP_rscalar, SMT_UNSAFE_BINARY_OP_lscalar,
    SMT_UNSAFE_BINARY_REL_rscalar, SMT_UNSAFE_BINARY_REL_lscalar.
  rewrite (UnsafeTerm_sort_node h x e He). cbn [mbind Outcome_bind].
  split; [exact (Hnode s x lt Hn eq_refl)|].
  split; [exact (Hnode s lt x eq_refl Hn)|].
  split; [exact (Hnode (sort Bool) x lt Hn eq_refl)|].
  split; [exact (Hnode (sort Bool) lt x eq_refl Hn)|].
  intros y Hy. unfold UnsafeTerm_sort. rewrite Hy. repeat split.
Qed.

(** ** The typed and the untyped interface *)

Section AgreementTheorems.

Context `{DM : DataModel}.
Context (st : Storage).

Lemma new_handles (T : Ty) (ctor ctor' : Heap -> Outcome UnsafeExpr)
    (h : Heap) (e : UnsafeExpr) :
  ctor h = Ret e -> ctor' h = Ret (erase e) ->
  exists (t : Term T) (e0 : UnsafeExpr),
    Term_new T ctor h = Ret (t, h ++ [e0]) /\
    UnsafeTerm_new ctor' h = Ret (to_UnsafeTerm t, h ++ [erase e0]).
Proof.
  intros H H'. exists {| Term_ptr := Some (List.length h) |}, e.
  split; [now apply Term_new_Ret|now apply UnsafeTerm_new_Ret].
Qed.

(** X20.  On typed operands the untyped interface builds the node of the
    typed interface without its [Expr<T>] base: the unchecked array-select
    and array-store constructors and the untyped arithmetic, relational,
    bitwise and unary operators compute the kind, the sort and the operands
    that the typed builders give the node.  A solver is handed the same
    members by both nodes. *)
Theorem typed_untyped_agree (h : Heap) :
  typed_heap h ->
  (forall (D R : Ty) (a : Term (Array D R)) (i : Term D),
     Term_ok h a -> Term_ok h i ->
     exists e,
       ArraySelectExpr_ctor D R a i h = Ret e /\
       UnsafeArraySelectExpr_ctor st (to_UnsafeTerm a) (to_UnsafeTerm i) h
         = Ret (erase e)) /\
  (forall (D R : Ty) (a : Term (Array D R)) (i : Term D) (v : Term R),
     Term_ok h a -> Term_ok h i -> Term_ok h v ->
     exists e,
       ArrayStoreExpr_ctor D R a i v h = Ret e /\
       UnsafeArrayStoreExpr_ctor (to_UnsafeTerm a) (to_UnsafeTerm i)
         (to_UnsafeTerm v) h = Ret (erase e)) /\
  (forall (T : Ty) (l r : Term T), Term_ok h l -> Term_ok h r ->
     (forall op : ArithOp,
        exists t e,
          operator_arith op l r h = Ret (t, h ++ [e]) /\
          unsafe_operator_arith op (to_UnsafeTerm l) (to_UnsafeTerm r) h
            = Ret (to_UnsafeTerm t, h ++ [erase e])) /\
     (forall op : RelOp,
        exists t e,
          operator_rel op l r h = Ret (t, h ++ [e]) /\
          unsafe_operator_rel op (to_UnsafeTerm l) (to_UnsafeTerm r) h
            = Ret (to_UnsafeTerm t, h ++ [erase e])) /\
     exists t e,
       operator_negate l h = Ret (t, h ++ [e]) /\
       unsafe_operator_unary negate (to_UnsafeTerm l) h
         = Ret (to_UnsafeTerm t, h ++ [erase e])) /\
  (forall (U : Integral) (l r : Term (Bv U)) (op : BitOp),
     Term_ok h l -> Term_ok h r ->
     exists t e,
       operator_bit op l r h = Ret (t, h ++ [e]) /\
       unsafe_operator_bit op (to_UnsafeTerm l) (to_UnsafeTerm r) h
         = Ret (to_UnsafeTerm t, h ++ [erase e])) /\
  (forall (S : Type) (solver : Solver S) (state : S) (e : UnsafeExpr),
     UnsafeExpr_encode solver (erase e) state
     = UnsafeExpr_encode solver e state).
Proof.
  intros Hh.
  assert (Hsort : forall (T : Ty) (x : Term T), Term_ok h x ->
            UnsafeTerm_sort h (to_UnsafeTerm x) = Ret (sort T)).
  { intros T x Hx. pose proof (Term_ok_sort h T x Hh Hx) as H.
    destruct Hx as (e & He & _).
    rewrite (Term_sort_node h T x e He) in H.
    rewrite (UnsafeTerm_sort_node h (to_UnsafeTerm x) e He). exact H. }
  assert (Hnn : forall (T : Ty) (x : Term T), Term_ok h x ->
            UnsafeTerm_is_null (to_UnsafeTerm x) = false)
    by (intros T x; apply Term_ok_not_null).
  assert (Hbin : forall (T W : Ty) (opcode : Opcode) (l r : Term T),
            Term_ok h l -> Term_ok h r ->
            exists (t : Term W) (e : UnsafeExpr),
              Term_new W (BinaryExpr_ctor opcode T W l r) h
                = Ret (t, h ++ [e]) /\
              UnsafeTerm_new
                (UnsafeBinaryExpr_ctor (sort W) opcode (to_UnsafeTerm l)
                   (to_UnsafeTerm r)) h
                = Ret (to_UnsafeTerm t, h ++ [erase e])).
  { intros T W opcode l r Hl Hr. eapply new_handles.
    - now apply BinaryExpr_ctor_Ret.
    - now apply UnsafeBinaryExpr_ctor_Ret; apply Hnn. }
  assert (Hop : forall (T : Ty) (opcode : Opcode) (l r : Term T),
            Term_ok h l -> Term_ok h r ->
            exists (t : Term T) (e : UnsafeExpr),
              Term_new T (BinaryExpr_ctor opcode T T l r) h
                = Ret (t, h ++ [e]) /\
              SMT_UNSAFE_BINARY_OP opcode (to_UnsafeTerm l) (to_UnsafeTerm r) h
                = Ret (to_UnsafeTerm t, h ++ [erase e])).
  { intros T opcode l r Hl Hr.
    destruct (Hbin T T opcode l r Hl Hr) as (t & e & H1 & H2).
    exists t, e. split; [exact H1|].
    destruct Hl as (el & Hel & HT).
    rewrite (SMT_UNSAFE_BINARY_OP_unfold opcode (to_UnsafeTerm l)
               (to_UnsafeTerm r) h el Hel).
    assert (Hs : m_sort el = sort T).
    { unfold node_at in Hel. destruct (Term_ptr l) as [j|]; [|discriminate].
      now apply (Hh j el T). }
    now rewrite Hs. }
  split; [|split; [|split; [|split]]].
  - intros D R a i Ha Hi. eexists.
    split; [now apply ArraySelectExpr_ctor_Ret|].
    unfold UnsafeArraySelectExpr_ctor. rewrite (Hsort _ a Ha).
    cbn [mbind Outcome_bind].
    change (sort_object st (sort (Array D R)))
      with (Some (Math_s_sort_value (Array D R))).
    cbn [deref mbind Outcome_bind].
    destruct (Sort_sorts_nested st _ _ 1 (Array_nested_sorts st D R))
      as (p & Hp & Hr); [simpl; lia|].
    simpl in Hp. injection Hp as <-. rewrite Hr. cbn [mbind Outcome_bind].
    rewrite UnsafeArraySelectExpr_init_Ret by now apply Hnn.
    reflexivity.
  - intros D R a i v Ha Hi Hv. eexists.
    split; [now apply ArrayStoreExpr_ctor_Ret|].
    unfold UnsafeArrayStoreExpr_ctor. rewrite (Hsort _ a Ha).
    cbn [mbind Outcome_bind].
    rewrite UnsafeArrayStoreExpr_init_Ret by now apply Hnn.
    reflexivity.
  - intros T l r Hl Hr. split; [|split].
    + intros op. apply Hop; assumption.
    + intros op. rewrite operator_rel_unfold. apply Hbin; assumption.
    + unfold operator_negate, SMT_BUILTIN_UNARY_OP,
        unsafe_operator_unary, SMT_UNSAFE_UNARY_OP.
      eapply new_handles; [now apply UnaryExpr_ctor_Ret|].
      cbn beta. rewrite (Hsort _ l Hl). cbn [mbind Outcome_bind].
      unfold UnsafeUnaryExpr_ctor.
      rewrite UnsafeUnaryExpr_init_Ret by now apply Hnn.
      reflexivity.
  - intros U l r op Hl Hr. apply Hop; assumption.
  - intros S solver state e. reflexivity.
Qed.

End AgreementTheorems.

(** ** Encoding of literals *)

(** X21.  A solver that does not override the literal hook of an integral
    type answers [UNSUPPORT_ERROR] for every literal of that type, typed or
    untyped, and its state is as before; no exception is raised.  A solver
    that overrides the hook is handed the sort and the value of the
    literal. *)
Theorem literal_encode (S : Type) (solver : Solver S) (state : S)
    (T : Ty) (s : SortPtr) (U : Integral) (z : Z) (h : Heap) :
  IsPrimitive T = true ->
  exists (t : Term T) (u : UnsafeTerm) (h1 h2 : Heap),
    literal T U z h = Ret (t, h1) /\
    unsafe_literal s U z h1 = Ret (u, h2) /\
    (override_encode_literal solver U = None ->
       UnsafeTerm_encode h2 solver (to_UnsafeTerm t) state
         = Ret (UNSUPPORT_ERROR, state) /\
       UnsafeTerm_encode h2 solver u state = Ret (UNSUPPORT_ERROR, state)) /\
    (forall hook, override_encode_literal solver U = Some hook ->
       UnsafeTerm_encode h2 solver (to_UnsafeTerm t) state
         = Ret (hook (sort T) z state) /\
       UnsafeTerm_encode h2 solver u state = Ret (hook s z state)).
Proof.
  intros _. do 4 eexists. split; [apply literal_Ret|].
  split; [apply unsafe_literal_Ret|].
  assert (Ht : node_at ((h ++ [literal_node (sort T) U z (Some T)])
                          ++ [literal_node s U z None])
                 (Some (List.length h))
               = Some (literal_node (sort T) U z (Some T))).
  { apply (extends_node_at (h ++ [literal_node (sort T) U z (Some T)]));
      [apply extends_new|apply node_at_new]. }
  unfold UnsafeTerm_encode. cbn [to_UnsafeTerm m_ptr Term_ptr].
  rewrite Ht, node_at_new.
  unfold UnsafeExpr_encode, encode_literal, __encode_literal. simpl.
  split.
  - intros ->. split; reflexivity.
  - intros hook ->. split; reflexivity.
Qed.

(** ** Argument tuples *)

Lemma BuildSequence_seq (n : nat) : BuildSequence n = seq 0 n.
Proof.
  induction n as [|n IH]; [reflexivity|].
  simpl BuildSequence. unfold Sequence_next. rewrite IH, length_seq.
  now rewrite seq_S.
Qed.

Lemma tuple_get_to_array (Ts : list Ty) (args : Args Ts) (k : nat) :
  tuple_get k args = to_array args !! k.
Proof.
  revert k. induction Ts as [|T Ts IH]; intros k; [reflexivity|].
  destruct k as [|k]; [reflexivity|]. simpl. apply IH.
Qed.

Lemma to_array_length (Ts : list Ty) (args : Args Ts) :
  List.length (to_array args) = List.length Ts.
Proof. induction Ts as [|T Ts IH]; simpl; [reflexivity|]. now rewrite IH. Qed.

Lemma RemoveLast_Some (Ts A : list Ty) :
  RemoveLast Ts = Some A ->
  exists R, Ts = A ++ [R] /\ A <> [].
Proof.
  revert A. induction Ts as [|T U IH]; intros A; [discriminate|].
  destruct U as [|T' U']; [discriminate|].
  destruct U' as [|T'' U''].
  - intros [= <-]. now exists T'.
  - change (RemoveLast (T :: T' :: T'' :: U''))
      with (r ← RemoveLast (T' :: T'' :: U''); Some (T :: r)).
    destruct (RemoveLast (T' :: T'' :: U'')) as [r|] eqn:E; [|discriminate].
    intros [= <-]. destruct (IH r eq_refl) as (R & HR & _).
    exists R. split; [|discriminate]. simpl. now rewrite HR.
Qed.

(** X22.  [RemoveLast] and [Range] split a pack of at least two types into
    the argument types and the range, and [RemoveLast] is defined for no
    shorter pack.  [to_array] over the index sequence [0, ..., n-1] gives
    the array of the [n] handles of the argument tuple, in order, which is
    what the node of [apply] holds together with the arity [n]. *)
Theorem apply_arguments (A : list Ty) (R : Ty)
    (func_decl : Decl (Func (A ++ [R]))) (args : Args A) (h : Heap) :
  A <> [] ->
  RemoveLast (A ++ [R]) = Some A /\
  Func_Range (A ++ [R]) = Some R /\
  (forall Ts A', RemoveLast Ts = Some A' ->
     exists R', Ts = A' ++ [R'] /\ Func_Range Ts = Some R') /\
  (forall Ts, RemoveLast Ts = None <-> (List.length Ts < 2)%nat) /\
  BuildSequence (List.length A) = seq 0 (List.length A) /\
  to_array_seq args (BuildSequence (List.length A)) = Some (to_array args) /\
  List.length (to_array args) = List.length A /\
  exists (t : Term R) (e : UnsafeExpr),
    apply A R func_decl args h = Ret (t, h ++ [e]) /\
    members e = UnsafeFuncAppExpr (N.of_nat (List.length A))
                  (Decl_base func_decl) (to_array args).
Proof.
  intros HA.
  split; [now apply RemoveLast_app|]. split; [apply Func_Range_app|].
  split.
  { intros Ts A' H. destruct (RemoveLast_Some Ts A' H) as (R' & -> & _).
    exists R'. split; [reflexivity|apply Func_Range_app]. }
  split.
  { intros Ts. split.
    - intros H. destruct Ts as [|T [|T' U]]; simpl; try lia.
      exfalso. destruct (exists_last (l := T :: T' :: U)) as (B & x & E);
        [discriminate|].
      rewrite E in H. rewrite RemoveLast_app in H; [discriminate|].
      intros ->. discriminate E.
    - intros H. destruct Ts as [|T [|T' U]]; try reflexivity.
      simpl in H. lia. }
  split; [apply BuildSequence_seq|].
  split.
  { unfold to_array_seq. rewrite BuildSequence_seq. apply mapM_Some.
    rewrite <- (to_array_length A args).
    generalize (to_array_length A args). intros _.
    assert (H : forall l : list UnsafeTerm,
              Forall2 (fun k y => l !! k = Some y) (seq 0 (List.length l)) l).
    { intros l. apply Forall2_same_length_lookup_2.
      - now rewrite length_seq.
      - intros i k y Hk Hy. apply lookup_seq in Hk as [-> _]. exact Hy. }
    eapply Forall2_impl; [apply H|].
    intros k y Hy. simpl. now rewrite tuple_get_to_array. }
  split; [apply to_array_length|].
  do 2 eexists. split; [unfold apply; now apply Term_new_Ret|reflexivity].
Qed.

(** ** Logic acronyms *)

(** X23.  Every logic indexes an entry of the table of acronyms, the table
    has no other entry, and distinct logics have distinct acronyms. *)
Theorem acronyms_spec :
  (forall l : Logic, is_Some (acronyms !! Logic_value l)) /\
  (forall i, is_Some (acronyms !! i) -> exists l, Logic_value l = i) /\
  (forall l l' : Logic,
     acronyms !! Logic_value l = acronyms !! Logic_value l' -> l = l').
Proof.
  split; [|split].
  - intros l. destruct l; vm_compute; eauto.
  - intros i Hi. apply lookup_lt_is_Some in Hi. simpl in Hi.
    do 23 (destruct i as [|i];
           [match goal with
            | |- exists l, Logic_value l = ?n =>
                first [ exists AUFLIA_LOGIC; reflexivity
                      | exists AUFLIRA_LOGIC; reflexivity
                      | exists AUFNIRA_LOGIC; reflexivity
                      | exists LRA_LOGIC; reflexivity
                      | exists QF_ABV_LOGIC; reflexivity
                      | exists QF_AUFBV_LOGIC; reflexivity
                      | exists QF_UFBV_LOGIC; reflexivity
                      | exists QF_AUFLIA_LOGIC; reflexivity
                      | exists QF_AX_LOGIC; reflexivity
                      | exists QF_BV_LOGIC; reflexivity
                      | exists QF_IDL_LOGIC; reflexivity
                      | exists QF_RDL_LOGIC; reflexivity
                      | exists QF_LIA_LOGIC; reflexivity
                      | exists QF_LRA_LOGIC; reflexivity
                      | exists QF_NIA_LOGIC; reflexivity
                      | exists QF_NRA_LOGIC; reflexivity
                      | exists QF_UF_LOGIC; reflexivity
                      | exists QF_UFIDL_LOGIC; reflexivity
                      | exists QF_UFLIA_LOGIC; reflexivity
                      | exists QF_UFLRA_LOGIC; reflexivity
                      | exists QF_UFNRA_LOGIC; reflexivity
                      | exists UFLRA_LOGIC; reflexivity
                      | exists UFNIA_LOGIC; reflexivity ]
            end|]).
    lia.
  - intros l l' H. destruct l, l'; try reflexivity;
      vm_compute in H; discriminate.
Qed.

(** * Examples *)

(** The examples run on the LP64 data model. *)
#[local] Existing Instance LP64.

Lemma example_build_heap :
  example_build [] =
  Ret ((example_x, example_y, example_a, example_p, example_q), example_heap).
Proof. reflexivity. Qed.

Lemma example_heap_typed : typed_heap example_heap.
Proof.
  intros i e T Hi HT. unfold example_heap in Hi.
  do 5 (destruct i as [|i];
        [simpl in Hi; injection Hi as <-; injection HT as <-; reflexivity|]).
  discriminate.
Qed.

Lemma Sort_sorts_spec_witness :
  nested_sorts no_storage (Math_s_sort_value (Array Int Bool))
    = Some [sort Int; sort Bool] /\
  Sort_sorts no_storage (Math_s_sort_value (Array Int Bool)) 2
    = Throw (out_of_range "check_sorts_index fails") /\
  exists p, [sort Int; sort Bool] !! N.to_nat 1 = Some p /\
    Sort_sorts no_storage (Math_s_sort_value (Array Int Bool)) 1 = Ret p.
Proof.
  split; [reflexivity|].
  destruct (Sort_sorts_spec no_storage (Math_s_sort_value (Array Int Bool))
              [sort Int; sort Bool] 2 eq_refl) as (_ & Hout & _).
  destruct (Sort_sorts_spec no_storage (Math_s_sort_value (Array Int Bool))
              [sort Int; sort Bool] 1 eq_refl) as (_ & _ & Hin).
  split; [apply Hout; vm_compute; discriminate|].
  apply Hin. reflexivity.
Defined.

(** C1 fails on the code: the two array sorts of [two_arrays] are distinct
    objects that agree on all classification fields and whose nested-sort
    sequences are equal element by element, yet [s1 == s2] is false. *)
Lemma Sort_eq_not_structural :
  Sort_at 1 <> Sort_at 2 /\
  structurally_equal two_arrays (Sort_at 1) (Sort_at 2) /\
  Sort_eq two_arrays (Sort_at 1) (Sort_at 2) = Some false.
Proof.
  split; [discriminate|]. split; [|reflexivity].
  assert (Hprim : forall T, T = Int \/ T = Bool ->
            structurally_equal two_arrays (sort T) (sort T)).
  { intros T [-> | ->];
      (eapply structurally_equal_intro;
        [reflexivity|reflexivity|apply same_classification_refl
        |reflexivity|reflexivity|constructor]). }
  eapply structurally_equal_intro;
    [reflexivity|reflexivity|repeat split|reflexivity|reflexivity|].
  repeat constructor; apply Hprim; auto.
Qed.

Lemma Sort_eq_spec_witness :
  sort_object two_arrays (Sort_at 1)
    = Some (Sort_composite false true false (Sorts_at 1) 2) /\
  sort_object two_arrays (Sort_at 2)
    = Some (Sort_composite false true false (Sorts_at 2) 2) /\
  Sort_eq two_arrays (Sort_at 1) (Sort_at 2) = Some false.
Proof.
  split; [reflexivity|]. split; [reflexivity|].
  destruct (Sort_eq_spec two_arrays (Sort_at 1) (Sort_at 2) _ _
              eq_refl eq_refl) as (_ & _ & _ & Hne).
  apply Hne; discriminate.
Defined.

(** The registry itself has such sorts: on LP64, [Bv<long>] and
    [Bv<long long>] have equal sorts, while [Array<Bv<long>, Int>] and
    [Array<Bv<long long>, Int>] have not. *)
Lemma Sort_eq_registry_arrays :
  Sort_eq no_storage (sort (Bv c_long)) (sort (Bv c_long_long)) = Some true /\
  Sort_eq no_storage (sort (Array (Bv c_long) Int))
    (sort (Array (Bv c_long_long) Int)) = Some false.
Proof. split; reflexivity. Qed.

Lemma example_x_ok : Term_ok example_heap example_x.
Proof. eexists. split; reflexivity. Qed.

Lemma example_y_ok : Term_ok example_heap example_y.
Proof. eexists. split; reflexivity. Qed.

Lemma example_a_ok : Term_ok example_heap example_a.
Proof. eexists. split; reflexivity. Qed.

Lemma example_p_ok : Term_ok example_heap example_p.
Proof. eexists. split; reflexivity. Qed.

Lemma example_q_ok : Term_ok example_heap example_q.
Proof. eexists. split; reflexivity. Qed.

(** [x < y] has the sort of [Bool], [x + y] the sort of [Int], [p & q] the
    sort of [Bv<int>]; so have the nodes that the untyped operators build
    over the same operands. *)
Lemma binary_operator_sorts_witness :
  typed_heap example_heap /\
  (exists t h', operator_rel less example_x example_y example_heap
                  = Ret (t, h') /\
                Term_sort h' t = Ret (sort Bool)) /\
  (exists t h', operator_arith plus example_x example_y example_heap
                  = Ret (t, h') /\
                Term_sort h' t = Ret (sort Int)) /\
  (exists t h', operator_bit bit_and example_p example_q example_heap
                  = Ret (t, h') /\
                Term_sort h' t = Ret (sort (Bv c_int))) /\
  (exists t h', unsafe_operator_rel equal (to_UnsafeTerm example_p)
                  (to_UnsafeTerm example_q) example_heap = Ret (t, h') /\
                UnsafeTerm_sort h' t = Ret (sort Bool)) /\
  (exists t h', unsafe_operator_bit bit_xor (to_UnsafeTerm example_p)
                  (to_UnsafeTerm example_q) example_heap = Ret (t, h') /\
                UnsafeTerm_sort h' t = Ret (sort (Bv c_int))).
Proof.
  split; [exact example_heap_typed|].
  destruct (binary_operator_sorts example_heap example_heap_typed)
    as (Hrel & Harith & Hbit & Hurel & Huop).
  split.
  { destruct (Hrel Int example_x example_y less example_x_ok example_y_ok)
      as (t & h' & H1 & _ & _ & H2). now exists t, h'. }
  split.
  { destruct (Harith Int example_x example_y plus example_x_ok example_y_ok)
      as (t & h' & H1 & _ & _ & H2 & _). now exists t, h'. }
  split.
  { destruct (Hbit c_int example_p example_q bit_and example_p_ok
                example_q_ok) as (t & h' & H1 & _ & _ & H2 & _).
    now exists t, h'. }
  split.
  { destruct (Hurel (to_UnsafeTerm example_p) (to_UnsafeTerm example_q)
                _ _ equal eq_refl eq_refl) as (t & h' & H1 & _ & _ & H2).
    now exists t, h'. }
  destruct (Huop (to_UnsafeTerm example_p) (to_UnsafeTerm example_q)
              _ _ eq_refl eq_refl eq_refl) as (_ & Hb).
  destruct (Hb bit_xor) as (t & h' & H1 & _ & _ & H2 & _).
  exists t, h'. split; [exact H1|]. rewrite H2. reflexivity.
Defined.

(** [distinct] over [x], [y], [x]. *)
Lemma distinct_spec_witness :
  (2 <= List.length [example_x; example_y; example_x])%nat /\
  exists t e,
    distinct (Terms_of [example_x; example_y; example_x]) example_heap
      = Ret (t, example_heap ++ [e]) /\
    Term_sort (example_heap ++ [e]) t = Ret (sort Bool) /\
    members e = UnsafeNaryExpr NEQ
                  (map to_UnsafeTerm [example_x; example_y; example_x]).
Proof.
  assert (Hlen : (2 <= List.length [example_x; example_y; example_x])%nat)
    by (simpl; lia).
  split; [exact Hlen|].
  destruct (distinct_spec Int [example_x; example_y; example_x] example_heap
              Hlen) as (t & e & H1 & _ & _ & H2 & _ & _ & H3 & _).
  now exists t, e.
Defined.

(** [store(a, x, y)] *)
Lemma store_spec_witness :
  typed_heap example_heap /\
  Term_ok example_heap example_a /\
  Term_ok example_heap example_x /\
  Term_ok example_heap example_y /\
  exists t h',
    store example_a example_x example_y example_heap = Ret (t, h') /\
    Term_expr_kind h' t = Ret ARRAY_STORE_EXPR_KIND /\
    Term_sort h' t = Term_sort example_heap example_a /\
    extends example_heap h'.
Proof.
  split; [exact example_heap_typed|]. split; [exact example_a_ok|].
  split; [exact example_x_ok|]. split; [exact example_y_ok|].
  destruct (store_spec Int Int example_a example_x example_y example_heap
              example_heap_typed example_a_ok example_x_ok example_y_ok)
    as (t & h' & H1 & _ & _ & H2 & H3 & _ & H4 & _).
  now exists t, h'.
Defined.

Lemma example_heap_closed : closed_heap example_heap.
Proof.
  intros i e Hi. unfold example_heap in Hi.
  do 5 (destruct i as [|i]; [simpl in Hi; injection Hi as <-; constructor|]).
  discriminate.
Qed.

(** [select(store(a, x, y), x) == y] under [example_constants]. *)
Lemma select_store_law_witness :
  closed_heap example_heap /\
  Term_ok example_heap example_a /\
  Term_ok example_heap example_x /\
  Term_ok example_heap example_y /\
  exists f h',
    select_store_formula example_a example_x example_y example_heap
      = Ret (f, h') /\
    eval (M := Value_theory example_constants example_functions)
      8 h' (to_UnsafeTerm f) = Some (VBool true).
Proof.
  split; [exact example_heap_closed|].
  split; [exact example_a_ok|]. split; [exact example_x_ok|].
  split; [exact example_y_ok|].
  destruct (select_store_law
              (M := Value_theory example_constants example_functions)
              Int Int example_a example_x example_y example_heap
              example_heap_closed example_a_ok example_x_ok example_y_ok)
    as (f & h' & H1 & H2 & _).
  exists f, h'. split; [exact H1|]. apply (H2 8%nat).
  unfold select_store_formula in H1. vm_compute in H1.
  injection H1 as _ <-. simpl. lia.
Defined.

(** C7 fails on the code: the conversion of the untyped handle on [x] to
    [Int] gives a non-null handle on the node of [x] whose [addr()] is not
    the [addr()] of the untyped handle. *)
Lemma UnsafeTerm_to_addr_differs :
  let u := to_UnsafeTerm example_x in
  UnsafeTerm_is_null u = false /\
  exists t : Term Int,
    UnsafeTerm_to Int example_heap u = Ret t /\
    Term_is_null t = false /\
    to_UnsafeTerm t = u /\
    Term_addr (H := example_layout) t <> UnsafeTerm_addr u.
Proof.
  split; [reflexivity|]. exists example_x.
  split; [reflexivity|]. split; [reflexivity|]. split; [reflexivity|].
  discriminate.
Qed.

(** The conversion of the untyped handle on [x] to [Int] and to [Bool]. *)
Lemma UnsafeTerm_to_spec_witness :
  points_to example_heap (to_UnsafeTerm example_x) (constant_node Int "x") /\
  (exists t, UnsafeTerm_to Int example_heap (to_UnsafeTerm example_x) = Ret t /\
     Term_is_null t = false /\
     to_UnsafeTerm t = to_UnsafeTerm example_x /\
     Term_addr (H := example_layout) t
       = Expr_address (ObjectLayout := example_layout) 0) /\
  (exists t, UnsafeTerm_to Bool example_heap (to_UnsafeTerm example_x) = Ret t /\
     Term_is_null t = true /\
     Term_addr (H := example_layout) t = 0).
Proof.
  split; [reflexivity|]. split.
  - destruct (UnsafeTerm_to_spec (L := example_layout) Int example_heap
                (to_UnsafeTerm example_x) (constant_node Int "x") eq_refl)
      as (t & H1 & _ & H2).
    destruct (H2 eq_refl) as (H3 & _ & H4 & _ & _ & i & Hi & _ & H5).
    injection Hi as <-. now exists t.
  - destruct (UnsafeTerm_to_spec (L := example_layout) Bool example_heap
                (to_UnsafeTerm example_x) (constant_node Int "x") eq_refl)
      as (t & H1 & H2 & _).
    exists t. split; [exact H1|]. apply H2. discriminate.
Defined.

(** The unchecked select over the [Int] constant [x]. *)
Lemma UnsafeArraySelectExpr_out_of_range_witness :
  points_to example_heap (to_UnsafeTerm example_x) (constant_node Int "x") /\
  sort_object no_storage (m_sort (constant_node Int "x"))
    = Some (Math_s_sort_value Int) /\
  sorts_size (Math_s_sort_value Int) < 2 /\
  UnsafeTerm_new
    (UnsafeArraySelectExpr_ctor no_storage (to_UnsafeTerm example_x)
       (to_UnsafeTerm example_y)) example_heap
  = Throw (out_of_range "check_sorts_index fails").
Proof.
  split; [reflexivity|]. split; [reflexivity|]. split; [reflexivity|].
  destruct (UnsafeArraySelectExpr_out_of_range no_storage example_heap
              (to_UnsafeTerm example_x) (to_UnsafeTerm example_y)
              (constant_node Int "x") (Math_s_sort_value Int) eq_refl eq_refl)
    as (Hthrow & _).
  now destruct (Hthrow eq_refl).
Defined.

(** C10 fails on the code: the sort of [Func<Int, Bool>] is no array sort,
    its nested count is 2 and not 0, and the unchecked array-select
    constructor accepts a constant of that sort as its first operand; the
    node takes the nested sort at index 1, the sort of the range [Bool]. *)
Lemma UnsafeArraySelectExpr_function_sort :
  let decl := {| m_symbol := "f"; m_decl_sort := sort (Func [Int; Bool]) |} in
  let f := {| m_ptr := Some 5%nat |} in
  let h := example_heap
           ++ [UnsafeExpr_of CONSTANT_EXPR_KIND (sort (Func [Int; Bool]))
                 (UnsafeConstantExpr decl) None] in
  UnsafeTerm_new (UnsafeConstantExpr_ctor decl) example_heap = Ret (f, h) /\
  UnsafeTerm_sort h f = Ret (sort (Func [Int; Bool])) /\
  (exists s, sort_object no_storage (sort (Func [Int; Bool])) = Some s /\
     is_array s = false /\ is_func s = true /\ sorts_size s = 2) /\
  UnsafeTerm_new
    (UnsafeArraySelectExpr_ctor no_storage f (to_UnsafeTerm example_x)) h
  = Ret ({| m_ptr := Some 6%nat |},
         h ++ [UnsafeExpr_of ARRAY_SELECT_EXPR_KIND (sort Bool)
                 (UnsafeArraySelectExpr f (to_UnsafeTerm example_x)) None]).
Proof.
  split; [reflexivity|]. split; [reflexivity|].
  split; [eexists; repeat split|reflexivity].
Qed.

(** C9 fails on the code: the N-ary constructors build a node over null
    operand handles, on the untyped and on the typed path, and the
    unchecked array-select constructor does not succeed on the non-null
    operands [x] and [y]. *)
Lemma construct_not_checked :
  (exists e,
     construct no_storage
       (new_UnsafeNaryExpr (sort Bool) NEQ [UnsafeTerm_null; UnsafeTerm_null])
       example_heap = Ret e /\
     operands e = [UnsafeTerm_null; UnsafeTerm_null]) /\
  (exists e,
     construct no_storage
       (new_NaryExpr NEQ Int Bool (Terms_of [Term_null Int; example_x]))
       example_heap = Ret e /\
     UnsafeTerm_null ∈ operands e) /\
  Forall (fun a => UnsafeTerm_is_null a = false)
    [to_UnsafeTerm example_x; to_UnsafeTerm example_y] /\
  construct no_storage
    (new_UnsafeArraySelectExpr (to_UnsafeTerm example_x)
       (to_UnsafeTerm example_y)) example_heap
  = Throw (out_of_range "check_sorts_index fails").
Proof.
  split; [eexists; split; reflexivity|].
  split; [eexists; split; [reflexivity|apply list_elem_of_here]|].
  split; [repeat constructor|reflexivity].
Qed.

(** The array-store constructor on [a], [x], [y], and on a null value. *)
Lemma construct_spec_witness :
  Forall (live example_heap)
    (given_operands
       (new_ArrayStoreExpr Int Int example_a example_x example_y)) /\
  returns (construct no_storage
             (new_ArrayStoreExpr Int Int example_a example_x example_y)
             example_heap) /\
  construct no_storage
    (new_ArrayStoreExpr Int Int example_a example_x (Term_null Int))
    example_heap = Abort.
Proof.
  assert (Hlive : forall T (t : Term T),
            Term_ok example_heap t -> live example_heap (to_UnsafeTerm t)).
  { intros T t (e & He & _). right. now exists e. }
  assert (H1 : Forall (live example_heap)
                 (given_operands
                    (new_ArrayStoreExpr Int Int example_a example_x
                       example_y))).
  { simpl.
    constructor; [apply Hlive, example_a_ok|].
    constructor; [apply Hlive, example_x_ok|].
    constructor; [apply Hlive, example_y_ok|constructor]. }
  assert (H2 : Forall (live example_heap)
                 (given_operands
                    (new_ArrayStoreExpr Int Int example_a example_x
                       (Term_null Int)))).
  { simpl.
    constructor; [apply Hlive, example_a_ok|].
    constructor; [apply Hlive, example_x_ok|].
    constructor; [now left|constructor]. }
  split; [exact H1|]. split.
  - destruct (construct_spec no_storage _ example_heap H1)
      as (_ & _ & _ & _ & Hret).
    apply Hret; [repeat constructor|discriminate|exact I].
  - destruct (construct_spec no_storage _ example_heap H2)
      as (_ & Hnull & _).
    destruct Hnull as (_ & Habort & _); [reflexivity| |now apply Habort].
    simpl. do 2 apply Exists_cons_tl. now apply Exists_cons_hd.
Defined.

(** [Func<Int, Bv<int>, Bool>]: two argument sorts and the range. *)
Lemma Func_sort_example :
  nested_sorts no_storage (Math_s_sort_value (Func [Int; Bv c_int; Bool]))
    = Some [sort Int; sort (Bv c_int); sort Bool] /\
  Sort_sorts no_storage (Math_s_sort_value (Func [Int; Bv c_int; Bool])) 2
    = Ret (sort Bool) /\
  RemoveLast [Int; Bv c_int; Bool] = Some [Int; Bv c_int] /\
  Func_Range [Int; Bv c_int; Bool] = Some Bool.
Proof. repeat split. Qed.

(** ** Further examples *)

Lemma example_heap_tagged : tagged_heap example_heap.
Proof.
  intros i e Hi. unfold example_heap in Hi.
  do 5 (destruct i as [|i]; [simpl in Hi; injection Hi as <-; reflexivity|]).
  discriminate.
Qed.

(** The sort at 2 is move-constructed from the sort at 1. *)
Lemma Sort_move_eq_witness :
  sort_object moved_array (Sort_at 2)
    = Some (Sort_move (Sort_composite false true false (Sorts_at 1) 2)) /\
  Sort_eq moved_array (Sort_at 1) (Sort_at 2) = Some true /\
  Sort_eq moved_array (Sort_at 2) (Sort_at 1) = Some true.
Proof.
  split; [reflexivity|].
  destruct (Sort_move_eq moved_array (Sort_at 1) (Sort_at 2)
              (Sort_composite false true false (Sorts_at 1) 2)
              eq_refl eq_refl) as (H1 & H2 & _).
  split; [exact H1|exact H2].
Defined.

(** On LP64 the sorts of [Bv<long>] and of [Bv<long long>] compare equal,
    and are structurally equal. *)
Lemma Sort_eq_sound_witness :
  Sort_eq no_storage (sort (Bv c_long)) (sort (Bv c_long_long)) = Some true /\
  structurally_equal no_storage (sort (Bv c_long)) (sort (Bv c_long_long)).
Proof.
  split; [reflexivity|].
  apply (Sort_eq_sound no_storage (sort (Bv c_long)) (sort (Bv c_long_long)));
    [exact I|exact I|reflexivity].
Defined.

(** [Bv<int>] and [Bv<unsigned>] differ in signedness; [Bv<int>] is no
    array sort. *)
Lemma primitive_Sort_eq_witness :
  IsPrimitive (Bv c_int) = true /\
  Sort_eq no_storage (sort (Bv c_int)) (sort (Bv c_unsigned_int))
    <> Some true /\
  Sort_eq no_storage (sort (Bv c_int)) (sort (Array Int Int)) = Some false.
Proof.
  split; [reflexivity|].
  destruct (primitive_Sort_eq no_storage (Bv c_int) (Bv c_unsigned_int)
              eq_refl) as (Hbv & _ & _).
  destruct (primitive_Sort_eq no_storage (Bv c_int) (Array Int Int)
              eq_refl) as (_ & _ & Harr).
  split; [|apply Harr; reflexivity].
  intros H. apply (Hbv c_int c_unsigned_int eq_refl eq_refl) in H as [H _].
  discriminate H.
Defined.

(** Two declarations of [x] as an [Int], at two addresses. *)
Lemma UnsafeDecl_eq_spec_witness :
  let d := Decl_base ({| Decl_symbol := "x" |} : Decl Int) in
  ((1 : N) = 2 -> d = d) /\
  UnsafeDecl_eq 1 2 d d = true /\
  Sort_eq no_storage (m_decl_sort d) (m_decl_sort d) = Some true.
Proof.
  intros d.
  assert (Hd : (1 : N) = 2 -> d = d) by reflexivity.
  split; [exact Hd|].
  destruct (UnsafeDecl_eq_spec no_storage 1 2 d d Hd) as (Hiff & Hsort & _).
  assert (He : UnsafeDecl_eq 1 2 d d = true) by (apply Hiff; now split).
  split; [exact He|]. apply (Hsort He (Math_s_sort_value Int)). reflexivity.
Defined.

(** The accessors of the handle on [x]. *)
Lemma UnsafeTerm_accessors_witness :
  live example_heap (to_UnsafeTerm example_x) /\
  UnsafeTerm_sort example_heap (to_UnsafeTerm example_x) = Ret (sort Int) /\
  UnsafeTerm_encode example_heap example_solver (to_UnsafeTerm example_x)
    0%nat = Ret (OK, 1%nat).
Proof.
  assert (Hl : live example_heap (to_UnsafeTerm example_x))
    by (right; now exists (constant_node Int "x")).
  split; [exact Hl|].
  destruct (UnsafeTerm_accessors nat example_solver 0%nat example_heap
              (to_UnsafeTerm example_x) Hl) as (_ & _ & Hnode).
  destruct (Hnode eq_refl) as (e & He & _ & _ & Hs & Hen).
  unfold points_to in He. simpl in He. injection He as <-.
  split; [exact Hs|exact Hen].
Defined.

(** [x] as an untyped term, and back as an [Int] and as a [Bool]. *)
Lemma typed_untyped_round_trip_witness :
  (Term_is_null example_x = true \/ Term_ok example_heap example_x) /\
  UnsafeTerm_to Int example_heap (to_UnsafeTerm example_x) = Ret example_x /\
  UnsafeTerm_to Bool example_heap (to_UnsafeTerm example_x)
    = Ret (Term_null Bool).
Proof.
  assert (H : Term_is_null example_x = true \/ Term_ok example_heap example_x)
    by (right; exact example_x_ok).
  split; [exact H|].
  destruct (typed_untyped_round_trip Int example_heap example_x H)
    as (H1 & H2).
  split; [exact H1|]. apply H2. discriminate.
Defined.

(** The node of [constant(Decl<Int>("z"))] converts to an [Int] and to no
    [Bool]. *)
Lemma allocation_conversion_witness :
  let a := alloc_ConstantExpr Int {| Decl_symbol := "z" |} in
  let u := {| m_ptr := Some 5%nat |} in
  allocate no_storage a example_heap = Ret (constant_node Int "z") /\
  UnsafeTerm_to Int (example_heap ++ [constant_node Int "z"]) u
    = Ret {| Term_ptr := Some 5%nat |} /\
  UnsafeTerm_to Bool (example_heap ++ [constant_node Int "z"]) u
    = Ret (Term_null Bool).
Proof.
  intros a u. split; [reflexivity|].
  destruct (allocation_conversion no_storage a example_heap
              (constant_node Int "z") eq_refl) as (_ & Hto & _).
  split; [exact (Hto Int)|exact (Hto Bool)].
Defined.

(** The heap of the five constants with the node of [x + y]. *)
Lemma allocation_invariants_witness :
  tagged_heap example_heap /\ typed_heap example_heap /\
  allocate no_storage
    (alloc_Construction (new_BinaryExpr ADD Int Int example_x example_y))
    example_heap = Ret example_sum /\
  tagged_heap (example_heap ++ [example_sum]) /\
  typed_heap (example_heap ++ [example_sum]).
Proof.
  split; [exact example_heap_tagged|]. split; [exact example_heap_typed|].
  split; [reflexivity|].
  exact (allocation_invariants no_storage
           (alloc_Construction (new_BinaryExpr ADD Int Int example_x example_y))
           example_heap example_sum example_heap_tagged example_heap_typed
           eq_refl).
Defined.

Lemma example_sum_operands :
  Forall (fun t => exists e', points_to example_heap t e')
    (allocation_operands
       (alloc_Construction (new_BinaryExpr ADD Int Int example_x example_y))).
Proof.
  simpl. constructor; [now eexists|]. constructor; [now eexists|constructor].
Qed.

Lemma allocation_closed_witness :
  closed_heap example_heap /\
  Forall (fun t => exists e', points_to example_heap t e')
    (allocation_operands
       (alloc_Construction (new_BinaryExpr ADD Int Int example_x example_y))) /\
  allocate no_storage
    (alloc_Construction (new_BinaryExpr ADD Int Int example_x example_y))
    example_heap = Ret example_sum /\
  operands example_sum = [to_UnsafeTerm example_x; to_UnsafeTerm example_y] /\
  closed_heap (example_heap ++ [example_sum]).
Proof.
  split; [exact example_heap_closed|]. split; [exact example_sum_operands|].
  split; [reflexivity|].
  destruct (allocation_closed no_storage
              (alloc_Construction
                 (new_BinaryExpr ADD Int Int example_x example_y))
              example_heap example_sum example_heap_closed
              example_sum_operands eq_refl) as (H1 & H2 & _).
  split; [exact H1|exact H2].
Defined.

Lemma example_sum_closed : closed_heap (example_heap ++ [example_sum]).
Proof.
  apply closed_heap_new; [exact example_heap_closed|].
  simpl. constructor; [exists 0%nat; simpl; split; [reflexivity|lia]|].
  constructor; [exists 1%nat; simpl; split; [reflexivity|lia]|constructor].
Qed.

(** [x] is a subterm of [x + y], at an older cell, and [x + y] is no subterm
    of itself. *)
Lemma subterm_acyclic_witness :
  closed_heap (example_heap ++ [example_sum]) /\
  subterm (example_heap ++ [example_sum]) 5 0 /\
  ~ subterm (example_heap ++ [example_sum]) 5 5.
Proof.
  split; [exact example_sum_closed|].
  destruct (subterm_acyclic (example_heap ++ [example_sum])
              example_sum_closed) as (_ & H).
  split; [|exact (H 5%nat)].
  apply subterm_child. exists example_sum. split; [reflexivity|].
  apply list_elem_of_here.
Defined.

(** The vector of [x] and [y]. *)
Lemma Terms_at_spec_witness :
  Forall (fun t => Term_is_null t = true \/ Term_ok example_heap t)
    [example_x; example_y] /\
  Terms_size (Terms_of [example_x; example_y]) = 2 /\
  Terms_at example_heap (Terms_of [example_x; example_y]) 1 = Ret example_y /\
  exists what,
    Terms_at example_heap (Terms_of [example_x; example_y]) 2
      = Throw (out_of_range what).
Proof.
  assert (H : Forall (fun t => Term_is_null t = true
                               \/ Term_ok example_heap t)
                [example_x; example_y]).
  { constructor; [right; exact example_x_ok|].
    constructor; [right; exact example_y_ok|constructor]. }
  split; [exact H|].
  destruct (Terms_at_spec Int example_heap [example_x; example_y] H)
    as (H1 & H2 & H3).
  split; [exact H1|]. split; [exact (H2 1%nat example_y eq_refl)|].
  apply H3. simpl. lia.
Defined.

(** The operands of [distinct] over [x] and [y]. *)
Lemma distinct_operands_witness :
  [example_x; example_y] <> [] /\
  Forall (fun t => Term_ok example_heap t) [example_x; example_y] /\
  exists t e,
    distinct (Terms_of [example_x; example_y]) example_heap
      = Ret (t, example_heap ++ [e]) /\
    NaryExpr_size e = Ret 2 /\
    NaryExpr_operand Int (example_heap ++ [e]) e 1 = Ret example_y.
Proof.
  assert (Hne : [example_x; example_y] <> []) by discriminate.
  assert (H : Forall (fun t => Term_ok example_heap t)
                [example_x; example_y]).
  { constructor; [exact example_x_ok|].
    constructor; [exact example_y_ok|constructor]. }
  split; [exact Hne|]. split; [exact H|].
  destruct (distinct_operands Int example_heap [example_x; example_y] Hne H)
    as (t & e & H1 & H2 & H3 & _).
  exists t, e. split; [exact H1|]. split; [exact H2|].
  exact (H3 1%nat example_y eq_refl).
Defined.


(** The untyped [x && y] on two [Int] constants is a node of the sort of
    [Int]. *)
Lemma logical_operator_sorts_witness :
  typed_heap example_heap /\
  exists t e,
    unsafe_operator_logic logical_and (to_UnsafeTerm example_x)
      (to_UnsafeTerm example_y) example_heap = Ret (t, example_heap ++ [e]) /\
    m_sort e = sort Int.
Proof.
  split; [exact example_heap_typed|].
  destruct (logical_operator_sorts example_heap example_heap_typed)
    as (_ & Hunsafe).
  destruct (Hunsafe logical_and (to_UnsafeTerm example_x)
              (to_UnsafeTerm example_y) (constant_node Int "x")
              (constant_node Int "y") eq_refl eq_refl)
    as (t & e & H1 & _ & ->).
  exists t. eexists. split; [exact H1|reflexivity].
Defined.

(** [x + 7] and [7 < x], with the scalar an [int]. *)
Lemma scalar_operand_promotion_witness :
  IsPrimitive Int = true /\
  Term_ok example_heap example_x /\
  SMT_BUILTIN_BINARY_OP_rscalar ADD example_x c_int 7 example_heap =
    Ret ({| Term_ptr := Some 6%nat |},
         example_heap ++
           [literal_node (sort Int) c_int 7 (Some Int);
            binary_node (sort Int) ADD (to_UnsafeTerm example_x)
              {| m_ptr := Some 5%nat |} (Some Int)]) /\
  SMT_BUILTIN_BINARY_REL_lscalar LSS c_int 7 example_x example_heap =
    Ret ({| Term_ptr := Some 6%nat |},
         example_heap ++
           [literal_node (sort Int) c_int 7 (Some Int);
            binary_node (sort Bool) LSS {| m_ptr := Some 5%nat |}
              (to_UnsafeTerm example_x) (Some Bool)]).
Proof.
  split; [reflexivity|]. split; [exact example_x_ok|].
  destruct (scalar_operand_promotion ADD Int example_x c_int 7 example_heap
              eq_refl example_x_ok) as (H1 & _).
  destruct (scalar_operand_promotion LSS Int example_x c_int 7 example_heap
              eq_refl example_x_ok) as (_ & _ & _ & H2 & _).
  split; [exact H1|exact H2].
Defined.

(** The untyped [p & 1]: the literal takes the sort of [p]. *)
Lemma unsafe_scalar_operand_promotion_witness :
  points_to example_heap (to_UnsafeTerm example_p)
    (constant_node (Bv c_int) "p") /\
  SMT_UNSAFE_BINARY_OP_rscalar AND (to_UnsafeTerm example_p) c_int 1
    example_heap =
    Ret ({| m_ptr := Some 6%nat |},
         example_heap ++
           [literal_node (sort (Bv c_int)) c_int 1 None;
            binary_node (sort (Bv c_int)) AND (to_UnsafeTerm example_p)
              {| m_ptr := Some 5%nat |} None]).
Proof.
  split; [reflexivity|].
  destruct (unsafe_scalar_operand_promotion AND (to_UnsafeTerm example_p)
              (constant_node (Bv c_int) "p") c_int 1 example_heap eq_refl)
    as (H1 & _).
  exact H1.
Defined.

(** [select(a, x)], typed and unchecked. *)
Lemma typed_untyped_agree_witness :
  typed_heap example_heap /\
  exists e,
    ArraySelectExpr_ctor Int Int example_a example_x example_heap = Ret e /\
    UnsafeArraySelectExpr_ctor no_storage (to_UnsafeTerm example_a)
      (to_UnsafeTerm example_x) example_heap = Ret (erase e).
Proof.
  split; [exact example_heap_typed|].
  destruct (typed_untyped_agree no_storage example_heap example_heap_typed)
    as (Hsel & _).
  exact (Hsel Int Int example_a example_x example_a_ok example_x_ok).
Defined.

(** A [long] literal of class [Int] on a solver that overrides the hook of
    [int] only. *)
Lemma literal_encode_witness :
  IsPrimitive Int = true /\
  override_encode_literal example_solver c_long = None /\
  exists t h1,
    literal Int c_long 7 example_heap = Ret (t, h1) /\
    forall h2 u, unsafe_literal (sort Int) c_long 7 h1 = Ret (u, h2) ->
      UnsafeTerm_encode h2 example_solver (to_UnsafeTerm t) 0%nat
        = Ret (UNSUPPORT_ERROR, 0%nat).
Proof.
  split; [reflexivity|]. split; [reflexivity|].
  destruct (literal_encode nat example_solver 0%nat Int (sort Int) c_long 7
              example_heap eq_refl) as (t & u & h1 & h2 & H1 & H2 & Hnone & _).
  exists t, h1. split; [exact H1|].
  intros h2' u' H2'. rewrite H2 in H2'. injection H2' as <- <-.
  now destruct (Hnone eq_refl).
Defined.

(** [apply(f, x)] for [f] of class [Func<Int, Bool>]. *)
Lemma apply_arguments_witness :
  [Int] <> [] /\
  RemoveLast [Int; Bool] = Some [Int] /\
  exists (t : Term Bool) (e : UnsafeExpr),
    apply [Int] Bool {| Decl_symbol := "f" |} (example_x, tt) example_heap
      = Ret (t, example_heap ++ [e]) /\
    members e = UnsafeFuncAppExpr 1
                  (Decl_base ({| Decl_symbol := "f" |}
                              : Decl (Func [Int; Bool])))
                  [to_UnsafeTerm example_x].
Proof.
  assert (Hne : [Int] <> []) by discriminate.
  split; [exact Hne|].
  destruct (apply_arguments [Int] Bool {| Decl_symbol := "f" |}
              (example_x, tt) example_heap Hne)
    as (H1 & _ & _ & _ & _ & _ & _ & H2).
  split; [exact H1|exact H2].
Defined.
